(** * MMR-Universal regularizer (custom_layers/mmr_regularizer.py)

    A shallow embedding of the five functions of [mmr_regularizer.py]
    ([get_min_distances], [zero_out_non_min_distances], [calc_v_fc],
    [calc_v_conv], [mmr_cnn]) together with the TensorFlow operations they
    call, and the properties of the regularizer stated over it.  The
    module [Utils] further down embeds the helpers of [functions/utils.py]
    that compute on tensors, strings and dictionaries ([convert_types],
    [l1], [l2], [load_data], [find_model],
    [find_directories_with_keyphrase]).

    Conventions of the embedding.
    - A tensor is its static shape and its row-major data.  Numbers are
      rationals: the arithmetic is the exact one, without float32 rounding,
      infinities or NaN.  [x / 0] is [0] in [Q], where TensorFlow gives an
      infinity or NaN and does not raise: the statements about the values
      of a run carry the hypotheses under which none of its denominators
      is zero (a first filter with no output channel of zero weights, an
      input that is not empty, positive gammas), and the concrete runs
      below divide by no zero.
    - A Python or TensorFlow exception is a [Raise]; the implicit [return
      None] of a Python function is the value [RNone].
    - [np.random.rand] is the sequence of its draws, given as a function
      from the position in the sequence; each call consumes as many draws
      as it returns and the position is passed on.
    - [tf.norm] with [ord=2] needs a square root, which is a parameter of
      the development ([sqrtQ]).
    - The TensorFlow is TensorFlow 2, on which the repository runs
      ([cleverhans.tf2], [tf.optimizers], [tf.GradientTape], and the
      [tf.linalg.diag] of line 244).  Two expressions of the single-norm
      branch of [mmr_cnn] are of TensorFlow 1 and raise there: the keyword
      [keep_dims] of [tf.norm] at line 125, a [TypeError], and
      [tf.matrix_diag] at line 158, an [AttributeError]. *)

From Stdlib Require Import String Ascii.
From Stdlib Require Import List Arith PeanoNat ZArith QArith Qabs Qminmax Qround.
From Stdlib Require Import Bool Lia Lqa.
From Stdlib Require Import Sorting.Permutation Sorting.Sorted SetoidList.
Import ListNotations.

Local Open Scope nat_scope.

(** ** Exceptions *)

Inductive exn : Type :=
| IndexError          (* list index out of range, shape index out of range *)
| TypeError           (* subscript of a float, unsupported operand *)
| ValueError          (* wrong number of values to unpack *)
| InvalidArgument     (* TensorFlow shape or argument error *)
| AttributeError.     (* the module has no attribute of that name *)

Inductive res (A : Type) : Type :=
| Ok (a : A)
| Raise (e : exn).

Arguments Ok {A} a.
Arguments Raise {A} e.

Definition bind {A B : Type} (m : res A) (k : A -> res B) : res B :=
  match m with
  | Ok a => k a
  | Raise e => Raise e
  end.

Notation "x <- m ;; k" := (bind m (fun x => k))
  (at level 61, m at next level, right associativity).
Notation "' p <- m ;; k" := (bind m (fun x => match x with p => k end))
  (at level 61, p pattern, m at next level, right associativity).


(** Python list indexing, [l[i]] and [l[-1]]. *)
Definition py_index {A : Type} (l : list A) (i : nat) : res A :=
  match nth_error l i with
  | Some a => Ok a
  | None => Raise IndexError
  end.

Definition py_last {A : Type} (l : list A) : res A :=
  match rev l with
  | a :: _ => Ok a
  | [] => Raise IndexError
  end.

(** ** Tensors *)

Record tensor : Type := mkT { shape : list nat; data : list Q }.

Definition numel (sh : list nat) : nat := fold_right Nat.mul 1 sh.

Definition rank (t : tensor) : nat := length (shape t).

(** Row-major position of a multi-index, and back. *)
Fixpoint ravel (sh idx : list nat) : nat :=
  match sh, idx with
  | _ :: sh', j :: idx' => j * numel sh' + ravel sh' idx'
  | _, _ => 0
  end.

Fixpoint unravel (sh : list nat) (i : nat) : list nat :=
  match sh with
  | [] => []
  | _ :: sh' => i / numel sh' :: unravel sh' (i mod numel sh')
  end.

Definition tget (t : tensor) (idx : list nat) : Q :=
  nth (ravel (shape t) idx) (data t) 0%Q.

Definition tbuild (sh : list nat) (f : list nat -> Q) : tensor :=
  mkT sh (map (fun i => f (unravel sh i)) (seq 0 (numel sh))).

Definition tmap (f : Q -> Q) (t : tensor) : tensor :=
  mkT (shape t) (map f (data t)).

(** A Python float used where a tensor is expected. *)
Definition scalar (q : Q) : tensor := mkT [] [q].

(** [t.shape[i]] and [t.shape[-1]]. *)
Definition dim_at (t : tensor) (i : nat) : res nat := py_index (shape t) i.
Definition dim_last (t : tensor) : res nat := py_last (shape t).

Definition Qlt_bool (x y : Q) : bool := negb (Qle_bool y x).

Definition b2q (b : bool) : Q := if b then 1%Q else 0%Q.

Definition qsum (l : list Q) : Q := fold_right Qplus 0%Q l.

(** Greatest element of a list, [dflt] when it is empty. *)
Definition qmax_list (dflt : Q) (l : list Q) : Q :=
  match l with
  | [] => dflt
  | x :: l' => fold_left Qmax l' x
  end.

(** *** Broadcasting element-wise operations *)

Definition bdim (a b : nat) : option nat :=
  if a =? b then Some a
  else if a =? 1 then Some b
  else if b =? 1 then Some a
  else None.

(** Shapes are aligned on their last axis; [bshape_rev] works on the
    reversed shapes. *)
Fixpoint bshape_rev (r1 r2 : list nat) : option (list nat) :=
  match r1, r2 with
  | [], _ => Some r2
  | _, [] => Some r1
  | a :: r1', b :: r2' =>
      match bdim a b, bshape_rev r1' r2' with
      | Some c, Some r => Some (c :: r)
      | _, _ => None
      end
  end.

Definition bshape (sh1 sh2 : list nat) : option (list nat) :=
  option_map (@rev nat) (bshape_rev (rev sh1) (rev sh2)).

(** The index of an operand of shape [sh] that the result index [idx]
    reads: the leading axes the operand lacks are dropped, and an axis of
    size 1 is read at 0. *)
Definition bidx (sh idx : list nat) : list nat :=
  map (fun '(n, j) => if n =? 1 then 0 else j)
      (combine sh (skipn (length idx - length sh) idx)).

Definition bop (f : Q -> Q -> Q) (a b : tensor) : res tensor :=
  match bshape (shape a) (shape b) with
  | Some sh =>
      Ok (tbuild sh (fun idx =>
            f (tget a (bidx (shape a) idx)) (tget b (bidx (shape b) idx))))
  | None => Raise InvalidArgument
  end.

Definition tf_add := bop Qplus.
Definition tf_sub := bop Qminus.
Definition tf_mul := bop Qmult.
Definition tf_div := bop Qdiv.
Definition tf_maximum := bop Qmax.
Definition tf_minimum := bop Qmin.

Definition tf_abs : tensor -> tensor := tmap Qabs.
Definition tf_neg : tensor -> tensor := tmap Qopp.

(** [tf.cast(tf.greater(a, b), tf.float32)] and its siblings: the
    comparison followed by the cast of the booleans to 1.0 and 0.0. *)
Definition cast_greater := bop (fun x y => b2q (Qlt_bool y x)).
Definition cast_less := bop (fun x y => b2q (Qlt_bool x y)).

(** *** Shape operations *)

(** An entry of the shape given to [tf.reshape]: a size, or [-1]. *)
Inductive dimspec : Type :=
| D (n : nat)
| Infer.

Definition known_prod (sh : list dimspec) : nat :=
  fold_right (fun d acc => match d with D n => n * acc | Infer => acc end) 1 sh.

Definition count_infer (sh : list dimspec) : nat :=
  length (filter (fun d => match d with Infer => true | D _ => false end) sh).

Definition resolve (missing : nat) (d : dimspec) : nat :=
  match d with D n => n | Infer => missing end.

(** [tf.reshape]: the data are kept, the sizes must agree, and one [-1] is
    inferred when the other sizes are not zero and divide the size. *)
Definition tf_reshape (t : tensor) (sh : list dimspec) : res tensor :=
  let size := numel (shape t) in
  let kp := known_prod sh in
  match count_infer sh with
  | 0 => if size =? kp then Ok (mkT (map (resolve 0) sh) (data t))
         else Raise InvalidArgument
  | 1 => if (kp =? 0) || negb (size mod kp =? 0) then Raise InvalidArgument
         else Ok (mkT (map (resolve (size / kp)) sh) (data t))
  | _ => Raise InvalidArgument
  end.

(** [tf.eye(n, m)] *)
Definition tf_eye (n m : nat) : tensor :=
  tbuild [n; m] (fun idx => match idx with
                            | [i; j] => b2q (i =? j)
                            | _ => 0%Q
                            end).

(** [tf.tile(t, multiples)] *)
Definition tf_tile (t : tensor) (mult : list nat) : res tensor :=
  if length mult =? rank t then
    Ok (tbuild (map (fun '(n, m) => n * m) (combine (shape t) mult))
               (fun idx => tget t (map (fun '(n, j) => j mod n)
                                       (combine (shape t) idx))))
  else Raise InvalidArgument.

(** [tf.expand_dims(t, 1)] *)
Definition tf_expand_dims1 (t : tensor) : res tensor :=
  match shape t with
  | n :: sh => Ok (mkT (n :: 1 :: sh) (data t))
  | [] => Raise InvalidArgument
  end.

(** [tf.squeeze(t, 1)] *)
Definition tf_squeeze1 (t : tensor) : res tensor :=
  match shape t with
  | n :: 1 :: sh => Ok (mkT (n :: sh) (data t))
  | _ => Raise InvalidArgument
  end.

(** [tf.transpose(t, perm=[0, 2, 1])] *)
Definition tf_transpose_021 (t : tensor) : res tensor :=
  match shape t with
  | [a; b; c] =>
      Ok (tbuild [a; c; b] (fun idx => match idx with
                                       | [i; j; k] => tget t [i; k; j]
                                       | _ => 0%Q
                                       end))
  | _ => Raise InvalidArgument
  end.

Fixpoint shape_eqb (s1 s2 : list nat) : bool :=
  match s1, s2 with
  | [], [] => true
  | a :: s1', b :: s2' => (a =? b) && shape_eqb s1' s2'
  | _, _ => false
  end.

(** [tf.concat([a, b], 1)] *)
Definition tf_concat1 (a b : tensor) : res tensor :=
  match shape a, shape b with
  | n :: ma :: sa, n' :: mb :: sb =>
      if (n =? n') && shape_eqb sa sb then
        Ok (tbuild (n :: (ma + mb) :: sa)
              (fun idx => match idx with
                          | i :: j :: rest =>
                              if j <? ma then tget a (i :: j :: rest)
                              else tget b (i :: (j - ma) :: rest)
                          | _ => 0%Q
                          end))
      else Raise InvalidArgument
  | _, _ => Raise InvalidArgument
  end.

(** *** Reductions *)

(** The entries of [t] along axis [a] at the position [idx] of the other
    axes ([idx] has a place for axis [a] when [keep] is set). *)
Definition fibre (t : tensor) (a : nat) (keep : bool) (n : nat)
    (idx : list nat) : list Q :=
  map (fun j => tget t (firstn a idx ++ j :: skipn (if keep then S a else a) idx))
      (seq 0 n).

Definition reduce_axis (g : list Q -> Q) (keep : bool) (a : nat) (t : tensor)
    : res tensor :=
  match nth_error (shape t) a with
  | Some n =>
      Ok (tbuild (firstn a (shape t) ++ (if keep then [1] else [])
                    ++ skipn (S a) (shape t))
                 (fun idx => g (fibre t a keep n idx)))
  | None => Raise InvalidArgument
  end.

(** [tf.reduce_sum(t, axis=a)] *)
Definition tf_reduce_sum (a : nat) (t : tensor) : res tensor :=
  reduce_axis qsum false a t.

(** [V @ W]: matrices, or batches of matrices with the same batch size. *)
Definition tf_matmul (a b : tensor) : res tensor :=
  match shape a, shape b with
  | [m; k], [k'; n] =>
      if k =? k' then
        Ok (tbuild [m; n] (fun idx => match idx with
              | [i; j] => qsum (map (fun l => (tget a [i; l] * tget b [l; j])%Q)
                                    (seq 0 k))
              | _ => 0%Q
              end))
      else Raise InvalidArgument
  | [bs; m; k], [bs'; k'; n] =>
      if (bs =? bs') && (k =? k') then
        Ok (tbuild [bs; m; n] (fun idx => match idx with
              | [e; i; j] =>
                  qsum (map (fun l => (tget a [e; i; l] * tget b [e; l; j])%Q)
                            (seq 0 k))
              | _ => 0%Q
              end))
      else Raise InvalidArgument
  | _, _ => Raise InvalidArgument
  end.

(** [tf.linalg.diag(t)] of a batch of vectors, line 244. *)
Definition tf_linalg_diag (t : tensor) : res tensor :=
  match shape t with
  | [bs; k] =>
      Ok (tbuild [bs; k; k] (fun idx => match idx with
            | [e; i; j] => if i =? j then tget t [e; i] else 0%Q
            | _ => 0%Q
            end))
  | _ => Raise InvalidArgument
  end.

(** [tf.matrix_diag(t)], line 158: the name of TensorFlow 1.  The module
    [tensorflow] of TensorFlow 2 has no attribute [matrix_diag] (line 244
    was ported to [tf.linalg.diag], line 158 was not), so that the
    expression raises whatever [t] is. *)
Definition tf_matrix_diag (t : tensor) : res tensor := Raise AttributeError.

(** *** Pooling and convolution (NHWC) *)

Inductive padding : Type := VALID | SAME.

(** Size of the output of a window operation along one axis, and the
    padding before the first entry: TensorFlow's rule, whose quotient
    truncates towards zero and whose negative results are refused. *)
Definition window (p : padding) (n k s : nat) : res (nat * nat) :=
  if s =? 0 then Raise InvalidArgument
  else match p with
       | VALID =>
           let o := Z.quot (Z.of_nat n - Z.of_nat k + Z.of_nat s) (Z.of_nat s) in
           if (o <? 0)%Z then Raise InvalidArgument else Ok (Z.to_nat o, 0)
       | SAME =>
           let o := (n + s - 1) / s in
           Ok (o, ((o - 1) * s + k - n) / 2)
       end.

(** Input position read by offset [d] of the window of output [i], when
    it falls inside the input. *)
Definition win_pos (i s d pad n : nat) : option nat :=
  let p := i * s + d in
  if (pad <=? p) && (p - pad <? n) then Some (p - pad) else None.

(** [tf.nn.max_pool2d(t, ksize=(k, k), strides=(s, s), padding=p)] *)
Definition tf_max_pool2d (t : tensor) (k s : nat) (p : padding) : res tensor :=
  match shape t with
  | [n; h; w; c] =>
      ' (ho, ph) <- window p h k s ;;
      ' (wo, pw) <- window p w k s ;;
      Ok (tbuild [n; ho; wo; c] (fun idx => match idx with
            | [e; i; j; ch] =>
                qmax_list 0 (flat_map (fun di => flat_map (fun dj =>
                  match win_pos i s di ph h, win_pos j s dj pw w with
                  | Some r, Some q => [tget t [e; r; q; ch]]
                  | _, _ => []
                  end) (seq 0 k)) (seq 0 k))
            | _ => 0%Q
            end))
  | _ => Raise InvalidArgument
  end.

(** [tf.nn.conv2d(t, w, strides=[1, s, s, 1], padding=p)] *)
Definition tf_conv2d (t w : tensor) (s : nat) (p : padding) : res tensor :=
  match shape t, shape w with
  | [n; h; wd; c], [kh; kw; c'; co] =>
      if c =? c' then
        ' (ho, ph) <- window p h kh s ;;
        ' (wo, pw) <- window p wd kw s ;;
        Ok (tbuild [n; ho; wo; co] (fun idx => match idx with
              | [e; i; j; o] =>
                  qsum (flat_map (fun di => flat_map (fun dj =>
                    match win_pos i s di ph h, win_pos j s dj pw wd with
                    | Some r, Some q =>
                        map (fun ch => (tget t [e; r; q; ch]
                                        * tget w [di; dj; ch; o])%Q) (seq 0 c)
                    | _, _ => []
                    end) (seq 0 kw)) (seq 0 kh))
              | _ => 0%Q
              end))
      else Raise InvalidArgument
  | _, _ => Raise InvalidArgument
  end.

(** *** top-k *)

Fixpoint insert_desc (x : Q) (l : list Q) : list Q :=
  match l with
  | [] => [x]
  | y :: l' => if Qle_bool y x then x :: l else y :: insert_desc x l'
  end.

Definition sort_desc (l : list Q) : list Q := fold_right insert_desc [] l.

(** The entries of a tensor along its last axis, at the position [pre] of
    the other axes. *)
Definition last_row (t : tensor) (n : nat) (pre : list nat) : list Q :=
  map (fun j => tget t (pre ++ [j])) (seq 0 n).

(** [tf.nn.top_k(t, k=k).values]: the [k] greatest entries along the last
    axis, greatest first. *)
Definition tf_top_k_values (t : tensor) (k : nat) : res tensor :=
  match rev (shape t) with
  | [] => Raise InvalidArgument
  | n :: pre_rev =>
      if k <=? n then
        Ok (tbuild (rev pre_rev ++ [k]) (fun idx =>
              nth (last idx 0) (firstn k (sort_desc (last_row t n (removelast idx))))
                  0%Q))
      else Raise InvalidArgument
  end.

(** ** mmr_regularizer.py *)

(** [get_min_distances(dists, k)], line 27 *)
Definition get_min_distances (dists : tensor) (k : nat) : res tensor :=
  v <- tf_top_k_values (tf_neg dists) k ;;
  Ok (tf_neg v).

(** [np.random.rand(n)]: the next [n] draws, and the position after. *)
Definition np_random_rand (rng : nat -> Q) (pos n : nat) : tensor * nat :=
  (tbuild [n] (fun idx => match idx with
                          | [i] => rng (pos + i)
                          | _ => 0%Q
                          end),
   pos + n).

(** [tf.reduce_max] of one row.  The maximum of an empty row is minus
    infinity in TensorFlow, which is below every entry: it is [None]
    here. *)
Definition row_max (l : list Q) : option Q :=
  match l with
  | [] => None
  | x :: l' => Some (fold_left Qmax l' x)
  end.

Definition le_threshold (x : Q) (th : option Q) : bool :=
  match th with
  | Some m => Qle_bool x m
  | None => false
  end.

(** Lines 34 to 36: the maximum of each row of [mins], repeated [n_units]
    times along axis 1, and the test of each entry of [dist] against it,
    cast to 1.0 and 0.0. *)
Definition mask_le_row_max (dist mins : tensor) (n_units : nat) : res tensor :=
  match shape dist, shape mins with
  | [bs; n], [bs'; k] =>
      if (bs =? bs') && (n =? n_units) then
        Ok (tbuild [bs; n] (fun idx => match idx with
              | [e; j] =>
                  b2q (le_threshold (tget dist [e; j])
                                    (row_max (last_row mins k [e])))
              | _ => 0%Q
              end))
      else Raise InvalidArgument
  | _, _ => Raise InvalidArgument
  end.

(** [zero_out_non_min_distances(dist, n_boundaries)], lines 30 to 37 *)
Definition zero_out_non_min_distances (rng : nat -> Q) (pos : nat)
    (dist : tensor) (n_boundaries : nat) : res (tensor * nat) :=
  n_units <- dim_at dist 1 ;;
  let (r, pos') := np_random_rand rng pos n_units in
  c <- tf_sub r (scalar (1 # 2)) ;;
  noise <- tf_mul (scalar (1 # 100000)) c ;;
  dist <- tf_add dist noise ;;
  min_dist_rb <- get_min_distances dist n_boundaries ;;
  th <- mask_le_row_max dist min_dist_rb n_units ;;
  Ok (th, pos').

(** [n_prev, n_next = W.shape] *)
Definition unpack2 (sh : list nat) : res (nat * nat) :=
  match sh with
  | [a; b] => Ok (a, b)
  | _ => Raise ValueError
  end.

(** [calc_v_fc(V_prev, W)], lines 40 to 52 *)
Definition calc_v_fc (V_prev W : tensor) : res tensor :=
  n_in <- dim_at V_prev 1 ;;
  ' (n_prev, n_next) <- unpack2 (shape W) ;;
  V <- tf_reshape V_prev [Infer; D n_prev] ;;
  V <- tf_matmul V W ;;
  tf_reshape V [Infer; D n_in; D n_next].

(** [calc_v_conv(V_prev, w, stride, padding, boo_last)], lines 55 to 70 *)
Definition calc_v_conv (V_prev w : tensor) (stride : nat) (pad : padding)
    (boo_last : bool) : res tensor :=
  d <- dim_at V_prev 1 ;;
  h_prev <- dim_at V_prev 2 ;;
  w_prev <- dim_at V_prev 3 ;;
  c_prev <- dim_at V_prev 4 ;;
  V <- tf_reshape V_prev [Infer; D h_prev; D w_prev; D c_prev] ;;
  V <- (if negb boo_last then tf_max_pool2d V 2 2 pad else Ok V) ;;
  V <- tf_conv2d V w stride pad ;;
  s1 <- dim_at V 1 ;;
  s2 <- dim_at V 2 ;;
  s3 <- dim_at V 3 ;;
  tf_reshape V [Infer; D d; D s1; D s2; D s3].

(** *** Arguments and results of [mmr_cnn] *)

(** The [ord] of [tf.norm]. *)
Inductive ord : Type := Ord1 | Ord2 | OrdInf.

(** The argument [q]: a number, [np.inf], or a string. *)
Inductive norm_spec : Type :=
| QNum (v : Q)
| QInf
| QStr (s : string).

(** [q in [1, 2, np.inf]], with the [ord] the branch then norms with. *)
Definition single_ord (q : norm_spec) : option ord :=
  match q with
  | QNum v => if Qeq_bool v 1 then Some Ord1
              else if Qeq_bool v 2 then Some Ord2
              else None
  | QInf => Some OrdInf
  | QStr _ => None
  end.

(** [q in ['univ']] *)
Definition is_univ (q : norm_spec) : bool :=
  match q with
  | QStr s => String.eqb s "univ"
  | _ => false
  end.

(** [gamma_rb] and [gamma_db]: a float, or a sequence of floats. *)
Inductive hyper : Type :=
| HFloat (g : Q)
| HSeq (l : list Q).

Definition as_tensor (h : hyper) : tensor :=
  match h with
  | HFloat g => scalar g
  | HSeq l => mkT [length l] l
  end.

(** [gamma[i]] *)
Definition subscript (h : hyper) (i : nat) : res Q :=
  match h with
  | HFloat _ => Raise TypeError
  | HSeq l => py_index l i
  end.

(** What [mmr_cnn] returns: [rb_term, db_term], the list [reg_details], or
    [None] when it reaches its end without a [return]. *)
Inductive mmr_result : Type :=
| RPair (rb_term db_term : tensor)
| RList (reg_details : list tensor)
| RNone.

(** The six lists filled by the loop of lines 101 to 111. *)
Record layers : Type := mkLayers {
  z_conv : list tensor;
  z_fc : list tensor;
  relus_conv : list tensor;
  relus_fc : list tensor;
  W_conv : list tensor;
  W_fc : list tensor
}.

Definition no_layers : layers := mkLayers [] [] [] [] [] [].

(** A [for] loop over [idxs] whose body may raise. *)
Fixpoint for_each {S : Type} (idxs : list nat) (body : nat -> S -> res S)
    (s : S) : res S :=
  match idxs with
  | [] => Ok s
  | i :: rest => s' <- body i s ;; for_each rest body s'
  end.

(** Lines 101 to 111 *)
Definition split_layers (z_list weights : list tensor) : res layers :=
  for_each (seq 0 (length z_list))
    (fun i L =>
       z <- py_index z_list i ;;
       if rank z =? 4 then
         relu <- cast_greater z (scalar 0) ;;
         relu <- tf_expand_dims1 relu ;;
         W <- py_index weights (2 * i) ;;
         Ok (mkLayers (z_conv L ++ [z]) (z_fc L)
                      (relus_conv L ++ [relu]) (relus_fc L)
                      (W_conv L ++ [W]) (W_fc L))
       else
         relu <- cast_greater z (scalar 0) ;;
         relu <- tf_expand_dims1 relu ;;
         W <- py_index weights (2 * i) ;;
         Ok (mkLayers (z_conv L) (z_fc L ++ [z])
                      (relus_conv L) (relus_fc L ++ [relu])
                      (W_conv L) (W_fc L ++ [W])))
    no_layers.

(** Line 92 *)
Definition eps_num_stabil : Q := 1 # 100000.

(** Line 95 *)
Definition strides : list nat := [1; 1; 1; 1; 1].
Definition padding_used : padding := VALID.

(** [V + eps_num_stabil * tf.cast(tf.less(tf.abs(V), eps_num_stabil),
    tf.float32)], lines 137, 148, 208 and 225 *)
Definition stabilise (V : tensor) : res tensor :=
  m <- cast_less (tf_abs V) (scalar eps_num_stabil) ;;
  e <- tf_mul (scalar eps_num_stabil) m ;;
  tf_add V e.

(** [z.shape[1]*z.shape[2]*z.shape[3]] *)
Definition prod_dims123 (z : tensor) : res nat :=
  a <- dim_at z 1 ;;
  b <- dim_at z 2 ;;
  c <- dim_at z 3 ;;
  Ok (a * b * c).

(** [V.shape[2] * V.shape[3] * V.shape[4]] *)
Definition prod_dims234 (V : tensor) : res nat :=
  a <- dim_at V 2 ;;
  b <- dim_at V 3 ;;
  c <- dim_at V 4 ;;
  Ok (a * b * c).

(** [tf.maximum(0.0, 1.0 - dist / gamma)] *)
Definition hinge (dist gamma : tensor) : res tensor :=
  r <- tf_div dist gamma ;;
  m <- tf_sub (scalar 1) r ;;
  tf_maximum (scalar 0) m.

(** [tf.reduce_sum(th * tf.maximum(0.0, 1.0 - dist / gamma), axis=1)] *)
Definition masked_hinge_sum (th dist gamma : tensor) : res tensor :=
  h <- hinge dist gamma ;;
  p <- tf_mul th h ;;
  tf_reduce_sum 1 p.

(** [tf.reduce_sum(tf.maximum(0.0, 1.0 - dist / gamma), axis=1)] *)
Definition hinge_sum (dist gamma : tensor) : res tensor :=
  h <- hinge dist gamma ;;
  tf_reduce_sum 1 h.

Section Regularizer.

(** The square root of [tf.norm(..., ord=2)]. *)
Variable sqrtQ : Q -> Q.

Definition vnorm (o : ord) (l : list Q) : Q :=
  match o with
  | Ord1 => qsum (map Qabs l)
  | Ord2 => sqrtQ (qsum (map (fun x => (x * x)%Q) l))
  | OrdInf => qmax_list 0 (map Qabs l)
  end.

(** [tf.norm(t, axis=a, ord=o)], lines 138, 149, 166, 191, 195 and so
    on, and, when [keep_dims] is set, the call [tf.norm(t, axis=a, ord=o,
    keep_dims=True)] of line 125.  [keep_dims] is the name that TensorFlow 1
    gave to the argument [keepdims]: [tf.norm] of TensorFlow 2 has no
    parameter of that name and refuses the keyword with a [TypeError],
    after its arguments have been evaluated and before anything is
    computed (lines 191 and 195 were ported by dropping the keyword, line
    125 was not). *)
Definition tf_norm (t : tensor) (a : nat) (o : ord) (keep_dims : bool)
    : res tensor :=
  if keep_dims then Raise TypeError else reduce_axis (vnorm o) false a t.

(** Lines 159 to 165, and again 245 to 251: [diff_v], from the
    sensitivities [V] of the logits and [y_true_diag]. *)
Definition sensitivity_diff_of (V y_true_diag : tensor) (n_out n_in : nat)
    : res tensor :=
  LLK2 <- tf_matmul V y_true_diag ;;
  l <- tf_reduce_sum 2 LLK2 ;;
  l <- tf_tile l [1; n_out] ;;
  l <- tf_reshape l [Infer; D n_out; D n_in] ;;
  V_argmax <- tf_transpose_021 l ;;
  d <- tf_sub V V_argmax ;;
  let diff_v := tf_abs d in
  m <- cast_less diff_v (scalar eps_num_stabil) ;;
  e <- tf_mul (scalar eps_num_stabil) m ;;
  tf_add diff_v e.

(** Lines 244 to 251: [diff_v] in the dual-norm branch, where
    [y_true_diag] is [tf.linalg.diag(y_true)]. *)
Definition sensitivity_diff (V y_true : tensor) (n_out n_in : nat) : res tensor :=
  y_true_diag <- tf_linalg_diag y_true ;;
  sensitivity_diff_of V y_true_diag n_out n_in.

(** Lines 168 to 175, and again 256 to 263: [dist_db_numerator], from the
    logits, [y_true_diag] and the labels. *)
Definition margin_numerator_of (y_pred y_true_diag y_true : tensor) (n_out : nat)
    : res tensor :=
  y_pred_diag <- tf_expand_dims1 y_pred ;;
  y_pred_correct <- tf_matmul y_pred_diag y_true_diag ;;
  y_pred_correct <- tf_reduce_sum 2 y_pred_correct ;;
  y_pred_correct <- tf_tile y_pred_correct [1; n_out] ;;
  y_pred_correct <- tf_reshape y_pred_correct [Infer; D n_out; D 1] ;;
  y_pred_correct <- tf_transpose_021 y_pred_correct ;;
  d <- tf_sub y_pred_correct y_pred_diag ;;
  dist_db_numerator <- tf_squeeze1 d ;;
  h <- tf_mul (scalar 100) y_true ;;
  tf_add dist_db_numerator h.

(** Lines 244 and 256 to 263: [dist_db_numerator] in the dual-norm
    branch. *)
Definition margin_numerator (y_pred y_true : tensor) (n_out : nat) : res tensor :=
  y_true_diag <- tf_linalg_diag y_true ;;
  margin_numerator_of y_pred y_true_diag y_true n_out.

(** [dist_db_numerator / dist_db_denominator + y_true * 2.0 * gamma_db],
    lines 177, 265 and 266 *)
Definition db_distance (numerator denominator y_true gamma_db : tensor)
    : res tensor :=
  r <- tf_div numerator denominator ;;
  y2 <- tf_mul y_true (scalar 2) ;;
  g <- tf_mul y2 gamma_db ;;
  tf_add r g.

(** *** Single-norm branch, lines 123 to 181

    The branch is written for TensorFlow 1: line 125 passes [keep_dims] to
    [tf.norm] and line 158 reads [tf.matrix_diag].  It is embedded line by
    line, with what these two expressions do in TensorFlow 2. *)

(** Lines 136 to 141: one pass of the loop over the convolutional layers
    after the first, on the sensitivities and the distances so far. *)
Definition conv_step_single (o : ord) (L : layers) (bs i : nat)
    (st : tensor * tensor) : res (tensor * tensor) :=
  let '(V, dist_rb) := st in
  Wi <- py_index (W_conv L) i ;;
  si <- py_index strides i ;;
  V <- calc_v_conv V Wi si padding_used false ;;
  V_stable <- stabilise V ;;
  zi <- py_index (z_conv L) i ;;
  nrm <- tf_norm V_stable 1 o false ;;
  new_dist_rb <- tf_div (tf_abs zi) nrm ;;
  ni <- prod_dims123 zi ;;
  new_dist_rb <- tf_reshape new_dist_rb [D bs; D ni] ;;
  dist_rb <- tf_concat1 dist_rb new_dist_rb ;;
  ri <- py_index (relus_conv L) i ;;
  V <- tf_mul V ri ;;
  Ok (V, dist_rb).

(** Lines 147 to 151: one pass of the loop over the fully-connected
    layers but the last. *)
Definition fc_step_single (o : ord) (L : layers) (i : nat)
    (st : tensor * tensor) : res (tensor * tensor) :=
  let '(V, dist_rb) := st in
  Wi <- py_index (W_fc L) i ;;
  V <- calc_v_fc V Wi ;;
  V_stable <- stabilise V ;;
  zi <- py_index (z_fc L) i ;;
  nrm <- tf_norm V_stable 1 o false ;;
  new_dist_rb <- tf_div (tf_abs zi) nrm ;;
  dist_rb <- tf_concat1 dist_rb new_dist_rb ;;
  ri <- py_index (relus_fc L) i ;;
  V <- tf_mul V ri ;;
  Ok (V, dist_rb).

(** Lines 124 to 127: the distances to the region boundaries of the first
    convolutional layer.  The call of [tf.norm] is the one with
    [keep_dims=True]. *)
Definition first_layer_single (o : ord) (L : layers) (bs : nat) : res tensor :=
  W0 <- py_index (W_conv L) 0 ;;
  c_out <- dim_last W0 ;;
  w_matrix <- tf_reshape W0 [Infer; D c_out] ;;
  denom <- tf_norm w_matrix 0 o true ;;
  z0 <- py_index (z_conv L) 0 ;;
  dist_rb <- tf_div (tf_abs z0) denom ;;
  n0 <- prod_dims123 z0 ;;
  tf_reshape dist_rb [D bs; D n0].

(** Lines 131 to 134: the sensitivities after the first convolutional
    layer, from the identity. *)
Definition seed_single (L : layers) (bs n_in h_in w_in c_in : nat) : res tensor :=
  W0 <- py_index (W_conv L) 0 ;;
  identity_input_fm <-
    tf_reshape (tf_eye n_in n_in) [D 1; D n_in; D h_in; D w_in; D c_in] ;;
  s0 <- py_index strides 0 ;;
  V <- calc_v_conv identity_input_fm W0 s0 padding_used false ;;
  V <- tf_tile V [bs; 1; 1; 1; 1] ;;
  r0 <- py_index (relus_conv L) 0 ;;
  tf_mul V r0.

(** Lines 124 to 151: the distances to the region boundaries and the
    sensitivities after the last hidden layer. *)
Definition rb_single (o : ord) (L : layers) (bs n_in h_in w_in c_in : nat)
    : res (tensor * tensor) :=
  dist_rb <- first_layer_single o L bs ;;
  V <- seed_single L bs n_in h_in w_in c_in ;;
  ' (V, dist_rb) <-
    for_each (seq 1 (length (z_conv L) - 1)) (conv_step_single o L bs)
             (V, dist_rb) ;;
  nf <- prod_dims234 V ;;
  V <- tf_reshape V [D bs; D n_in; D nf] ;;
  for_each (seq 0 (length (z_fc L) - 1)) (fc_step_single o L) (V, dist_rb).

(** Lines 157 to 177: the distances to the decision boundaries. *)
Definition db_single (o : ord) (L : layers) (V y_true y_pred : tensor)
    (gamma_db : hyper) (n_out n_in : nat) : res tensor :=
  W_last <- py_last (W_fc L) ;;
  V <- calc_v_fc V W_last ;;
  y_true_diag <- tf_matrix_diag y_true ;;
  diff_v <- sensitivity_diff_of V y_true_diag n_out n_in ;;
  dist_db_denominator <- tf_norm diff_v 1 o false ;;
  dist_db_numerator <- margin_numerator_of y_pred y_true_diag y_true n_out ;;
  db_distance dist_db_numerator dist_db_denominator y_true (as_tensor gamma_db).

Definition mmr_single (rng : nat -> Q) (pos : nat) (o : ord) (L : layers)
    (y_true y_pred : tensor) (n_rb n_db : nat) (gamma_rb gamma_db : hyper)
    (bs n_in h_in w_in c_in n_out : nat) : res mmr_result :=
  ' (V, dist_rb) <- rb_single o L bs n_in h_in w_in c_in ;;
  ' (th, pos) <- zero_out_non_min_distances rng pos dist_rb n_rb ;;
  rb_term <- masked_hinge_sum th dist_rb (as_tensor gamma_rb) ;;
  dist_db <- db_single o L V y_true y_pred gamma_db n_out n_in ;;
  ' (th, pos) <- zero_out_non_min_distances rng pos dist_db n_db ;;
  db_term <- masked_hinge_sum th dist_db (as_tensor gamma_db) ;;
  Ok (RPair rb_term db_term).

(** *** Dual-norm branch, lines 184 to 273 *)

(** Lines 207 to 217: one pass of the loop over the convolutional layers
    after the first. *)
Definition conv_step_univ (L : layers) (bs : nat) (boo_last : bool) (i : nat)
    (st : tensor * tensor * tensor) : res (tensor * tensor * tensor) :=
  let '(V, dist_rb_l1, dist_rb_linf) := st in
  Wi <- py_index (W_conv L) i ;;
  si <- py_index strides i ;;
  V <- calc_v_conv V Wi si padding_used boo_last ;;
  V_stable <- stabilise V ;;
  zi <- py_index (z_conv L) i ;;
  nrm <- tf_norm V_stable 1 OrdInf false ;;
  new_dist_rb_l1 <- tf_div (tf_abs zi) nrm ;;
  ni <- prod_dims123 zi ;;
  new_dist_rb_l1 <- tf_reshape new_dist_rb_l1 [D bs; D ni] ;;
  dist_rb_l1 <- tf_concat1 dist_rb_l1 new_dist_rb_l1 ;;
  nrm <- tf_norm V_stable 1 Ord1 false ;;
  new_dist_rb_linf <- tf_div (tf_abs zi) nrm ;;
  new_dist_rb_linf <- tf_reshape new_dist_rb_linf [D bs; D ni] ;;
  dist_rb_linf <- tf_concat1 dist_rb_linf new_dist_rb_linf ;;
  ri <- py_index (relus_conv L) i ;;
  V <- tf_mul V ri ;;
  Ok (V, dist_rb_l1, dist_rb_linf).

(** Lines 224 to 233: one pass of the loop over the fully-connected
    layers but the last. *)
Definition fc_step_univ (L : layers) (i : nat)
    (st : tensor * tensor * tensor) : res (tensor * tensor * tensor) :=
  let '(V, dist_rb_l1, dist_rb_linf) := st in
  Wi <- py_index (W_fc L) i ;;
  V <- calc_v_fc V Wi ;;
  V_stable <- stabilise V ;;
  zi <- py_index (z_fc L) i ;;
  nrm <- tf_norm V_stable 1 OrdInf false ;;
  new_dist_rb_l1 <- tf_div (tf_abs zi) nrm ;;
  dist_rb_l1 <- tf_concat1 dist_rb_l1 new_dist_rb_l1 ;;
  nrm <- tf_norm V_stable 1 Ord1 false ;;
  new_dist_rb_linf <- tf_div (tf_abs zi) nrm ;;
  dist_rb_linf <- tf_concat1 dist_rb_linf new_dist_rb_linf ;;
  ri <- py_index (relus_fc L) i ;;
  V <- tf_mul V ri ;;
  Ok (V, dist_rb_l1, dist_rb_linf).

(** Lines 189 to 197: the two vectors of distances to the region
    boundaries of the first convolutional layer. *)
Definition first_layer_univ (L : layers) (bs : nat) : res (tensor * tensor) :=
  W0 <- py_index (W_conv L) 0 ;;
  c_out <- dim_last W0 ;;
  w_matrix <- tf_reshape W0 [Infer; D c_out] ;;
  denom_l1 <- tf_norm w_matrix 0 OrdInf false ;;
  z0 <- py_index (z_conv L) 0 ;;
  dist_rb_l1 <- tf_div (tf_abs z0) denom_l1 ;;
  n0 <- prod_dims123 z0 ;;
  dist_rb_l1 <- tf_reshape dist_rb_l1 [D bs; D n0] ;;
  denom_linf <- tf_norm w_matrix 0 Ord1 false ;;
  dist_rb_linf <- tf_div (tf_abs z0) denom_linf ;;
  dist_rb_linf <- tf_reshape dist_rb_linf [D bs; D n0] ;;
  Ok (dist_rb_l1, dist_rb_linf).

(** Lines 201 to 204: the sensitivities after the first convolutional
    layer, from the identity. *)
Definition seed_univ (L : layers) (bs n_in h_in w_in c_in : nat) : res tensor :=
  W0 <- py_index (W_conv L) 0 ;;
  identity_input_fm <-
    tf_reshape (tf_eye n_in n_in) [D 1; D n_in; D h_in; D w_in; D c_in] ;;
  s0 <- py_index strides 0 ;;
  V <- calc_v_conv identity_input_fm W0 s0 padding_used true ;;
  V <- tf_tile V [bs; 1; 1; 1; 1] ;;
  r0 <- py_index (relus_conv L) 0 ;;
  tf_mul V r0.

(** Lines 189 to 233: the two vectors of distances to the region
    boundaries and the sensitivities after the last hidden layer. *)
Definition rb_univ (L : layers) (bs n_in h_in w_in c_in : nat)
    : res (tensor * tensor * tensor) :=
  ' (dist_rb_l1, dist_rb_linf) <- first_layer_univ L bs ;;
  V <- seed_univ L bs n_in h_in w_in c_in ;;
  let boo_last := false in
  ' (V, dist_rb_l1, dist_rb_linf) <-
    for_each (seq 1 (length (z_conv L) - 1)) (conv_step_univ L bs boo_last)
             (V, dist_rb_l1, dist_rb_linf) ;;
  nf <- prod_dims234 V ;;
  V <- tf_reshape V [D bs; D n_in; D nf] ;;
  for_each (seq 0 (length (z_fc L) - 1)) (fc_step_univ L)
           (V, dist_rb_l1, dist_rb_linf).

(** Lines 235 to 238: the two selections and their union. *)
Definition union_mask (rng : nat -> Q) (pos : nat)
    (dist_rb_l1 dist_rb_linf : tensor) (n_rb : nat) : res (tensor * nat) :=
  ' (th_l1, pos) <- zero_out_non_min_distances rng pos dist_rb_l1 n_rb ;;
  ' (th_linf, pos) <- zero_out_non_min_distances rng pos dist_rb_linf n_rb ;;
  s <- tf_add th_l1 th_linf ;;
  th <- tf_minimum s (scalar 1) ;;
  Ok (th, pos).

(** Lines 243 to 266: the two vectors of distances to the decision
    boundaries. *)
Definition db_univ (L : layers) (V y_true y_pred : tensor)
    (gamma_db_l1 gamma_db_linf : Q) (n_out n_in : nat) : res (tensor * tensor) :=
  W_last <- py_last (W_fc L) ;;
  V <- calc_v_fc V W_last ;;
  diff_v <- sensitivity_diff V y_true n_out n_in ;;
  dist_db_denominator_l1 <- tf_norm diff_v 1 OrdInf false ;;
  dist_db_denominator_linf <- tf_norm diff_v 1 Ord1 false ;;
  dist_db_numerator <- margin_numerator y_pred y_true n_out ;;
  dist_db_l1 <- db_distance dist_db_numerator dist_db_denominator_l1 y_true
                  (scalar gamma_db_l1) ;;
  dist_db_linf <- db_distance dist_db_numerator dist_db_denominator_linf y_true
                    (scalar gamma_db_linf) ;;
  Ok (dist_db_l1, dist_db_linf).

Definition mmr_univ (rng : nat -> Q) (pos : nat) (L : layers)
    (y_true y_pred : tensor) (n_rb n_db : nat) (gamma_rb gamma_db : hyper)
    (bs n_in h_in w_in c_in n_out : nat) : res mmr_result :=
  gamma_rb_l1 <- subscript gamma_rb 0 ;;
  gamma_rb_linf <- subscript gamma_rb 1 ;;
  gamma_db_l1 <- subscript gamma_db 0 ;;
  gamma_db_linf <- subscript gamma_db 1 ;;
  ' (V, dist_rb_l1, dist_rb_linf) <- rb_univ L bs n_in h_in w_in c_in ;;
  ' (th, pos) <- union_mask rng pos dist_rb_l1 dist_rb_linf n_rb ;;
  rb_term_temp_l1 <- masked_hinge_sum th dist_rb_l1 (scalar gamma_rb_l1) ;;
  rb_term_temp_linf <- masked_hinge_sum th dist_rb_linf (scalar gamma_rb_linf) ;;
  ' (dist_db_l1, dist_db_linf) <-
    db_univ L V y_true y_pred gamma_db_l1 gamma_db_linf n_out n_in ;;
  db_term_temp_l1 <- hinge_sum dist_db_l1 (scalar gamma_db_l1) ;;
  db_term_temp_linf <- hinge_sum dist_db_linf (scalar gamma_db_linf) ;;
  Ok (RList [rb_term_temp_l1; rb_term_temp_linf;
             db_term_temp_l1; db_term_temp_linf]).

(** *** [mmr_cnn], lines 72 to 273

    [model] is not read: the strides and the padding are the constants of
    line 95. *)
Definition mmr_cnn (rng : nat -> Q) (pos : nat)
    (z_list : list tensor) (x y_true : tensor) (model : unit)
    (n_rb n_db : nat) (gamma_rb gamma_db : hyper) (bs : nat)
    (q : norm_spec) (weights : list tensor) : res mmr_result :=
  y_pred <- py_last z_list ;;
  L <- split_layers z_list weights ;;
  h_in <- dim_at x 1 ;;
  w_in <- dim_at x 2 ;;
  c_in <- dim_at x 3 ;;
  let n_in := h_in * w_in * c_in in
  n_out <- dim_at y_true 1 ;;
  match single_ord q with
  | Some o =>
      mmr_single rng pos o L y_true y_pred n_rb n_db gamma_rb gamma_db
                 bs n_in h_in w_in c_in n_out
  | None =>
      if is_univ q then
        mmr_univ rng pos L y_true y_pred n_rb n_db gamma_rb gamma_db
                 bs n_in h_in w_in c_in n_out
      else Ok RNone
  end.

End Regularizer.

(** ** Notions used by the statements *)

(** [idx] is an index of a tensor of shape [sh]. *)
Definition inb (idx sh : list nat) : Prop := Forall2 lt idx sh.

Definition strictly_desc : list Q -> Prop :=
  StronglySorted (fun a b => (b < a)%Q).

Definition count (f : Q -> bool) (l : list Q) : nat := length (filter f l).

(** The threshold of [zero_out_non_min_distances] for one row: the maximum
    of the negated top-k of the negated row. *)
Definition kth_threshold (k : nat) (row : list Q) : option Q :=
  row_max (map Qopp (firstn k (sort_desc (map Qopp row)))).

(** Entry [b, j] of [dist] after the jitter of line 32, drawn from
    position [pos] on: the draw depends on the column only. *)
Definition jittered (rng : nat -> Q) (pos : nat) (dist : tensor) (b j : nat) : Q :=
  (tget dist [b; j] + (1 # 100000) * (rng (pos + j)%nat - (1 # 2)))%Q.

Definition jittered_row (rng : nat -> Q) (pos : nat) (dist : tensor)
    (n b : nat) : list Q :=
  map (jittered rng pos dist b) (seq 0 n).

(** Number of entries of row [b] of a mask that are 1. *)
Definition selected (th : tensor) (n b : nat) : nat :=
  length (filter (fun j => Qeq_bool (tget th [b; j]) 1) (seq 0 n)).

(** ** A small network for the concrete runs

    One example of shape 2 x 2 x 1, a 1 x 1 convolution with one filter,
    a hidden fully-connected layer of one unit and two logits.  The
    pre-activations are those of the forward pass on [toy_x] with zero
    biases. *)

(** A square root for the concrete runs: the integer square root of the
    integer part. *)
Definition sqrt_floor (x : Q) : Q := inject_Z (Z.sqrt (Qfloor x)).

Definition toy_x : tensor := mkT [1; 2; 2; 1] [1; 2; 3; 4]%Q.
Definition toy_w0 : tensor := mkT [1; 1; 1; 1] [1]%Q.
Definition toy_b0 : tensor := mkT [1] [0]%Q.
Definition toy_z0 : tensor := mkT [1; 2; 2; 1] [1; 2; 3; 4]%Q.
Definition toy_w1 : tensor := mkT [4; 1] [1; 1; 1; 1]%Q.
Definition toy_b1 : tensor := mkT [1] [0]%Q.
Definition toy_z1 : tensor := mkT [1; 1] [10]%Q.
Definition toy_w2 : tensor := mkT [1; 2] [1; -1]%Q.
Definition toy_b2 : tensor := mkT [2] [0; 0]%Q.
Definition toy_z2 : tensor := mkT [1; 2] [10; -10]%Q.
Definition toy_y : tensor := mkT [1; 2] [1; 0]%Q.

Definition toy_z_list : list tensor := [toy_z0; toy_z1; toy_z2].
Definition toy_weights : list tensor :=
  [toy_w0; toy_b0; toy_w1; toy_b1; toy_w2; toy_b2].

(** The same weights with other biases. *)
Definition toy_weights' : list tensor :=
  [toy_w0; mkT [1] [5]%Q; toy_w1; mkT [1] [7]%Q; toy_w2; mkT [2] [1; 2]%Q].

(** Draws of [np.random.rand] that are all one half: the jitter is zero. *)
Definition rng_half (i : nat) : Q := 1 # 2.

(** Draws that grow with the position: 0, 1/16, 2/16, ... *)
Definition rng_ramp (i : nat) : Q := inject_Z (Z.of_nat (i mod 16)) / 16.

(** A row of five distances, for the concrete run of the selector. *)
Definition toy_dist : tensor := mkT [1; 5] [3; 1; 4; 1; 5]%Q.

(** Sensitivities and weights for the concrete runs of the propagators. *)
Definition toy_V_fc : tensor := mkT [1; 2; 2] [1; 2; 3; 4]%Q.
Definition toy_W_fc : tensor := mkT [2; 1] [1; 1]%Q.
Definition toy_V_conv : tensor :=
  mkT [1; 2; 2; 2; 1] [1; 0; 0; 0; 0; 1; 0; 0]%Q.

(** A second small network, with two convolutional layers (1 x 1 filters,
    a 2 x 2 pooling between them in the forward pass) and two logits. *)
Definition toy2_zc : tensor := mkT [1; 1; 1; 1] [4]%Q.
Definition toy2_wc : tensor := mkT [1; 1; 1; 1] [1]%Q.
Definition toy2_z2 : tensor := mkT [1; 2] [4; -4]%Q.
Definition toy2_z_list : list tensor := [toy_z0; toy2_zc; toy2_z2].
Definition toy2_weights : list tensor :=
  [toy_w0; toy_b0; toy2_wc; toy_b0; toy_w2; toy_b2].

Definition layers_of (z_list weights : list tensor) : layers :=
  match split_layers z_list weights with
  | Ok L => L
  | Raise _ => no_layers
  end.

(** The distance [new] of a layer with pre-activations [z] and propagated
    sensitivities [V] is computed on the floored sensitivities:
    [tf.abs(z) / tf.norm(V_stable, axis=1, ord=o)]. *)
Definition floored_distance (sqrtQ : Q -> Q) (o : ord) (V z new : tensor) : Prop :=
  exists V_stable nrm,
    stabilise V = Ok V_stable /\
    tf_norm sqrtQ V_stable 1 o false = Ok nrm /\
    tf_div (tf_abs z) nrm = Ok new.


(** The state in which a dual-norm run enters the loop of lines 206 to
    217: the sensitivities of lines 201 to 204 and the two vectors of
    distances of lines 189 to 197. *)
Definition univ_start (sqrtQ : Q -> Q) (L : layers) (bs n_in h_in w_in c_in : nat)
    : res (tensor * tensor * tensor) :=
  ' (dist_rb_l1, dist_rb_linf) <- first_layer_univ sqrtQ L bs ;;
  V <- seed_univ L bs n_in h_in w_in c_in ;;
  Ok (V, dist_rb_l1, dist_rb_linf).

(** Every output channel of the first filter has a weight that is not
    zero: no norm of lines 191 and 195 is zero. *)
Definition first_filter_nonzero (L : layers) : Prop :=
  forall W0 c_out c,
    py_index (W_conv L) 0 = Ok W0 -> dim_last W0 = Ok c_out -> c < c_out ->
    exists idx, inb (idx ++ [c]) (shape W0) /\ ~ (tget W0 (idx ++ [c]) == 0)%Q.

(** Every entry of a tensor is non-negative. *)
Definition nonneg (t : tensor) : Prop := Forall (fun x => (0 <= x)%Q) (data t).

(** The index of the tensor reduced along axis 1, with [k] put back at
    axis 1: [[b]] becomes [[b; k]]. *)
Definition at_axis1 (idx : list nat) (k : nat) : list nat :=
  firstn 1 idx ++ k :: skipn 1 idx.


(** The same with each summand multiplied by the entry of the mask [th]:
    [sum_k th[b, k] * max(0, 1 - dist[b, k] / g)]. *)
Definition is_masked_hinge_sum (db th dist : tensor) (g : Q) : Prop :=
  exists K, nth_error (shape dist) 1 = Some K /\
    forall idx, inb idx (shape db) ->
      tget db idx
      = qsum (map (fun k => (tget th (at_axis1 idx k)
                             * Qmax 0 (1 - tget dist (at_axis1 idx k) / g))%Q)
                  (seq 0 K)).


(** Row [b] of the labels is the one-hot encoding of class [c]. *)
Definition one_hot_row (y_true : tensor) (K b c : nat) : Prop :=
  c < K /\ (tget y_true [b; c] == 1)%Q /\
  forall k, k < K -> k <> c -> (tget y_true [b; k] == 0)%Q.






(** A second input, whose first two entries differ from those of
    [toy_x]. *)
Definition toy5_x : tensor :=
  mkT [1; 2; 2; 1] [1600001 # 1600000; 1; 3; 4]%Q.

(** The sensitivities of the toy network after its hidden layer, in
    dual-norm mode. *)
Definition toy_V_last : tensor := mkT [1; 4; 1] [1; 1; 1; 1]%Q.

(** A 3 x 3 image and a 2 x 2 filter of ones, for the concrete runs of the
    TensorFlow operations; [reduced] puts the entries of a result in lowest
    terms. *)
Definition img33 : tensor := mkT [1; 3; 3; 1] [1; 2; 3; 4; 5; 6; 7; 8; 9]%Q.
Definition ones22 : tensor := mkT [2; 2; 1; 1] [1; 1; 1; 1]%Q.

Definition reduced (r : res tensor) : res tensor :=
  match r with
  | Ok t => Ok (tmap Qred t)
  | Raise e => Raise e
  end.

(** The two vectors of distances of a state of the loops of dual-norm
    mode are non-negative. *)
Definition dists_nonneg (st : tensor * tensor * tensor) : Prop :=
  nonneg (snd (fst st)) /\ nonneg (snd st).

(** The two vectors of distances of a state have one shape. *)
Definition dists_same_shape (st : tensor * tensor * tensor) : Prop :=
  shape (snd (fst st)) = shape (snd st).

(** ** Notions used by the further properties *)

(** A row in ascending order. *)
Definition ascending : list Q -> Prop := StronglySorted Qle.

(** The pre-activations with their positions in [z_list]. *)
Definition indexed (z_list : list tensor) : list (nat * tensor) :=
  combine (seq 0 (length z_list)) z_list.

Definition is_conv (p : nat * tensor) : bool := rank (snd p) =? 4.

(** Lines 104 and 105, and again 109 and 110: the relu switches of a
    layer, [tf.expand_dims(tf.cast(tf.greater(z, 0), tf.float32), 1)]. *)
Definition relu_switch (z : tensor) : res tensor :=
  relu <- cast_greater z (scalar 0) ;;
  tf_expand_dims1 relu.

(** Sensitivities of the two logits of the toy network to its four
    inputs. *)
Definition toy_V_logits : tensor :=
  mkT [1; 4; 2] [1; -1; 1; -1; 1; -1; 1; -1]%Q.

(** The weights of output channel [o] of a filter: the entries
    [W[..., o]], the other axes in row-major order. *)
Definition filter_weights (W : tensor) (o : nat) : list Q :=
  let sh := removelast (shape W) in
  map (fun r => tget W (unravel sh r ++ [o])) (seq 0 (numel sh)).

(** What the convolution of [calc_v_conv] reads at row [r], column [q] and
    channel [ch] of slice [b, dd] of the sensitivities: the entry itself
    when [boo_last] is set, and otherwise the greatest of the four entries
    of the 2 x 2 block at rows [2r, 2r+1] and columns [2q, 2q+1]. *)
Definition conv_input (V : tensor) (boo_last : bool) (b dd r q ch : nat) : Q :=
  if boo_last then tget V [b; dd; r; q; ch]
  else Qmax (Qmax (Qmax (tget V [b; dd; r * 2; q * 2; ch])
                        (tget V [b; dd; r * 2; q * 2 + 1; ch]))
                  (tget V [b; dd; r * 2 + 1; q * 2; ch]))
            (tget V [b; dd; r * 2 + 1; q * 2 + 1; ch]).

(** An entry after the floor of lines 137 and 148:
    [v + eps_num_stabil * (|v| < eps_num_stabil)]. *)
Definition floor_eps (v : Q) : Q :=
  (v + eps_num_stabil * b2q (Qlt_bool (Qabs v) eps_num_stabil))%Q.

(** Entry [b, j, k] of the product of the sensitivities [V] with the
    weights [W]: the sum over [p] of [V[b, j, p] * W[p, k]]. *)
Definition fc_product (V W : tensor) (n_prev b j k : nat) : Q :=
  qsum (map (fun p => (tget V [b; j; p] * tget W [p; k])%Q) (seq 0 n_prev)).

(** Sensitivities and distances of the toy network after its
    convolutional layer, and the relu switches of its hidden layer. *)
Definition toy_V_flat : tensor :=
  mkT [1; 4; 4] [1; 0; 0; 0; 0; 1; 0; 0; 0; 0; 1; 0; 0; 0; 0; 1]%Q.
Definition toy_dist0 : tensor := mkT [1; 4] [1; 2; 3; 4]%Q.
Definition toy_relu1 : tensor := mkT [1; 1; 1] [1]%Q.


(** * functions/utils.py

    The functions of [utils.py] that compute on tensors, names and
    tables.  The data sets, the models and the plots belong to
    TensorFlow, Keras and Matplotlib: the loaders are parameters of
    [load_data], and the directory tree that [os.walk] lists is an
    argument of the functions that search it. *)

Module Utils.

(** ** Tensors *)

(** [convert_types(image, label)], lines 9 to 14.  The cast to [float32]
    changes nothing on rationals. *)
Definition convert_types {A : Type} (image : tensor) (label : A)
    : res (tensor * A) :=
  image <- tf_div image (scalar (255 # 2)) ;;
  image <- tf_sub image (scalar 1) ;;
  Ok (image, label).

(** [tf.reduce_sum(t, list(range(1, r)))]: the sum over the axes 1 to
    [r - 1], which are all the axes of [t] but the first when [r] is its
    rank; with no axis to sum over the tensor is returned as it is. *)
Definition tf_reduce_sum_range1 (r : nat) (t : tensor) : res tensor :=
  if r <=? 1 then Ok t
  else if r <=? rank t then
    match shape t with
    | [] => Ok t
    | bs :: rest =>
        let mid := firstn (r - 1) rest in
        let tail := skipn (r - 1) rest in
        Ok (tbuild (bs :: tail) (fun idx =>
              match idx with
              | b :: tl =>
                  qsum (map (fun i => tget t (b :: unravel mid i ++ tl))
                            (seq 0 (numel mid)))
              | [] => 0%Q
              end))
    end
  else Raise InvalidArgument.

(** [l1(x, y)], lines 69 and 70 *)
Definition l1 (x y : tensor) : res tensor :=
  d <- tf_sub x y ;;
  tf_reduce_sum_range1 (rank x) (tf_abs d).

(** [l2(x, y)], lines 66 and 67, with the square root of [tf.sqrt] as a
    parameter. *)
Definition l2 (sqrtQ : Q -> Q) (x y : tensor) : res tensor :=
  d <- tf_sub x y ;;
  s <- tf_reduce_sum_range1 (rank x) (tmap (fun v => (v * v)%Q) d) ;;
  Ok (tmap sqrtQ s).

(** ** The data sets *)

Section Loaders.

(** The data and the description that a loader returns, and the value of
    the argument [classes]. *)
Variables dataset info classes : Type.

(** The loaders of lines 20 to 64, which read the data with
    [tensorflow_datasets].  [ld_mnist] alone has an argument [classes]. *)
Variable ld_mnist : nat -> option classes -> dataset * info.
Variable ld_svhn : nat -> dataset * info.
Variable ld_cifar10 : nat -> dataset * info.
Variable ld_cifar100 : nat -> dataset * info.

(** What [load_data] returns: [dataset_category, eps, input_elements,
    data, info, input_shape, num_classes]. *)
Record loaded : Type := mkLoaded {
  dataset_category : nat;
  eps : Q;
  input_elements : nat;
  data_of : dataset;
  info_of : info;
  input_shape : nat * nat * nat;
  num_classes : nat
}.

(** [load_data(dataset_name, batch_size, classes)], lines 93 to 125 *)
Definition load_data (dataset_name : string) (batch_size : nat)
    (cls : option classes) : res loaded :=
  if String.eqb dataset_name "mnist" then
    let '(d, i) := ld_mnist batch_size cls in
    Ok (mkLoaded 0 (2 # 10) (28 * 28 * 1) d i (28, 28, 1) 10)
  else if String.eqb dataset_name "svhn" then
    let '(d, i) := ld_svhn batch_size in
    Ok (mkLoaded 0 (8 # 255) (32 * 32 * 3) d i (32, 32, 3) 10)
  else if String.eqb dataset_name "cifar10" then
    let '(d, i) := ld_cifar10 batch_size in
    Ok (mkLoaded 1 (8 # 255) (32 * 32 * 3) d i (32, 32, 3) 10)
  else if String.eqb dataset_name "cifar100" then
    let '(d, i) := ld_cifar100 batch_size in
    Ok (mkLoaded 1 (8 # 255) (32 * 32 * 3) d i (32, 32, 3) 100)
  else Raise ValueError.

End Loaders.

Arguments dataset_category {dataset info} l.
Arguments eps {dataset info} l.
Arguments input_elements {dataset info} l.
Arguments data_of {dataset info} l.
Arguments info_of {dataset info} l.
Arguments input_shape {dataset info} l.
Arguments num_classes {dataset info} l.
Arguments load_data {dataset info classes}.

(** ** Names and paths *)

(** [s.split(sep)] for a separator of one character: the fields between
    the separators, of which there is always one at least. *)
Fixpoint py_split (sep : ascii) (s : string) : list string :=
  match s with
  | EmptyString => [EmptyString]
  | String c s' =>
      if Ascii.eqb c sep then EmptyString :: py_split sep s'
      else match py_split sep s' with
           | w :: ws => String c w :: ws
           | [] => [String c EmptyString]
           end
  end.

(** [sub in s] on strings *)
Fixpoint py_in (sub s : string) : bool :=
  String.prefix sub s
  || match s with
     | EmptyString => false
     | String _ s' => py_in sub s'
     end.

(** [x in l] on a list of strings *)
Definition py_mem (x : string) (l : list string) : bool :=
  existsb (String.eqb x) l.

Fixpoint ends_with (c : ascii) (s : string) : bool :=
  match s with
  | EmptyString => false
  | String a EmptyString => Ascii.eqb a c
  | String _ s' => ends_with c s'
  end.

(** [os.path.join(a, p)] of [posixpath] *)
Definition os_path_join (a p : string) : string :=
  if String.prefix "/" p then p
  else if String.eqb a "" || ends_with "/" a then String.append a p
  else String.append a (String.append "/" p).

(** What [os.walk] yields: for each directory its path, the names of its
    sub-directories and the names of its files. *)
Definition os_walk : Type := list (string * list string * list string).

(** ** [find_model], lines 128 to 138 *)

(** Lines 134 to 138, for one file name: the path returned, or [None]
    when the loop goes on. *)
Definition find_model_file (dataset_name base_model top_layer dir_path
    filename : string) : res (option string) :=
  if negb (py_in ".keras" filename) then Ok None
  else
    let list_dirname := py_split "_" filename in
    f0 <- py_index list_dirname 0 ;;
    if negb (String.eqb f0 dataset_name) then Ok None else
    f1 <- py_index list_dirname 1 ;;
    if negb (String.eqb f1 base_model) then Ok None else
    f2 <- py_index list_dirname 2 ;;
    if negb (String.eqb f2 top_layer) then Ok None else
    f3 <- py_index list_dirname 3 ;;
    if String.eqb f3 "no" then Ok (Some (os_path_join dir_path filename))
    else Ok None.

(** The loop of line 133 *)
Fixpoint find_model_files (dataset_name base_model top_layer dir_path : string)
    (filenames : list string) : res (option string) :=
  match filenames with
  | [] => Ok None
  | filename :: rest =>
      r <- find_model_file dataset_name base_model top_layer dir_path filename ;;
      match r with
      | Some path => Ok (Some path)
      | None => find_model_files dataset_name base_model top_layer dir_path rest
      end
  end.

(** [find_model(dataset_name, base_model, top_layer, root_dir)], on what
    [os.walk(root_dir)] yields; the result is [None] when the function
    reaches its end without a [return]. *)
Fixpoint find_model (dataset_name base_model top_layer : string)
    (walk : os_walk) : res (option string) :=
  match walk with
  | [] => Ok None
  | (dir_path, _, filenames) :: rest =>
      r <- find_model_files dataset_name base_model top_layer dir_path
             filenames ;;
      match r with
      | Some path => Ok (Some path)
      | None => find_model dataset_name base_model top_layer rest
      end
  end.

(** ** [find_directories_with_keyphrase], lines 184 to 247 *)

(** The exceptions of the lookups: a list index out of range, a key that
    a dictionary does not hold. *)
Inductive lookup_exn : Type := PyIndexError | PyKeyError.

Inductive outcome (A : Type) : Type :=
| Returns (a : A)
| Raises (e : lookup_exn).

Arguments Returns {A} a.
Arguments Raises {A} e.

Definition obind {A B : Type} (m : outcome A) (k : A -> outcome B) : outcome B :=
  match m with
  | Returns a => k a
  | Raises e => Raises e
  end.

(** A dictionary with string keys, in the order of insertion. *)
Definition dict (V : Type) : Type := list (string * V).

(** [d[k]] *)
Fixpoint dict_get {V : Type} (d : dict V) (k : string) : outcome V :=
  match d with
  | [] => Raises PyKeyError
  | (k', v) :: d' => if String.eqb k' k then Returns v else dict_get d' k
  end.

(** [d[k] = v] *)
Fixpoint dict_set {V : Type} (d : dict V) (k : string) (v : V) : dict V :=
  match d with
  | [] => [(k, v)]
  | (k', v') :: d' =>
      if String.eqb k' k then (k', v) :: d' else (k', v') :: dict_set d' k v
  end.

(** [l[i]] *)
Definition list_get {A : Type} (l : list A) (i : nat) : outcome A :=
  match nth_error l i with
  | Some a => Returns a
  | None => Raises PyIndexError
  end.

Definition valid_datasets : list string :=
  ["mnist"; "svhn"; "cifar10"; "cifar100"]%string.
Definition valid_base_models : list string :=
  ["LeNet5"; "ModifiedLeNet5"; "MobileNet"; "ResNet50"; "VGG16";
   "EfficientNetB4"]%string.
Definition valid_top_layers : list string :=
  ["maxout"; "relu"; "trop"; "MMRModel"]%string.

(** Lines 188 to 227 *)
Definition models_to_attack : dict (dict (dict (dict nat))) :=
  [("mnist",
    [("LeNet5",
      [("maxout", [("yes", 0); ("no", 0)]);
       ("relu", [("yes", 0); ("no", 0)]);
       ("trop", [("yes", 0); ("no", 0)])]);
     ("ModifiedLeNet5",
      [("maxout", [("yes", 0); ("no", 0)]);
       ("relu", [("yes", 0); ("no", 0)]);
       ("trop", [("yes", 0); ("no", 0)]);
       ("MMRModel", [("yes", 0); ("no", 1)])])]);
   ("svhn",
    [("LeNet5",
      [("maxout", [("yes", 0); ("no", 0)]);
       ("relu", [("yes", 0); ("no", 0)]);
       ("trop", [("yes", 0); ("no", 0)])]);
     ("ModifiedLeNet5",
      [("maxout", [("yes", 0); ("no", 0)]);
       ("relu", [("yes", 0); ("no", 0)]);
       ("trop", [("yes", 0); ("no", 0)]);
       ("MMRModel", [("yes", 0); ("no", 1)])]);
     ("MobileNet",
      [("maxout", [("yes", 0); ("no", 0)]);
       ("relu", [("yes", 0); ("no", 0)]);
       ("trop", [("yes", 0); ("no", 0)])])]);
   ("cifar10",
    [("ResNet50",
      [("trop", [("yes", 0); ("no", 0)]);
       ("relu", [("yes", 0); ("no", 0)]);
       ("maxout", [("yes", 0); ("no", 0)])]);
     ("VGG16",
      [("maxout", [("yes", 0); ("no", 0)]);
       ("relu", [("yes", 0); ("no", 0)]);
       ("trop", [("yes", 0); ("no", 0)])]);
     ("EfficientNetB4",
      [("maxout", [("yes", 0); ("no", 0)]);
       ("relu", [("yes", 0); ("no", 0)]);
       ("trop", [("yes", 0); ("no", 0)])])]);
   ("cifar100",
    [("ResNet50",
      [("maxout", [("yes", 0); ("no", 0)]);
       ("relu", [("yes", 0); ("no", 0)]);
       ("trop", [("yes", 0); ("no", 0)])]);
     ("VGG16",
      [("maxout", [("yes", 0); ("no", 0)]);
       ("relu", [("yes", 0); ("no", 0)]);
       ("trop", [("yes", 0); ("no", 0)])]);
     ("EfficientNetB4",
      [("maxout", [("yes", 0); ("no", 0)]);
       ("relu", [("yes", 0); ("no", 0)]);
       ("trop", [("yes", 0); ("no", 0)])])])]%string.

(** Lines 232 to 237, and again 241 to 246: what the loops do with one
    name, a directory or a file, on the dictionary built so far. *)
Definition attack_entry (dataset_name dir_path name : string)
    (result : dict string) : outcome (dict string) :=
  let list_dirname := py_split "_" name in
  obind (list_get list_dirname 0) (fun f0 =>
  if negb (py_mem f0 valid_datasets) then Returns result else
  obind (list_get list_dirname 1) (fun f1 =>
  if negb (py_mem f1 valid_base_models) then Returns result else
  obind (list_get list_dirname 2) (fun f2 =>
  if negb (py_mem f2 valid_top_layers) then Returns result else
  if py_in dataset_name name then
    obind (dict_get models_to_attack f0) (fun t0 =>
    obind (dict_get t0 f1) (fun t1 =>
    obind (dict_get t1 f2) (fun t2 =>
    obind (list_get list_dirname 3) (fun f3 =>
    obind (dict_get t2 f3) (fun answer =>
    if answer =? 1 then
      Returns (dict_set result name (os_path_join dir_path name))
    else Returns result)))))
  else Returns result))).

(** The loops of lines 231 and 238 *)
Fixpoint attack_dirnames (dataset_name dir_path : string)
    (dirnames : list string) (result : dict string) : outcome (dict string) :=
  match dirnames with
  | [] => Returns result
  | dirname :: rest =>
      obind (attack_entry dataset_name dir_path dirname result)
            (attack_dirnames dataset_name dir_path rest)
  end.

Fixpoint attack_filenames (dataset_name dir_path : string)
    (filenames : list string) (result : dict string) : outcome (dict string) :=
  match filenames with
  | [] => Returns result
  | filename :: rest =>
      if negb (py_in ".keras" filename) then
        attack_filenames dataset_name dir_path rest result
      else
        obind (attack_entry dataset_name dir_path filename result)
              (attack_filenames dataset_name dir_path rest)
  end.

(** The loop of line 230, on the dictionary built so far. *)
Fixpoint attack_walk (dataset_name : string) (walk : os_walk)
    (result : dict string) : outcome (dict string) :=
  match walk with
  | [] => Returns result
  | (dir_path, dirnames, filenames) :: rest =>
      obind (attack_dirnames dataset_name dir_path dirnames result) (fun result =>
      obind (attack_filenames dataset_name dir_path filenames result)
            (attack_walk dataset_name rest))
  end.

(** [find_directories_with_keyphrase(root_dir, dataset_name)], on what
    [os.walk(root_dir)] yields. *)
Definition find_directories_with_keyphrase (walk : os_walk)
    (dataset_name : string) : outcome (dict string) :=
  attack_walk dataset_name walk [].

End Utils.

(** ** Notions used by the properties of utils.py *)

(** A file name that [find_model] takes for the model asked for: it holds
    ".keras" and its first four fields are the data set, the base model,
    the top layer and "no". *)
Definition model_file_of (dataset_name base_model top_layer filename : string)
    (rest : list string) : Prop :=
  Utils.py_in ".keras" filename = true /\
  Utils.py_split "_" filename
  = dataset_name :: base_model :: top_layer :: "no"%string :: rest.

(** A directory with two model files, the first of which ends right after
    the field "no". *)
Definition toy_walk : Utils.os_walk :=
  [("models", [], ["mnist_LeNet5_relu_no.keras";
                   "mnist_LeNet5_relu_no_3.keras"])]%string.

(** An entry that [find_directories_with_keyphrase] may put in its
    result for the data set asked for: the name holds the name of the data
    set, its first four fields are "mnist" or "svhn", "ModifiedLeNet5",
    "MMRModel" and "no", and the value is the path of the name in some
    directory. *)
Definition attacked (dataset_name : string) (entry : string * string) : Prop :=
  let (name, path) := entry in
  exists dir_path f0 rest,
    path = Utils.os_path_join dir_path name /\
    Utils.py_split "_" name
    = f0 :: "ModifiedLeNet5"%string :: "MMRModel"%string :: "no"%string :: rest /\
    (f0 = "mnist"%string \/ f0 = "svhn"%string) /\
    Utils.py_in dataset_name name = true.

(** A directory tree for the concrete runs of
    [find_directories_with_keyphrase]. *)
Definition toy_attack_walk : Utils.os_walk :=
  [("root",
    ["mnist_ModifiedLeNet5_MMRModel_no"; "x"; "svhn_LeNet5_relu_no"],
    ["mnist_ModifiedLeNet5_MMRModel_no_1.keras"; "a.txt"])]%string.


(** * Properties *)

(** ** The TensorFlow operations on small inputs *)

Example conv2d_valid :
  reduced (tf_conv2d img33 ones22 1 VALID)
  = Ok (mkT [1; 2; 2; 1] [12; 16; 24; 28]%Q).
Proof. vm_compute. reflexivity. Qed.

Example conv2d_same :
  reduced (tf_conv2d img33 ones22 1 SAME)
  = Ok (mkT [1; 3; 3; 1] [12; 16; 9; 24; 28; 15; 15; 17; 9]%Q).
Proof. vm_compute. reflexivity. Qed.

Example max_pool2d_valid :
  reduced (tf_max_pool2d img33 2 2 VALID) = Ok (mkT [1; 1; 1; 1] [5]%Q).
Proof. vm_compute. reflexivity. Qed.

Example max_pool2d_same :
  reduced (tf_max_pool2d img33 2 2 SAME) = Ok (mkT [1; 2; 2; 1] [5; 6; 8; 9]%Q).
Proof. vm_compute. reflexivity. Qed.

Example get_min_distances_2 :
  reduced (get_min_distances (mkT [2; 3] [3; 1; 2; 5; 5; 4]%Q) 2)
  = Ok (mkT [2; 2] [1; 2; 4; 5]%Q).
Proof. vm_compute. reflexivity. Qed.

Example get_min_distances_too_many :
  get_min_distances (mkT [2; 3] [3; 1; 2; 5; 5; 4]%Q) 4 = Raise InvalidArgument.
Proof. reflexivity. Qed.

Example broadcast_mul :
  reduced (tf_mul (mkT [1; 2; 1] [1; 2]%Q) (mkT [1; 1; 3] [1; 10; 100]%Q))
  = Ok (mkT [1; 2; 3] [1; 10; 100; 2; 20; 200]%Q).
Proof. vm_compute. reflexivity. Qed.

Example norm_inf_axis0 :
  reduced (tf_norm sqrt_floor (mkT [2; 2] [1; -2; 3; 4]%Q) 0 OrdInf false)
  = Ok (mkT [2] [3; 4]%Q).
Proof. vm_compute. reflexivity. Qed.

Example norm_keep_dims_refused :
  tf_norm sqrt_floor (mkT [2; 2] [1; -2; 3; 4]%Q) 0 OrdInf true
  = Raise TypeError.
Proof. reflexivity. Qed.

Example reshape_infers :
  tf_reshape img33 [Infer; D 3] = Ok (mkT [3; 3] (data img33)).
Proof. reflexivity. Qed.

Example reshape_refuses :
  tf_reshape img33 [Infer; D 2] = Raise InvalidArgument.
Proof. reflexivity. Qed.

Example zero_out_run :
  reduced (bind (zero_out_non_min_distances rng_ramp 0 toy_dist 2)
                (fun r => Ok (fst r)))
  = Ok (mkT [1; 5] [0; 1; 0; 1; 0]%Q).
Proof. vm_compute. reflexivity. Qed.

(** ** The error monad *)

Lemma bind_ok {A B : Type} (m : res A) (k : A -> res B) (b : B) :
  bind m k = Ok b -> exists a, m = Ok a /\ k a = Ok b.
Proof.
  destruct m as [a|e]; simpl; intros H; [eauto | discriminate].
Qed.

Ltac inv_bind H :=
  let a := fresh "v" in
  let Ha := fresh "E" in
  apply bind_ok in H; destruct H as (a & Ha & H).

Ltac inv_ok :=
  repeat match goal with
  | H : bind _ _ = Ok _ |- _ => inv_bind H
  | H : Ok _ = Ok _ |- _ => injection H as H; try subst
  | H : Raise _ = Ok _ |- _ => discriminate H
  | H : (let (_, _) := ?p in _) = Ok _ |- _ =>
      lazymatch type of p with prod _ _ => destruct p end
  end.

(** ** Indices *)


Lemma ravel_lt sh : forall idx, inb idx sh -> ravel sh idx < numel sh.
Proof.
  induction sh as [|n sh IH]; intros idx H; inversion H; subst; simpl.
  - lia.
  - specialize (IH _ H4). nia.
Qed.

Lemma unravel_ravel sh : forall idx, inb idx sh -> unravel sh (ravel sh idx) = idx.
Proof.
  induction sh as [|n sh IH]; intros idx H; inversion H; subst; simpl.
  - reflexivity.
  - pose proof (ravel_lt _ _ H4) as Hlt.
    assert (Hp : numel sh <> 0) by lia.
    f_equal.
    + rewrite Nat.div_add_l by exact Hp.
      rewrite Nat.div_small by exact Hlt. lia.
    + rewrite Nat.add_comm, Nat.Div0.mod_add, Nat.mod_small by exact Hlt.
      apply IH, H4.
Qed.

Lemma unravel_inb sh : forall i, i < numel sh -> inb (unravel sh i) sh.
Proof.
  induction sh as [|n sh IH]; intros i H; simpl in *.
  - constructor.
  - assert (Hp : numel sh <> 0) by (intros E; rewrite E in H; lia).
    constructor.
    + apply Nat.Div0.div_lt_upper_bound. lia.
    + apply IH, Nat.mod_upper_bound, Hp.
Qed.

Lemma nth_map_seq (g : nat -> Q) n i : i < n -> nth i (map g (seq 0 n)) 0%Q = g i.
Proof.
  intros H.
  rewrite (nth_indep _ 0%Q (g 0)) by (rewrite length_map, length_seq; exact H).
  rewrite (map_nth g), seq_nth by exact H. reflexivity.
Qed.

Lemma shape_tbuild sh f : shape (tbuild sh f) = sh.
Proof. reflexivity. Qed.

Lemma tget_tbuild sh f idx : inb idx sh -> tget (tbuild sh f) idx = f idx.
Proof.
  intros H. unfold tget, tbuild; simpl.
  rewrite nth_map_seq by (apply ravel_lt, H).
  now rewrite unravel_ravel.
Qed.

Lemma data_tbuild (P : Q -> Prop) sh f :
  (forall idx, inb idx sh -> P (f idx)) -> Forall P (data (tbuild sh f)).
Proof.
  intros H. unfold tbuild; simpl. apply Forall_forall. intros x Hx.
  apply in_map_iff in Hx. destruct Hx as (i & <- & Hi).
  apply in_seq in Hi. apply H, unravel_inb. lia.
Qed.

Lemma tget_cases (P : Q -> Prop) t idx :
  Forall P (data t) -> P 0%Q -> P (tget t idx).
Proof.
  intros H H0. unfold tget.
  destruct (nth_in_or_default (ravel (shape t) idx) (data t) 0%Q) as [Hin | ->].
  - rewrite Forall_forall in H. now apply H.
  - exact H0.
Qed.

(** Closes a goal made of existentials and conjunctions of equations that
    are among the hypotheses. *)
Ltac from_hyps :=
  repeat match goal with
  | |- exists _, _ => eexists
  | |- _ /\ _ => split
  | |- _ = _ => first [eassumption | reflexivity]
  end.

(** ** Sorting and the k smallest entries of a row *)


Lemma Qle_bool_false x y : Qle_bool x y = false <-> (y < x)%Q.
Proof.
  split; intros H.
  - apply Qnot_le_lt. intros Hle. apply Qle_bool_iff in Hle. congruence.
  - destruct (Qle_bool x y) eqn:E; [|reflexivity].
    apply Qle_bool_iff in E. apply Qlt_not_le in H. contradiction.
Qed.

Lemma insert_desc_perm x l : Permutation (insert_desc x l) (x :: l).
Proof.
  induction l as [|y l IH]; simpl.
  - apply Permutation_refl.
  - destruct (Qle_bool y x).
    + apply Permutation_refl.
    + eapply perm_trans; [apply perm_skip, IH | apply perm_swap].
Qed.

Lemma sort_desc_perm l : Permutation (sort_desc l) l.
Proof.
  induction l as [|x l IH]; simpl.
  - constructor.
  - eapply perm_trans; [apply insert_desc_perm | apply perm_skip, IH].
Qed.

Lemma length_sort_desc l : length (sort_desc l) = length l.
Proof. apply Permutation_length, sort_desc_perm. Qed.


Lemma insert_desc_strict x s :
  strictly_desc s -> ~ InA Qeq x s -> strictly_desc (insert_desc x s).
Proof.
  unfold strictly_desc.
  induction s as [|y s IH]; intros Hs Hx; simpl.
  - repeat constructor.
  - apply StronglySorted_inv in Hs. destruct Hs as [Hs Hy].
    assert (Hxy : ~ (x == y)%Q) by (intros E; apply Hx; now constructor).
    assert (Hxs : ~ InA Qeq x s) by (intros E; apply Hx; now constructor 2).
    destruct (Qle_bool y x) eqn:E.
    + apply Qle_bool_iff in E.
      assert (Hlt : (y < x)%Q).
      { apply Qle_lteq in E. destruct E as [E|E]; [exact E|].
        exfalso. apply Hxy. now symmetry. }
      constructor.
      * constructor; assumption.
      * constructor; [exact Hlt|].
        eapply Forall_impl; [|exact Hy]. simpl. intros b Hb.
        eapply Qlt_trans; eassumption.
    + apply Qle_bool_false in E.
      constructor.
      * apply IH; assumption.
      * apply Forall_forall. intros b Hb.
        apply (Permutation_in _ (insert_desc_perm x s)) in Hb.
        destruct Hb as [<-|Hb]; [exact E|].
        rewrite Forall_forall in Hy. now apply Hy.
Qed.

Lemma sort_desc_strict l : NoDupA Qeq l -> strictly_desc (sort_desc l).
Proof.
  induction 1 as [|x l Hx Hl IH]; simpl.
  - constructor.
  - apply insert_desc_strict; [exact IH|].
    intros Hin. apply Hx.
    apply InA_alt in Hin. destruct Hin as (y & Hxy & Hy).
    apply InA_alt. exists y. split; [exact Hxy|].
    eapply Permutation_in; [apply sort_desc_perm | exact Hy].
Qed.

Lemma strictly_desc_app A B :
  strictly_desc (A ++ B) -> forall a b, In a A -> In b B -> (b < a)%Q.
Proof.
  unfold strictly_desc.
  induction A as [|x A IH]; simpl; intros Hs a b Ha Hb; [contradiction|].
  apply StronglySorted_inv in Hs. destruct Hs as [Hs Hx].
  destruct Ha as [<-|Ha].
  - rewrite Forall_forall in Hx. apply Hx, in_or_app. now right.
  - now apply IH.
Qed.

(** The greatest entry. *)
Lemma fold_left_Qmax_spec l : forall x,
  (forall y, In y (x :: l) -> (y <= fold_left Qmax l x)%Q) /\
  (exists y, In y (x :: l) /\ (fold_left Qmax l x == y)%Q).
Proof.
  induction l as [|z l IH]; intros x; simpl.
  - split.
    + intros y [<-|[]]. apply Qle_refl.
    + exists x. split; [now left | reflexivity].
  - destruct (IH (Qmax x z)) as [Hub Hex]. split.
    + intros y [<-|[<-|Hy]].
      * eapply Qle_trans; [apply Q.le_max_l | apply Hub; now left].
      * eapply Qle_trans; [apply Q.le_max_r | apply Hub; now left].
      * apply Hub. now right.
    + destruct Hex as (y & [<-|Hy] & E).
      * destruct (Q.max_dec x z) as [Hm|Hm].
        -- exists x. split; [now left|]. now rewrite E.
        -- exists z. split; [right; now left|]. now rewrite E.
      * exists y. split; [right; now right | exact E].
Qed.

(** An entry passes the threshold exactly when it is below some entry of
    the row the threshold is the maximum of. *)
Lemma le_threshold_iff x l :
  le_threshold x (row_max l) = true <-> exists m, In m l /\ (x <= m)%Q.
Proof.
  destruct l as [|y l]; simpl.
  - split; [discriminate | intros (m & [] & _)].
  - destruct (fold_left_Qmax_spec l y) as [Hub (m & Hm & E)].
    rewrite Qle_bool_iff. split.
    + intros H. exists m. split; [exact Hm|]. now rewrite <- E.
    + intros (m' & Hm' & H). eapply Qle_trans; [exact H | now apply Hub].
Qed.


Lemma count_perm f l l' : Permutation l l' -> count f l = count f l'.
Proof.
  unfold count. induction 1; simpl; try congruence.
  - destruct (f x); simpl; congruence.
  - destruct (f x), (f y); reflexivity.
Qed.

Lemma count_app f l l' : count f (l ++ l') = count f l + count f l'.
Proof. unfold count. now rewrite filter_app, length_app. Qed.

Lemma count_all f l : (forall x, In x l -> f x = true) -> count f l = length l.
Proof.
  unfold count. induction l as [|x l IH]; simpl; intros H; [reflexivity|].
  rewrite (H x) by now left. simpl. f_equal. apply IH. intros; apply H; now right.
Qed.

Lemma count_none f l : (forall x, In x l -> f x = false) -> count f l = 0.
Proof.
  unfold count. induction l as [|x l IH]; simpl; intros H; [reflexivity|].
  rewrite (H x) by now left. apply IH. intros; apply H; now right.
Qed.

Lemma count_map f g l : count f (map g l) = count (fun x => f (g x)) l.
Proof.
  unfold count. induction l as [|x l IH]; simpl; [reflexivity|].
  destruct (f (g x)); simpl; congruence.
Qed.

Lemma count_ext f g l : (forall x, f x = g x) -> count f l = count g l.
Proof. intros H. unfold count. now rewrite (filter_ext _ _ H). Qed.


Lemma le_threshold_opp x l :
  le_threshold x (row_max (map Qopp l)) = true
  <-> exists a, In a l /\ (a <= - x)%Q.
Proof.
  rewrite le_threshold_iff. split.
  - intros (m & Hm & H). apply in_map_iff in Hm. destruct Hm as (a & <- & Ha).
    exists a. split; [exact Ha | lra].
  - intros (a & Ha & H). exists (- a)%Q. split; [now apply in_map | lra].
Qed.

Lemma Qopp_opp (x : Q) : Qopp (Qopp x) = x.
Proof. destruct x as [n d]. unfold Qopp; simpl. now rewrite Z.opp_involutive. Qed.

(** Every row has at least [k] entries at or below the threshold, and
    exactly [k] when its entries are pairwise distinct. *)
Lemma count_kth_threshold_ge k row :
  k <= length row ->
  k <= count (fun x => le_threshold x (kth_threshold k row)) row.
Proof.
  intros Hk. unfold kth_threshold.
  set (s := sort_desc (map Qopp row)).
  set (f := fun x => le_threshold x (row_max (map Qopp (firstn k s)))).
  assert (E : count f row = count (fun y => f (- y)%Q) s).
  { rewrite (count_perm _ _ _ (sort_desc_perm (map Qopp row))), count_map.
    apply count_ext. intros x. now rewrite Qopp_opp. }
  rewrite E, <- (firstn_skipn k s), count_app.
  rewrite count_all.
  - rewrite length_firstn. unfold s. rewrite length_sort_desc, length_map. lia.
  - intros a Ha. unfold f.
    apply le_threshold_opp. exists a. split; [exact Ha | lra].
Qed.

Lemma count_kth_threshold k row :
  k <= length row -> NoDupA Qeq row ->
  count (fun x => le_threshold x (kth_threshold k row)) row = k.
Proof.
  intros Hk Hd. unfold kth_threshold.
  set (s := sort_desc (map Qopp row)).
  set (f := fun x => le_threshold x (row_max (map Qopp (firstn k s)))).
  assert (Hs : strictly_desc s).
  { apply sort_desc_strict.
    clear -Hd. induction Hd as [|x l Hx Hl IH]; simpl; constructor; [|exact IH].
    intros Hin. apply Hx. apply InA_alt in Hin. destruct Hin as (y & E & Hy).
    apply in_map_iff in Hy. destruct Hy as (z & <- & Hz).
    apply InA_alt. exists z. split; [lra | exact Hz]. }
  assert (E : count f row = count (fun y => f (- y)%Q) s).
  { rewrite (count_perm _ _ _ (sort_desc_perm (map Qopp row))), count_map.
    apply count_ext. intros x. now rewrite Qopp_opp. }
  rewrite E. rewrite <- (firstn_skipn k s) at 1. rewrite count_app.
  rewrite count_all, count_none.
  - rewrite length_firstn. unfold s. rewrite length_sort_desc, length_map. lia.
  - intros b Hb. unfold f.
    destruct (le_threshold (- b) (row_max (map Qopp (firstn k s)))) eqn:Et;
      [|reflexivity].
    apply le_threshold_opp in Et. destruct Et as (a & Ha & Hab).
    rewrite <- (firstn_skipn k s) in Hs.
    pose proof (strictly_desc_app _ _ Hs a b Ha Hb). lra.
  - intros a Ha. unfold f.
    apply le_threshold_opp. exists a. split; [exact Ha | lra].
Qed.

(** ** Element-wise operations *)

Arguments tbuild : simpl never.
Arguments tget : simpl never.

Lemma bidx_suffix sh : forall pre idx,
  inb idx sh -> bidx sh (pre ++ idx) = idx.
Proof.
  intros pre idx H. unfold bidx.
  assert (Hl : length idx = length sh) by (eapply Forall2_length; exact H).
  rewrite length_app, Hl.
  replace (length pre + length sh - length sh) with (length pre) by lia.
  rewrite skipn_app, skipn_all, Nat.sub_diag. simpl.
  clear Hl pre. induction H as [|j n idx sh Hj H IH]; simpl; [reflexivity|].
  rewrite IH. destruct (Nat.eqb_spec n 1); [|reflexivity].
  f_equal. lia.
Qed.

Lemma bidx_same sh idx : inb idx sh -> bidx sh idx = idx.
Proof. apply (bidx_suffix sh []). Qed.

Lemma tget_scalar q idx : tget (scalar q) (bidx [] idx) = q.
Proof. reflexivity. Qed.

Lemma bop_shape f a b c sh :
  bshape (shape a) (shape b) = Some sh ->
  bop f a b = Ok c ->
  c = tbuild sh (fun idx =>
        f (tget a (bidx (shape a) idx)) (tget b (bidx (shape b) idx))).
Proof. unfold bop. intros ->. congruence. Qed.

Lemma bshape_rev_same r : bshape_rev r r = Some r.
Proof.
  induction r as [|a r IH]; simpl; [reflexivity|].
  unfold bdim. now rewrite Nat.eqb_refl, IH.
Qed.

Lemma bshape_same sh : bshape sh sh = Some sh.
Proof. unfold bshape. rewrite bshape_rev_same. simpl. now rewrite rev_involutive. Qed.

Lemma bshape_nil_l sh : bshape [] sh = Some sh.
Proof. unfold bshape. simpl. now rewrite rev_involutive. Qed.

Lemma bshape_nil_r sh : bshape sh [] = Some sh.
Proof.
  unfold bshape. cbn [rev].
  assert (H : bshape_rev (rev sh) [] = Some (rev sh)) by (destruct (rev sh); reflexivity).
  rewrite H. cbn [option_map]. now rewrite rev_involutive.
Qed.

Lemma tget_tmap f t idx : f 0%Q = 0%Q -> tget (tmap f t) idx = f (tget t idx).
Proof.
  intros H. unfold tget, tmap; simpl. rewrite <- H at 1. apply map_nth.
Qed.

Lemma map_nth_seq (f : Q -> Q) l :
  map (fun i => f (nth i l 0%Q)) (seq 0 (length l)) = map f l.
Proof.
  induction l as [|x l IH]; simpl; [reflexivity|].
  f_equal. rewrite <- seq_shift, map_map. exact IH.
Qed.

(** ** The distance selector *)

Lemma b2q_is_one c : Qeq_bool (b2q c) 1 = c.
Proof. destruct c; reflexivity. Qed.

Lemma zero_out_entries rng pos dist bs n k :
  shape dist = [bs; n] -> k <= n ->
  exists th,
    zero_out_non_min_distances rng pos dist k = Ok (th, pos + n) /\
    shape th = [bs; n] /\
    forall b j, b < bs -> j < n ->
      tget th [b; j] =
      b2q (le_threshold (jittered rng pos dist b j)
             (kth_threshold k (jittered_row rng pos dist n b))).
Proof.
  intros Hsh Hk.
  unfold zero_out_non_min_distances, dim_at. rewrite Hsh.
  unfold py_index. cbn [nth_error bind]. unfold np_random_rand.
  unfold tf_sub, tf_mul, tf_add, bop.
  rewrite shape_tbuild, bshape_nil_r. cbn [bind].
  rewrite shape_tbuild. cbn [scalar shape]. rewrite bshape_nil_l. cbn [bind].
  rewrite shape_tbuild, Hsh.
  assert (Hb : bshape [bs; n] [n] = Some [bs; n]).
  { unfold bshape; simpl. unfold bdim. now rewrite Nat.eqb_refl. }
  rewrite Hb. cbn [bind].
  match goal with
  | |- context [get_min_distances ?d _] => set (dist' := d)
  end.
  assert (Hd : forall b j, b < bs -> j < n ->
                 tget dist' [b; j] = jittered rng pos dist b j).
  { intros b j Hb' Hj. unfold dist'. rewrite tget_tbuild by (repeat constructor; lia).
    rewrite (bidx_same [bs; n]) by (repeat constructor; lia).
    change [b; j] with ([b] ++ [j]) at 2.
    rewrite (bidx_suffix [n] [b] [j]) by (repeat constructor; lia).
    unfold jittered. f_equal.
    rewrite tget_tbuild by (repeat constructor; lia).
    rewrite (bidx_same [n]) by (repeat constructor; lia).
    f_equal.
    rewrite tget_tbuild by (repeat constructor; lia).
    rewrite (bidx_same [n]) by (repeat constructor; lia).
    f_equal.
    now rewrite tget_tbuild by (repeat constructor; lia). }
  unfold get_min_distances, tf_top_k_values.
  unfold tf_neg at 1. cbn [tmap shape]. unfold dist' at 1. rewrite shape_tbuild.
  cbn [rev app]. apply Nat.leb_le in Hk. rewrite Hk. cbn [bind].
  unfold mask_le_row_max. unfold dist' at 1. rewrite shape_tbuild.
  unfold tf_neg at 1. cbn [tmap shape]. rewrite shape_tbuild.
  rewrite !Nat.eqb_refl. cbn [andb bind].
  eexists. split; [reflexivity|]. split; [apply shape_tbuild|].
  intros b j Hb' Hj.
  rewrite tget_tbuild by (repeat constructor; lia).
  rewrite Hd by assumption. do 2 f_equal.
  unfold kth_threshold. f_equal.
  set (row := jittered_row rng pos dist n b).
  assert (Hrow : last_row (tf_neg dist') n [b] = map Qopp row).
  { unfold last_row, row, jittered_row. rewrite map_map.
    apply map_ext_in. intros i Hi. apply in_seq in Hi.
    unfold tf_neg. rewrite tget_tmap by reflexivity.
    simpl app. now rewrite Hd by lia. }
  set (top := firstn k (sort_desc (map Qopp row))).
  assert (Hlen : length top = k).
  { unfold top. rewrite length_firstn, length_sort_desc, length_map.
    unfold row, jittered_row. rewrite length_map, length_seq.
    apply Nat.leb_le in Hk. lia. }
  rewrite <- (map_nth_seq Qopp top), Hlen.
  unfold last_row. apply map_ext_in. intros i Hi. apply in_seq in Hi.
  unfold tf_neg at 1. rewrite tget_tmap by reflexivity. f_equal.
  rewrite tget_tbuild by (repeat constructor; lia).
  simpl last. simpl removelast.
  change (map (fun j0 => tget (tf_neg dist') ([b] ++ [j0])) (seq 0 n))
    with (last_row (tf_neg dist') n [b]).
  now rewrite Hrow.
Qed.


Lemma insert_desc_sorted x s :
  StronglySorted (fun a b => (b <= a)%Q) s ->
  StronglySorted (fun a b => (b <= a)%Q) (insert_desc x s).
Proof.
  induction s as [|y s IH]; intros Hs; simpl.
  - repeat constructor.
  - apply StronglySorted_inv in Hs. destruct Hs as [Hs Hy].
    destruct (Qle_bool y x) eqn:E.
    + apply Qle_bool_iff in E. constructor.
      * constructor; assumption.
      * constructor; [exact E|].
        eapply Forall_impl; [|exact Hy]. simpl. intros b Hb.
        eapply Qle_trans; eassumption.
    + apply Qle_bool_false in E. constructor.
      * apply IH; assumption.
      * apply Forall_forall. intros b Hb.
        apply (Permutation_in _ (insert_desc_perm x s)) in Hb.
        destruct Hb as [<-|Hb]; [now apply Qlt_le_weak|].
        rewrite Forall_forall in Hy. now apply Hy.
Qed.

Lemma sort_desc_sorted l : StronglySorted (fun a b => (b <= a)%Q) (sort_desc l).
Proof.
  induction l as [|x l IH]; simpl; [constructor | now apply insert_desc_sorted].
Qed.

Lemma sorted_app A B :
  StronglySorted (fun a b => (b <= a)%Q) (A ++ B) ->
  forall a b, In a A -> In b B -> (b <= a)%Q.
Proof.
  induction A as [|x A IH]; simpl; intros Hs a b Ha Hb; [contradiction|].
  apply StronglySorted_inv in Hs. destruct Hs as [Hs Hx].
  destruct Ha as [<-|Ha].
  - rewrite Forall_forall in Hx. apply Hx, in_or_app. now right.
  - now apply IH.
Qed.

Lemma count_lt_length f l x :
  In x l -> f x = false -> count f l < length l.
Proof.
  unfold count. induction l as [|y l IH]; simpl; intros Hin Hf; [contradiction|].
  destruct Hin as [->|Hin].
  - rewrite Hf. pose proof (filter_length_le f l). lia.
  - specialize (IH Hin Hf). destruct (f y); simpl; lia.
Qed.

(** Fewer than [k] entries of a row are strictly below its threshold: with
    [count_kth_threshold_ge], the threshold is the k-th smallest entry. *)
Lemma count_below_kth_threshold k row t :
  k <= length row -> kth_threshold k row = Some t ->
  count (fun x => Qlt_bool x t) row < k.
Proof.
  intros Hk Ht. unfold kth_threshold in Ht.
  set (s := sort_desc (map Qopp row)) in *.
  assert (Hlen : length (firstn k s) = k).
  { rewrite length_firstn. unfold s. rewrite length_sort_desc, length_map. lia. }
  destruct (firstn k s) as [|a0 A] eqn:EA; [discriminate|].
  simpl in Ht. injection Ht as Ht.
  destruct (fold_left_Qmax_spec (map Qopp A) (- a0)%Q) as [_ (m & Hm & E)].
  rewrite Ht in E.
  change (- a0 :: map Qopp A)%Q with (map Qopp (a0 :: A)) in Hm.
  apply in_map_iff in Hm. destruct Hm as (a & <- & Ha).
  assert (Ec : count (fun x => Qlt_bool x t) row
               = count (fun y => Qlt_bool (- y) t) s).
  { rewrite (count_perm _ _ _ (sort_desc_perm (map Qopp row))), count_map.
    apply count_ext. intros x. now rewrite Qopp_opp. }
  rewrite Ec. rewrite <- (firstn_skipn k s) at 1. rewrite count_app, EA.
  rewrite (count_none _ (skipn k s)).
  - pose proof (count_lt_length (fun y => Qlt_bool (- y) t) (a0 :: A) a Ha) as Hc.
    rewrite Hlen in Hc. rewrite Nat.add_0_r. apply Hc.
    unfold Qlt_bool. apply negb_false_iff, Qle_bool_iff. rewrite E. apply Qle_refl.
  - intros b Hb. unfold Qlt_bool. apply negb_false_iff, Qle_bool_iff.
    pose proof (sort_desc_sorted (map Qopp row)) as Hs. fold s in Hs.
    rewrite <- (firstn_skipn k s), EA in Hs.
    pose proof (sorted_app _ _ Hs a b Ha Hb). rewrite E. lra.
Qed.

Lemma selected_count th n b f (row : list Q) (g : nat -> Q) :
  row = map g (seq 0 n) ->
  (forall j, j < n -> tget th [b; j] = b2q (f (g j))) ->
  selected th n b = count f row.
Proof.
  intros -> H. unfold selected, count.
  rewrite (filter_ext_in _ (fun j => f (g j))).
  - induction (seq 0 n) as [|j l IH]; simpl; [reflexivity|].
    destruct (f (g j)); simpl; congruence.
  - intros j Hj. apply in_seq in Hj. rewrite H by lia. apply b2q_is_one.
Qed.

(** C3.  For a [bs] by [n] tensor of distances and [k <= n],
    [zero_out_non_min_distances] returns a mask of the same shape, having
    consumed [n] draws: one jitter per column, the same for every example.
    Entry [b, j] of the mask is 1 when the jittered entry is at or below
    the threshold of row [b] and 0 otherwise; that threshold is the maximum
    of the negated top-k of the negated jittered row, which is the k-th
    smallest jittered entry (at least [k] entries are at or below it and
    fewer than [k] strictly below).  When the jittered entries of the row
    are pairwise distinct, exactly [k] entries are selected. *)
Theorem zero_out_non_min_distances_selects rng pos dist bs n k :
  shape dist = [bs; n] -> k <= n ->
  exists th,
    zero_out_non_min_distances rng pos dist k = Ok (th, pos + n) /\
    shape th = [bs; n] /\
    forall b, b < bs ->
      let row := jittered_row rng pos dist n b in
      (forall j, j < n ->
         tget th [b; j] =
         b2q (le_threshold (jittered rng pos dist b j) (kth_threshold k row))) /\
      k <= selected th n b /\
      (forall t, kth_threshold k row = Some t ->
                 count (fun x => Qlt_bool x t) row < k) /\
      (NoDupA Qeq row -> selected th n b = k).
Proof.
  intros Hsh Hk.
  destruct (zero_out_entries rng pos dist bs n k Hsh Hk) as (th & Hth & Hs & Hv).
  exists th. split; [exact Hth|]. split; [exact Hs|].
  intros b Hb row.
  assert (Hlen : length row = n).
  { unfold row, jittered_row. now rewrite length_map, length_seq. }
  assert (Hsel : selected th n b
                 = count (fun x => le_threshold x (kth_threshold k row)) row).
  { apply (selected_count th n b _ row (jittered rng pos dist b)).
    - reflexivity.
    - intros j Hj. now apply Hv. }
  split; [intros j Hj; now apply Hv|].
  split; [rewrite Hsel; apply count_kth_threshold_ge; lia|].
  split; [intros t Ht; apply count_below_kth_threshold; [lia | exact Ht]|].
  intros Hd. rewrite Hsel. apply count_kth_threshold; [lia | exact Hd].
Qed.

(** ** The weights list is read at its even positions only *)

Lemma for_each_ext {S : Type} idxs (f g : nat -> S -> res S) :
  (forall i s, In i idxs -> f i s = g i s) ->
  forall s, for_each idxs f s = for_each idxs g s.
Proof.
  induction idxs as [|i idxs IH]; intros H s; simpl; [reflexivity|].
  rewrite (H i s) by now left.
  destruct (g i s) as [s'|e]; simpl; [|reflexivity].
  apply IH. intros j s0 Hj. apply H. now right.
Qed.

Lemma split_layers_even z_list w1 w2 :
  (forall i, nth_error w1 (2 * i) = nth_error w2 (2 * i)) ->
  split_layers z_list w1 = split_layers z_list w2.
Proof.
  intros H. unfold split_layers. apply for_each_ext.
  intros i L _. unfold py_index at 2 3 5 6. now rewrite (H i).
Qed.

(** C10.  Two weights lists that agree at every even position (both
    absent, or both present and equal) give the same result, whatever the
    entries at the odd positions, the biases, are. *)
Theorem mmr_cnn_ignores_biases sqrtQ rng pos z_list x y_true model
    n_rb n_db gamma_rb gamma_db bs q w1 w2 :
  (forall i, nth_error w1 (2 * i) = nth_error w2 (2 * i)) ->
  mmr_cnn sqrtQ rng pos z_list x y_true model n_rb n_db gamma_rb gamma_db bs q w1
  = mmr_cnn sqrtQ rng pos z_list x y_true model n_rb n_db gamma_rb gamma_db bs q w2.
Proof.
  intros H. unfold mmr_cnn. now rewrite (split_layers_even z_list w1 w2 H).
Qed.

Lemma mmr_cnn_ignores_biases_witness :
  toy_weights <> toy_weights' /\
  mmr_cnn sqrt_floor rng_ramp 0 toy_z_list toy_x toy_y tt 2 1
          (HSeq [16; 16]%Q) (HSeq [16; 16]%Q) 1 (QStr "univ") toy_weights
  = mmr_cnn sqrt_floor rng_ramp 0 toy_z_list toy_x toy_y tt 2 1
            (HSeq [16; 16]%Q) (HSeq [16; 16]%Q) 1 (QStr "univ") toy_weights'.
Proof.
  split; [discriminate|].
  apply (mmr_cnn_ignores_biases sqrt_floor rng_ramp 0 toy_z_list toy_x toy_y tt
           2 1 (HSeq [16; 16]%Q) (HSeq [16; 16]%Q) 1 (QStr "univ")
           toy_weights toy_weights').
  intros i. do 3 (destruct i as [|i]; [reflexivity|]).
  replace (2 * S (S (S i))) with (6 + 2 * i) by lia. reflexivity.
Defined.

(** ** A norm outside the recognized set *)

Lemma split_layers_ok z_list weights :
  (forall z, In z z_list -> 1 <= rank z) ->
  2 * length z_list <= length weights + 1 ->
  exists L, split_layers z_list weights = Ok L.
Proof.
  intros Hr Hw. unfold split_layers.
  assert (G : forall idxs L0,
            (forall i, In i idxs -> i < length z_list) ->
            exists L, for_each idxs
              (fun i L =>
                 z <- py_index z_list i ;;
                 if rank z =? 4 then
                   relu <- cast_greater z (scalar 0) ;;
                   relu <- tf_expand_dims1 relu ;;
                   W <- py_index weights (2 * i) ;;
                   Ok (mkLayers (z_conv L ++ [z]) (z_fc L)
                                (relus_conv L ++ [relu]) (relus_fc L)
                                (W_conv L ++ [W]) (W_fc L))
                 else
                   relu <- cast_greater z (scalar 0) ;;
                   relu <- tf_expand_dims1 relu ;;
                   W <- py_index weights (2 * i) ;;
                   Ok (mkLayers (z_conv L) (z_fc L ++ [z])
                                (relus_conv L) (relus_fc L ++ [relu])
                                (W_conv L) (W_fc L ++ [W]))) L0 = Ok L).
  { induction idxs as [|i idxs IH]; intros L0 Hi; cbn [for_each]; [eauto|].
    assert (Hlt : i < length z_list) by (apply Hi; now left).
    unfold py_index at 1.
    destruct (nth_error z_list i) as [z|] eqn:Ez;
      [|apply nth_error_None in Ez; lia].
    cbn [bind].
    assert (Hz : 1 <= rank z) by (apply Hr; eapply nth_error_In; exact Ez).
    assert (Hw' : exists W, py_index weights (2 * i) = Ok W).
    { unfold py_index. destruct (nth_error weights (2 * i)) eqn:Ew; [eauto|].
      apply nth_error_None in Ew. lia. }
    destruct Hw' as (W & HW).
    assert (Hrelu : exists relu,
              (relu <- cast_greater z (scalar 0) ;; tf_expand_dims1 relu) = Ok relu).
    { unfold cast_greater, bop. cbn [scalar shape]. rewrite bshape_nil_r.
      cbn [bind]. unfold tf_expand_dims1. rewrite shape_tbuild.
      unfold rank in Hz. destruct (shape z); simpl in Hz; [lia | eauto]. }
    destruct Hrelu as (relu & Hrelu).
    apply bind_ok in Hrelu. destruct Hrelu as (r0 & Hr0 & Hr1).
    destruct (rank z =? 4); rewrite Hr0; cbn [bind]; rewrite Hr1; cbn [bind];
      rewrite HW; cbn [bind]; apply IH; intros j Hj; apply Hi; now right. }
  apply G. intros i Hi. apply in_seq in Hi. lia.
Qed.

(** C7, as amended.  For a [q] outside the recognized set, [mmr_cnn]
    raises no unsupported-norm error: it never returns terms, and on a
    non-empty list of pre-activations of rank at least 1, with a weight
    for each, an input of rank at least 4 and labels of rank at least 2,
    it reaches its end and returns [None]. *)
Theorem mmr_cnn_unrecognized_norm sqrtQ rng pos z_list x y_true model
    n_rb n_db gamma_rb gamma_db bs q weights :
  single_ord q = None -> is_univ q = false ->
  (forall r, mmr_cnn sqrtQ rng pos z_list x y_true model n_rb n_db
                     gamma_rb gamma_db bs q weights = Ok r -> r = RNone) /\
  (z_list <> [] ->
   (forall z, In z z_list -> 1 <= rank z) ->
   2 * length z_list <= length weights + 1 ->
   4 <= rank x -> 2 <= rank y_true ->
   mmr_cnn sqrtQ rng pos z_list x y_true model n_rb n_db
           gamma_rb gamma_db bs q weights = Ok RNone).
Proof.
  intros Hs Hu. unfold mmr_cnn. rewrite Hs, Hu. split.
  - intros r H. inv_ok. reflexivity.
  - intros Hz Hr Hw Hx Hy.
    assert (E1 : exists y_pred, py_last z_list = Ok y_pred).
    { unfold py_last. destruct (rev z_list) eqn:E; [|eauto].
      apply (f_equal (@rev tensor)) in E. rewrite rev_involutive in E.
      simpl in E. contradiction. }
    destruct E1 as (y_pred & ->). cbn [bind].
    destruct (split_layers_ok z_list weights Hr Hw) as (L & ->). cbn [bind].
    unfold dim_at, py_index, rank in *.
    destruct (shape x) as [|x0 [|x1 [|x2 [|x3 sx]]]]; simpl in Hx; try lia.
    destruct (shape y_true) as [|y0 [|y1 sy]]; simpl in Hy; try lia.
    reflexivity.
Qed.

Lemma mmr_cnn_unrecognized_norm_witness :
  mmr_cnn sqrt_floor rng_half 0 toy_z_list toy_x toy_y tt 2 1
          (HFloat 16) (HFloat 16) 1 (QNum 3) toy_weights = Ok RNone.
Proof.
  refine (proj2 (mmr_cnn_unrecognized_norm sqrt_floor rng_half 0 toy_z_list
                   toy_x toy_y tt 2 1 (HFloat 16) (HFloat 16) 1 (QNum 3)
                   toy_weights eq_refl eq_refl) _ _ _ _ _).
  - discriminate.
  - intros z [<-|[<-|[<-|[]]]]; unfold rank; simpl; lia.
  - simpl. lia.
  - unfold rank; simpl; lia.
  - unfold rank; simpl; lia.
Defined.

(** C7, as stated, fails: with [q = 3] the call returns normally. *)
Lemma mmr_cnn_unrecognized_norm_returns :
  single_ord (QNum 3) = None /\ is_univ (QNum 3) = false /\
  exists r, mmr_cnn sqrt_floor rng_half 0 toy_z_list toy_x toy_y tt 2 1
                    (HFloat 16) (HFloat 16) 1 (QNum 3) toy_weights = Ok r.
Proof.
  split; [reflexivity|]. split; [reflexivity|].
  exists RNone. vm_compute. reflexivity.
Qed.

Lemma zero_out_non_min_distances_selects_witness :
  exists th, zero_out_non_min_distances rng_ramp 0 toy_dist 2 = Ok (th, 5)
             /\ shape th = [1; 5] /\ selected th 5 0 = 2.
Proof.
  destruct (zero_out_non_min_distances_selects rng_ramp 0 toy_dist 1 5 2
              eq_refl ltac:(lia)) as (th & H1 & H2 & H3).
  exists th. split; [exact H1|]. split; [exact H2|].
  destruct (H3 0 ltac:(lia)) as (_ & _ & _ & H4). apply H4.
  unfold jittered_row, jittered, toy_dist, rng_ramp, tget; simpl.
  repeat (constructor; [intros H; repeat (apply InA_cons in H; destruct H as [H|H];
                          [vm_compute in H; discriminate|]);
                        apply InA_nil in H; exact H|]).
  constructor.
Defined.

(** ** Reshaping *)

Lemma reshape_ok t sh t' :
  tf_reshape t sh = Ok t' ->
  data t' = data t /\ exists m, shape t' = map (resolve m) sh.
Proof.
  unfold tf_reshape. intros H.
  destruct (count_infer sh) as [|[|n]].
  - destruct (_ =? _); [|discriminate]. injection H as <-. simpl. eauto.
  - destruct (_ || _); [discriminate|]. injection H as <-. simpl. eauto.
  - discriminate.
Qed.

Lemma reshape_infer t sh m :
  count_infer sh = 1 -> known_prod sh <> 0 ->
  numel (shape t) = m * known_prod sh ->
  tf_reshape t sh = Ok (mkT (map (resolve m) sh) (data t)).
Proof.
  intros Hc Hk Hs. unfold tf_reshape. rewrite Hc, Hs.
  apply Nat.eqb_neq in Hk. rewrite Hk. cbn [orb].
  apply Nat.eqb_neq in Hk.
  rewrite Nat.Div0.mod_mul, Nat.eqb_refl. cbn [negb].
  now rewrite Nat.div_mul.
Qed.

(** ** The propagators keep the input-dimension axis *)

Lemma calc_v_fc_axis V W V' :
  calc_v_fc V W = Ok V' ->
  exists m n_in n_next,
    nth_error (shape V) 1 = Some n_in /\ shape V' = [m; n_in; n_next].
Proof.
  unfold calc_v_fc. intros H. inv_ok.
  apply reshape_ok in H. destruct H as (_ & m & Hs).
  unfold dim_at, py_index in E.
  destruct (nth_error (shape V) 1) as [n_in|]; [|discriminate].
  injection E as <-.
  exists m, n_in, n0. now split.
Qed.

Lemma calc_v_fc_compatible V W bs d n_prev n_next :
  shape V = [bs; d; n_prev] -> shape W = [n_prev; n_next] ->
  0 < d -> 0 < n_prev -> 0 < n_next ->
  exists V', calc_v_fc V W = Ok V' /\ shape V' = [bs; d; n_next].
Proof.
  intros HV HW Hd Hp Hn. unfold calc_v_fc, dim_at, py_index.
  rewrite HV, HW. cbn [nth_error bind unpack2].
  rewrite (reshape_infer V [Infer; D n_prev] (bs * d))
    by first [reflexivity | simpl; lia | rewrite HV; simpl; lia].
  cbn [bind]. unfold tf_matmul. cbn [shape map resolve]. rewrite HW.
  rewrite Nat.eqb_refl. cbn [bind].
  rewrite (reshape_infer _ [Infer; D d; D n_next] bs)
    by first [reflexivity | simpl; nia | rewrite shape_tbuild; simpl; lia].
  eexists. split; reflexivity.
Qed.

Lemma calc_v_conv_axis V w stride pad boo_last V' :
  calc_v_conv V w stride pad boo_last = Ok V' ->
  exists m d h' w' c',
    nth_error (shape V) 1 = Some d /\ shape V' = [m; d; h'; w'; c'].
Proof.
  unfold calc_v_conv. intros H. inv_ok.
  apply reshape_ok in H. destruct H as (_ & m & Hs).
  unfold dim_at, py_index in E.
  destruct (nth_error (shape V) 1) as [d|]; [|discriminate].
  injection E as <-.
  exists m, d, v6, v7, v8. now split.
Qed.

Lemma max_pool2d_shape t k s p n h w c ho ph wo pw :
  shape t = [n; h; w; c] ->
  window p h k s = Ok (ho, ph) -> window p w k s = Ok (wo, pw) ->
  exists t', tf_max_pool2d t k s p = Ok t' /\ shape t' = [n; ho; wo; c].
Proof.
  intros Ht Hh Hw. unfold tf_max_pool2d. rewrite Ht, Hh. cbn [bind].
  rewrite Hw. cbn [bind]. eexists. split; reflexivity.
Qed.

Lemma conv2d_shape t w s p n h wd c kh kw co ho ph wo pw :
  shape t = [n; h; wd; c] -> shape w = [kh; kw; c; co] ->
  window p h kh s = Ok (ho, ph) -> window p wd kw s = Ok (wo, pw) ->
  exists t', tf_conv2d t w s p = Ok t' /\ shape t' = [n; ho; wo; co].
Proof.
  intros Ht Hw Hh Hd. unfold tf_conv2d. rewrite Ht, Hw, Nat.eqb_refl, Hh.
  cbn [bind]. rewrite Hd. cbn [bind]. eexists. split; reflexivity.
Qed.

Lemma calc_v_conv_compatible V w stride pad (boo_last : bool)
    bs d h wd c kh kw co hp ph wp pw ho pho wo pwo :
  shape V = [bs; d; h; wd; c] -> shape w = [kh; kw; c; co] ->
  0 < d -> 0 < h * wd * c ->
  (if boo_last then Ok (h, 0) else window pad h 2 2) = Ok (hp, ph) ->
  (if boo_last then Ok (wd, 0) else window pad wd 2 2) = Ok (wp, pw) ->
  window pad hp kh stride = Ok (ho, pho) ->
  window pad wp kw stride = Ok (wo, pwo) ->
  0 < ho * wo * co ->
  exists V', calc_v_conv V w stride pad boo_last = Ok V'
             /\ shape V' = [bs; d; ho; wo; co].
Proof.
  intros HV Hw Hd Hpos Hph Hpw Hch Hcw Hout.
  unfold calc_v_conv, dim_at, py_index. rewrite HV. cbn [nth_error bind].
  rewrite (reshape_infer V [Infer; D h; D wd; D c] (bs * d))
    by first [reflexivity | simpl; lia | rewrite HV; simpl; lia].
  cbn [bind map resolve].
  set (V1 := mkT [bs * d; h; wd; c] (data V)).
  assert (Hpool : exists V2,
            (if negb boo_last then tf_max_pool2d V1 2 2 pad else Ok V1) = Ok V2
            /\ shape V2 = [bs * d; hp; wp; c]).
  { destruct boo_last; cbn [negb].
    - injection Hph as <- _. injection Hpw as <- _. eexists. split; reflexivity.
    - eapply max_pool2d_shape; [reflexivity | exact Hph | exact Hpw]. }
  destruct Hpool as (V2 & -> & HV2). cbn [bind].
  destruct (conv2d_shape V2 w stride pad _ _ _ _ _ _ _ _ _ _ _ HV2 Hw Hch Hcw)
    as (V3 & -> & HV3).
  cbn [bind]. rewrite HV3. cbn [nth_error bind].
  rewrite (reshape_infer V3 [Infer; D d; D ho; D wo; D co] bs)
    by first [reflexivity | simpl; nia | rewrite HV3; simpl; lia].
  eexists. split; reflexivity.
Qed.

(** C4.  Whenever [calc_v_fc] or [calc_v_conv] returns, axis 1 of the
    result has the size of axis 1 of [V_prev]; and on compatible
    arguments they do return, with the batch axis and axis 1 unchanged and
    the trailing axes those of the layer: [n_next] for a fully-connected
    layer, the output height, width and channels of the pooling (unless
    [boo_last]) and of the convolution for a convolutional one. *)
Theorem propagation_preserves_input_axis :
  (forall V W V',
     calc_v_fc V W = Ok V' ->
     exists m n_in n_next,
       nth_error (shape V) 1 = Some n_in /\ shape V' = [m; n_in; n_next]) /\
  (forall V W bs d n_prev n_next,
     shape V = [bs; d; n_prev] -> shape W = [n_prev; n_next] ->
     0 < d -> 0 < n_prev -> 0 < n_next ->
     exists V', calc_v_fc V W = Ok V' /\ shape V' = [bs; d; n_next]) /\
  (forall V w stride pad boo_last V',
     calc_v_conv V w stride pad boo_last = Ok V' ->
     exists m d h' w' c',
       nth_error (shape V) 1 = Some d /\ shape V' = [m; d; h'; w'; c']) /\
  (forall V w stride pad (boo_last : bool)
          bs d h wd c kh kw co hp ph wp pw ho pho wo pwo,
     shape V = [bs; d; h; wd; c] -> shape w = [kh; kw; c; co] ->
     0 < d -> 0 < h * wd * c ->
     (if boo_last then Ok (h, 0) else window pad h 2 2) = Ok (hp, ph) ->
     (if boo_last then Ok (wd, 0) else window pad wd 2 2) = Ok (wp, pw) ->
     window pad hp kh stride = Ok (ho, pho) ->
     window pad wp kw stride = Ok (wo, pwo) ->
     0 < ho * wo * co ->
     exists V', calc_v_conv V w stride pad boo_last = Ok V'
                /\ shape V' = [bs; d; ho; wo; co]).
Proof.
  split; [exact calc_v_fc_axis|].
  split; [exact calc_v_fc_compatible|].
  split; [exact calc_v_conv_axis | exact calc_v_conv_compatible].
Qed.

Lemma propagation_preserves_input_axis_witness :
  (exists V', calc_v_fc toy_V_fc toy_W_fc = Ok V' /\ shape V' = [1; 2; 1]) /\
  (exists V', calc_v_conv toy_V_conv toy_w0 1 VALID false = Ok V'
              /\ shape V' = [1; 2; 1; 1; 1]) /\
  (exists V', calc_v_conv toy_V_conv toy_w0 1 VALID true = Ok V'
              /\ shape V' = [1; 2; 2; 2; 1]).
Proof.
  destruct propagation_preserves_input_axis as (_ & Hfc & _ & Hconv).
  split; [|split].
  - apply (Hfc toy_V_fc toy_W_fc 1 2 2 1); try reflexivity; lia.
  - apply (Hconv toy_V_conv toy_w0 1 VALID false 1 2 2 2 1 1 1 1 1 0 1 0 1 0 1 0);
      try reflexivity; simpl; lia.
  - apply (Hconv toy_V_conv toy_w0 1 VALID true 1 2 2 2 1 1 1 1 2 0 2 0 2 0 2 0);
      try reflexivity; simpl; lia.
Defined.

(** ** The pooling of [calc_v_conv] *)

Lemma for_each_calls {S : Type} idxs (f : nat -> S -> res S) :
  forall s s', for_each idxs f s = Ok s' ->
  forall i, In i idxs -> exists a b, f i a = Ok b.
Proof.
  induction idxs as [|j idxs IH]; intros s s' H i Hi; [contradiction|].
  simpl in H. inv_ok. destruct Hi as [->|Hi].
  - eauto.
  - eapply IH; eassumption.
Qed.



(** ** The floor of the denominators *)

Lemma stabilise_entries V :
  exists V',
    stabilise V = Ok V' /\ shape V' = shape V /\
    forall idx, inb idx (shape V) ->
      tget V' idx
      = (tget V idx
         + eps_num_stabil * b2q (Qlt_bool (Qabs (tget V idx)) eps_num_stabil))%Q.
Proof.
  unfold stabilise, cast_less, tf_mul, tf_add, bop.
  unfold tf_abs at 1. cbn [tmap shape scalar].
  rewrite bshape_nil_r. cbn [bind]. rewrite shape_tbuild, bshape_nil_l.
  cbn [bind]. rewrite shape_tbuild, bshape_same. cbn [bind].
  eexists. split; [reflexivity|]. split; [apply shape_tbuild|].
  intros idx Hidx.
  rewrite tget_tbuild by exact Hidx.
  rewrite ?(bidx_same (shape V)) by exact Hidx. rewrite ?tget_scalar.
  f_equal.
  rewrite tget_tbuild by exact Hidx.
  rewrite ?(bidx_same (shape V)) by exact Hidx. rewrite ?tget_scalar.
  f_equal.
  rewrite tget_tbuild by exact Hidx.
  rewrite ?(bidx_same (shape V)) by exact Hidx. rewrite ?tget_scalar.
  unfold tf_abs. now rewrite tget_tmap by reflexivity.
Qed.

Lemma Qlt_bool_iff x y : Qlt_bool x y = true <-> (x < y)%Q.
Proof.
  unfold Qlt_bool. rewrite negb_true_iff. apply Qle_bool_false.
Qed.


Lemma conv_step_univ_floor sqrtQ L bs boo_last i V d1 d2 st' :
  conv_step_univ sqrtQ L bs boo_last i (V, d1, d2) = Ok st' ->
  exists Wi si Vi zi new1 new1' new2 new2',
    py_index (W_conv L) i = Ok Wi /\ py_index strides i = Ok si /\
    calc_v_conv V Wi si VALID boo_last = Ok Vi /\
    py_index (z_conv L) i = Ok zi /\
    floored_distance sqrtQ OrdInf Vi zi new1 /\
    floored_distance sqrtQ Ord1 Vi zi new2 /\
    data new1' = data new1 /\ data new2' = data new2 /\
    tf_concat1 d1 new1' = Ok (snd (fst st')) /\
    tf_concat1 d2 new2' = Ok (snd st').
Proof.
  unfold conv_step_univ. intros H. inv_ok.
  repeat match goal with H : tf_reshape _ _ = Ok _ |- _ =>
    apply reshape_ok in H; destruct H as [? _] end.
  unfold floored_distance. simpl. from_hyps.
Qed.

Lemma fc_step_univ_floor sqrtQ L i V d1 d2 st' :
  fc_step_univ sqrtQ L i (V, d1, d2) = Ok st' ->
  exists Wi Vi zi new1 new2,
    py_index (W_fc L) i = Ok Wi /\
    calc_v_fc V Wi = Ok Vi /\
    py_index (z_fc L) i = Ok zi /\
    floored_distance sqrtQ OrdInf Vi zi new1 /\
    floored_distance sqrtQ Ord1 Vi zi new2 /\
    tf_concat1 d1 new1 = Ok (snd (fst st')) /\
    tf_concat1 d2 new2 = Ok (snd st').
Proof.
  unfold fc_step_univ. intros H. inv_ok.
  unfold floored_distance. simpl. from_hyps.
Qed.

(** ** The hinge and its sums *)

Lemma hinge_scalar dist g :
  exists h,
    hinge dist (scalar g) = Ok h /\ shape h = shape dist /\
    forall idx, inb idx (shape dist) ->
      tget h idx = Qmax 0 (1 - tget dist idx / g).
Proof.
  unfold hinge, tf_div, tf_sub, tf_maximum, bop. cbn [scalar shape].
  rewrite bshape_nil_r. cbn [bind]. rewrite shape_tbuild, bshape_nil_l.
  cbn [bind]. rewrite shape_tbuild, bshape_nil_l. cbn [bind].
  eexists. split; [reflexivity|]. split; [apply shape_tbuild|].
  intros idx Hidx.
  rewrite tget_tbuild by exact Hidx.
  rewrite ?(bidx_same (shape dist)) by exact Hidx. rewrite ?tget_scalar.
  f_equal.
  rewrite tget_tbuild by exact Hidx.
  rewrite ?(bidx_same (shape dist)) by exact Hidx. rewrite ?tget_scalar.
  f_equal.
  rewrite tget_tbuild by exact Hidx.
  rewrite ?(bidx_same (shape dist)) by exact Hidx. now rewrite ?tget_scalar.
Qed.

Lemma inb_at_axis1 sh K idx k :
  nth_error sh 1 = Some K -> k < K ->
  inb idx (firstn 1 sh ++ skipn 2 sh) -> inb (at_axis1 idx k) sh.
Proof.
  intros HK Hk H. destruct sh as [|a [|K' rest]]; try discriminate.
  injection HK as ->. simpl in H. inversion H; subst.
  unfold at_axis1. simpl. constructor; [assumption|].
  constructor; [exact Hk|]. destruct l; simpl; assumption.
Qed.

Lemma reduce_sum1_entries t s :
  tf_reduce_sum 1 t = Ok s ->
  exists K, nth_error (shape t) 1 = Some K /\
    shape s = firstn 1 (shape t) ++ skipn 2 (shape t) /\
    forall idx, inb idx (shape s) ->
      tget s idx = qsum (map (fun k => tget t (at_axis1 idx k)) (seq 0 K)).
Proof.
  unfold tf_reduce_sum, reduce_axis. intros H.
  destruct (nth_error (shape t) 1) as [K|]; [|discriminate].
  injection H as <-. exists K. split; [reflexivity|].
  split; [reflexivity|].
  intros idx Hidx. rewrite shape_tbuild in Hidx.
  now rewrite tget_tbuild by exact Hidx.
Qed.


Lemma masked_hinge_sum_is th dist g db :
  shape th = shape dist ->
  masked_hinge_sum th dist (scalar g) = Ok db ->
  is_masked_hinge_sum db th dist g.
Proof.
  unfold masked_hinge_sum. intros Hth H.
  destruct (hinge_scalar dist g) as (h & Hh & Hs & Hv).
  rewrite Hh in H. cbn [bind] in H. inv_ok.
  unfold tf_mul in E.
  apply (bop_shape _ _ _ _ (shape dist)) in E;
    [|rewrite Hth, Hs; apply bshape_same].
  apply reduce_sum1_entries in H. destruct H as (K & HK & Hsh & Hsum).
  subst v. rewrite shape_tbuild in HK, Hsh.
  exists K. split; [exact HK|].
  intros idx Hidx. rewrite Hsum by exact Hidx.
  f_equal. apply map_ext_in. intros k Hk. apply in_seq in Hk.
  assert (Hin : inb (at_axis1 idx k) (shape dist)).
  { eapply inb_at_axis1; [exact HK | lia |]. now rewrite <- Hsh. }
  rewrite tget_tbuild by exact Hin.
  rewrite Hth, Hs, !bidx_same by exact Hin.
  now rewrite Hv.
Qed.

Lemma bshape_rev_length r1 : forall r2 l,
  bshape_rev r1 r2 = Some l -> length r1 <= length l.
Proof.
  induction r1 as [|a r1 IH]; intros r2 l Hl; simpl in *; [lia|].
  destruct r2 as [|b r2]; [injection Hl as <-; simpl; lia|].
  destruct (bdim a b); [|discriminate].
  destruct (bshape_rev r1 r2) eqn:E'; [|discriminate].
  injection Hl as <-. simpl. apply IH in E'. lia.
Qed.

Lemma bshape_length sh1 sh2 sh :
  bshape sh1 sh2 = Some sh -> length sh1 <= length sh.
Proof.
  unfold bshape. intros H.
  destruct (bshape_rev (rev sh1) (rev sh2)) as [l|] eqn:El; [|discriminate].
  injection H as <-. apply bshape_rev_length in El.
  now rewrite !length_rev in *.
Qed.

Lemma zero_out_inv rng pos dist k th pos' :
  zero_out_non_min_distances rng pos dist k = Ok (th, pos') ->
  exists bs n, shape dist = [bs; n] /\ k <= n /\ shape th = [bs; n]
               /\ pos' = pos + n.
Proof.
  intros H. pose proof H as H0.
  unfold zero_out_non_min_distances, np_random_rand in H.
  apply bind_ok in H. destruct H as (n_units & En & H).
  cbn beta iota in H. inv_ok.
  unfold dim_at, py_index in En.
  destruct (shape dist) as [|bs [|n rest]] eqn:Esh; try discriminate.
  simpl in En. injection En as <-.
  unfold tf_sub, tf_mul, tf_add, bop in E, E0, E1.
  cbn [scalar shape] in E, E0. rewrite shape_tbuild, bshape_nil_r in E.
  injection E as <-. rewrite shape_tbuild, bshape_nil_l in E0.
  injection E0 as <-. rewrite shape_tbuild, Esh in E1.
  destruct (bshape (bs :: n :: rest) [n]) as [sh|] eqn:Eb; [|discriminate].
  injection E1 as <-.
  unfold mask_le_row_max in E3. rewrite shape_tbuild in E3.
  pose proof (bshape_length _ _ _ Eb) as Hlen.
  destruct sh as [|a [|b [|c sh]]]; try discriminate E3.
  destruct rest; [|simpl in Hlen; lia].
  assert (Hb : bshape [bs; n] [n] = Some [bs; n]).
  { unfold bshape; simpl. unfold bdim. now rewrite Nat.eqb_refl. }
  rewrite Hb in Eb. injection Eb as <- <-.
  assert (Hk : k <= n).
  { unfold get_min_distances, tf_top_k_values in E2.
    unfold tf_neg in E2. cbn [tmap shape] in E2.
    rewrite shape_tbuild in E2. cbn [rev app] in E2.
    destruct (k <=? n) eqn:Ek; [apply Nat.leb_le in Ek; exact Ek|].
    simpl in E2. discriminate. }
  destruct (zero_out_entries rng pos dist bs n k Esh Hk) as (th' & Hth & Hs & _).
  rewrite H0 in Hth. injection Hth as <-.
  exists bs, n. auto.
Qed.

Lemma is_univ_not_single q : is_univ q = true -> single_ord q = None.
Proof. destruct q; simpl; intros H; try discriminate; reflexivity. Qed.

Lemma mmr_cnn_inv sqrtQ rng pos z_list x y_true model n_rb n_db gamma_rb
    gamma_db bs q weights r :
  mmr_cnn sqrtQ rng pos z_list x y_true model n_rb n_db gamma_rb gamma_db bs q
          weights = Ok r ->
  exists y_pred L h_in w_in c_in n_out,
    py_last z_list = Ok y_pred /\ split_layers z_list weights = Ok L /\
    (dim_at x 1 = Ok h_in /\ dim_at x 2 = Ok w_in /\ dim_at x 3 = Ok c_in /\
     dim_at y_true 1 = Ok n_out) /\
    match single_ord q with
    | Some o =>
        mmr_single sqrtQ rng pos o L y_true y_pred n_rb n_db gamma_rb gamma_db
                   bs (h_in * w_in * c_in) h_in w_in c_in n_out = Ok r
    | None =>
        if is_univ q then
          mmr_univ sqrtQ rng pos L y_true y_pred n_rb n_db gamma_rb gamma_db
                   bs (h_in * w_in * c_in) h_in w_in c_in n_out = Ok r
        else r = RNone
    end.
Proof.
  unfold mmr_cnn. intros H. inv_ok.
  exists v, v0, v1, v2, v3, v4. split; [assumption|]. split; [assumption|].
  split; [auto|].
  destruct (single_ord q); [exact H|].
  destruct (is_univ q); [exact H | congruence].
Qed.

(** ** The single-norm branch on TensorFlow 2 *)

(** Line 125 is reached when [W_conv[0]] exists and line 124 has reshaped
    it; it raises.  Before that, lines 124 raises: the branch returns no
    distance. *)
Lemma first_layer_single_raises sqrtQ o L bs :
  exists e, first_layer_single sqrtQ o L bs = Raise e.
Proof.
  unfold first_layer_single.
  destruct (py_index (W_conv L) 0) as [W0|e]; cbn [bind]; [|eauto].
  destruct (dim_last W0) as [c_out|e]; cbn [bind]; [|eauto].
  destruct (tf_reshape W0 [Infer; D c_out]) as [w_matrix|e]; cbn [bind]; [|eauto].
  change (tf_norm sqrtQ w_matrix 0 o true) with (@Raise tensor TypeError).
  cbn [bind]. eauto.
Qed.


Lemma mmr_single_raises sqrtQ rng pos o L y_true y_pred n_rb n_db gamma_rb
    gamma_db bs n_in h_in w_in c_in n_out :
  exists e,
    mmr_single sqrtQ rng pos o L y_true y_pred n_rb n_db gamma_rb gamma_db
               bs n_in h_in w_in c_in n_out = Raise e.
Proof.
  unfold mmr_single, rb_single.
  destruct (first_layer_single_raises sqrtQ o L bs) as (e & ->).
  cbn [bind]. eauto.
Qed.



(** A call that returns terms ran the dual-norm branch. *)
Lemma mmr_cnn_univ_inv sqrtQ rng pos z_list x y_true model n_rb n_db gamma_rb
    gamma_db bs q weights r :
  is_univ q = true ->
  mmr_cnn sqrtQ rng pos z_list x y_true model n_rb n_db gamma_rb gamma_db bs q
          weights = Ok r ->
  exists y_pred L h_in w_in c_in n_out,
    py_last z_list = Ok y_pred /\ split_layers z_list weights = Ok L /\
    dim_at x 1 = Ok h_in /\ dim_at x 2 = Ok w_in /\ dim_at x 3 = Ok c_in /\
    dim_at y_true 1 = Ok n_out /\
    mmr_univ sqrtQ rng pos L y_true y_pred n_rb n_db gamma_rb gamma_db
             bs (h_in * w_in * c_in) h_in w_in c_in n_out = Ok r.
Proof.
  intros Hu H. apply mmr_cnn_inv in H.
  destruct H as (y_pred & L & h_in & w_in & c_in & n_out & Hy & HL
                 & (Hh & Hw & Hc & Hn) & H).
  rewrite (is_univ_not_single q Hu), Hu in H.
  exists y_pred, L, h_in, w_in, c_in, n_out. auto 10.
Qed.

(** ** Signs and bounds of the terms *)

Lemma nonneg_tget t idx : nonneg t -> (0 <= tget t idx)%Q.
Proof. intros H. apply tget_cases; [exact H | apply Qle_refl]. Qed.

Lemma nonneg_bop f a b c :
  (forall x y, (0 <= x)%Q -> (0 <= y)%Q -> (0 <= f x y)%Q) ->
  nonneg a -> nonneg b -> bop f a b = Ok c -> nonneg c.
Proof.
  intros Hf Ha Hb H. unfold bop in H.
  destruct (bshape (shape a) (shape b)); [|discriminate].
  injection H as <-. apply data_tbuild. intros idx _.
  apply Hf; apply nonneg_tget; assumption.
Qed.

Lemma nonneg_scalar q : (0 <= q)%Q -> nonneg (scalar q).
Proof. intros H. repeat constructor. exact H. Qed.

Lemma nonneg_abs t : nonneg (tf_abs t).
Proof.
  unfold nonneg, tf_abs, tmap; simpl. apply Forall_forall. intros x Hx.
  apply in_map_iff in Hx. destruct Hx as (y & <- & _). apply Qabs_nonneg.
Qed.


Lemma qsum_nonneg l : Forall (fun x => (0 <= x)%Q) l -> (0 <= qsum l)%Q.
Proof.
  induction 1 as [|x l Hx Hl IH]; simpl; [apply Qle_refl | lra].
Qed.


Lemma Qmult_nonneg x y : (0 <= x)%Q -> (0 <= y)%Q -> (0 <= x * y)%Q.
Proof. intros. now apply Qmult_le_0_compat. Qed.

Lemma Qplus_nonneg x y : (0 <= x)%Q -> (0 <= y)%Q -> (0 <= x + y)%Q.
Proof. intros. lra. Qed.

Lemma Qdiv_nonneg x y : (0 <= x)%Q -> (0 <= y)%Q -> (0 <= x / y)%Q.
Proof.
  intros Hx Hy. unfold Qdiv. apply Qmult_le_0_compat; [exact Hx|].
  now apply Qinv_le_0_compat.
Qed.



Lemma b2q_nonneg c : (0 <= b2q c)%Q.
Proof. destruct c; simpl; lra. Qed.

Lemma nonneg_zero_out rng pos dist k th pos' :
  zero_out_non_min_distances rng pos dist k = Ok (th, pos') -> nonneg th.
Proof.
  unfold zero_out_non_min_distances, np_random_rand. intros H.
  apply bind_ok in H. destruct H as (n_units & En & H).
  cbn beta iota in H. inv_ok.
  unfold mask_le_row_max in *.
  destruct (shape v1) as [|a [|b [|c l]]]; try discriminate.
  destruct (shape v2) as [|a' [|b' [|c' l']]]; try discriminate.
  destruct (_ && _); [|discriminate].
  match goal with H : Ok _ = Ok _ |- _ => injection H as <- end.
  apply data_tbuild. intros idx _.
  destruct idx as [|e [|j [|? ?]]]; try apply Qle_refl. apply b2q_nonneg.
Qed.

Lemma nonneg_union_mask rng pos d1 d2 k th pos' :
  union_mask rng pos d1 d2 k = Ok (th, pos') -> nonneg th.
Proof.
  unfold union_mask. intros H. inv_ok.
  eapply (nonneg_bop Qmin); [| | apply (nonneg_scalar 1); lra | eassumption].
  - intros x y Hx Hy. apply Q.min_glb; assumption.
  - eapply (nonneg_bop Qplus); [exact Qplus_nonneg | | | eassumption];
      eapply nonneg_zero_out; eassumption.
Qed.



(** The norms are not negative; [ord=2] needs it of the square root. *)
Lemma vnorm_nonneg sqrtQ o l :
  (o = Ord2 -> forall x, (0 <= sqrtQ x)%Q) -> (0 <= vnorm sqrtQ o l)%Q.
Proof.
  intros Hsq. destruct o; simpl.
  - apply qsum_nonneg, Forall_forall. intros x Hx.
    apply in_map_iff in Hx. destruct Hx as (y & <- & _). apply Qabs_nonneg.
  - now apply Hsq.
  - unfold qmax_list. destruct l as [|x l]; simpl; [apply Qle_refl|].
    destruct (fold_left_Qmax_spec (map Qabs l) (Qabs x)) as [Hub _].
    eapply Qle_trans; [apply Qabs_nonneg | apply Hub; now left].
Qed.

Lemma nonneg_norm sqrtQ t a o keep s :
  (o = Ord2 -> forall x, (0 <= sqrtQ x)%Q) ->
  tf_norm sqrtQ t a o keep = Ok s -> nonneg s.
Proof.
  unfold tf_norm, reduce_axis. intros Hsq H.
  destruct keep; [discriminate|].
  destruct (nth_error (shape t) a); [|discriminate]. injection H as <-.
  apply data_tbuild. intros idx _. now apply vnorm_nonneg.
Qed.

Lemma nonneg_reshape t sh t' : nonneg t -> tf_reshape t sh = Ok t' -> nonneg t'.
Proof.
  intros Ht H. apply reshape_ok in H. destruct H as [Hd _].
  unfold nonneg. now rewrite Hd.
Qed.

Lemma nonneg_concat a b c :
  nonneg a -> nonneg b -> tf_concat1 a b = Ok c -> nonneg c.
Proof.
  intros Ha Hb H. unfold tf_concat1 in H.
  destruct (shape a) as [|n [|ma sa]]; try discriminate.
  destruct (shape b) as [|n' [|mb sb]]; try discriminate.
  destruct (_ && _); [|discriminate]. injection H as <-.
  apply data_tbuild. intros idx _.
  destruct idx as [|i [|j rest]]; try apply Qle_refl.
  destruct (j <? ma); now apply nonneg_tget.
Qed.

Lemma nonneg_distance z nrm d :
  nonneg nrm -> tf_div (tf_abs z) nrm = Ok d -> nonneg d.
Proof.
  intros Hn H. eapply (nonneg_bop Qdiv); [exact Qdiv_nonneg | | exact Hn | exact H].
  apply nonneg_abs.
Qed.

Lemma for_each_invariant {S : Type} (P : S -> Prop) idxs (f : nat -> S -> res S) :
  (forall i s s', P s -> f i s = Ok s' -> P s') ->
  forall s s', P s -> for_each idxs f s = Ok s' -> P s'.
Proof.
  intros Hf. induction idxs as [|i idxs IH]; intros s s' Hs H; simpl in H.
  - now injection H as <-.
  - inv_ok. eapply IH; [|exact H]. eapply Hf; eassumption.
Qed.

(** The distances to the region boundaries of the dual-norm branch are
    not negative. *)
Lemma first_layer_univ_nonneg sqrtQ L bs d1 d2 :
  first_layer_univ sqrtQ L bs = Ok (d1, d2) -> nonneg d1 /\ nonneg d2.
Proof.
  unfold first_layer_univ. intros H. inv_ok. split.
  - eapply nonneg_reshape; [|eassumption].
    eapply nonneg_distance; [|eassumption].
    eapply nonneg_norm; [|eassumption]; discriminate.
  - eapply nonneg_reshape; [|eassumption].
    eapply nonneg_distance; [|eassumption].
    eapply nonneg_norm; [|eassumption]; discriminate.
Qed.

Lemma conv_step_univ_nonneg sqrtQ L bs boo_last i st st' :
  dists_nonneg st -> conv_step_univ sqrtQ L bs boo_last i st = Ok st' ->
  dists_nonneg st'.
Proof.
  destruct st as [[V d1] d2]. unfold dists_nonneg. simpl. intros [H1 H2] H.
  apply conv_step_univ_floor in H.
  destruct H as (Wi & si & Vi & zi & n1 & n1' & n2 & n2' & _ & _ & _ & _
                 & Hf1 & Hf2 & Hd1 & Hd2 & Hc1 & Hc2).
  destruct Hf1 as (Vs1 & nrm1 & _ & Hn1 & Hdiv1).
  destruct Hf2 as (Vs2 & nrm2 & _ & Hn2 & Hdiv2).
  split.
  - eapply nonneg_concat; [exact H1 | | exact Hc1].
    unfold nonneg. rewrite Hd1.
    eapply nonneg_distance; [|exact Hdiv1].
    eapply nonneg_norm; [|exact Hn1]; discriminate.
  - eapply nonneg_concat; [exact H2 | | exact Hc2].
    unfold nonneg. rewrite Hd2.
    eapply nonneg_distance; [|exact Hdiv2].
    eapply nonneg_norm; [|exact Hn2]; discriminate.
Qed.

Lemma fc_step_univ_nonneg sqrtQ L i st st' :
  dists_nonneg st -> fc_step_univ sqrtQ L i st = Ok st' -> dists_nonneg st'.
Proof.
  destruct st as [[V d1] d2]. unfold dists_nonneg. simpl. intros [H1 H2] H.
  apply fc_step_univ_floor in H.
  destruct H as (Wi & Vi & zi & n1 & n2 & _ & _ & _ & Hf1 & Hf2 & Hc1 & Hc2).
  destruct Hf1 as (Vs1 & nrm1 & _ & Hn1 & Hdiv1).
  destruct Hf2 as (Vs2 & nrm2 & _ & Hn2 & Hdiv2).
  split.
  - eapply nonneg_concat; [exact H1 | | exact Hc1].
    eapply nonneg_distance; [|exact Hdiv1].
    eapply nonneg_norm; [|exact Hn1]; discriminate.
  - eapply nonneg_concat; [exact H2 | | exact Hc2].
    eapply nonneg_distance; [|exact Hdiv2].
    eapply nonneg_norm; [|exact Hn2]; discriminate.
Qed.

Lemma rb_univ_nonneg sqrtQ L bs n_in h_in w_in c_in V d1 d2 :
  rb_univ sqrtQ L bs n_in h_in w_in c_in = Ok (V, d1, d2) ->
  nonneg d1 /\ nonneg d2.
Proof.
  unfold rb_univ. intros H.
  apply bind_ok in H. destruct H as ([e1 e2] & Hfirst & H).
  apply bind_ok in H. destruct H as (V0 & Hseed & H).
  apply bind_ok in H. destruct H as ([[Vc c1] c2] & Hconv & H).
  apply bind_ok in H. destruct H as (nf & Hnf & H).
  apply bind_ok in H. destruct H as (Vf & Hresh & H).
  apply first_layer_univ_nonneg in Hfirst.
  assert (Hc : dists_nonneg (Vc, c1, c2)).
  { eapply (for_each_invariant dists_nonneg);
      [apply conv_step_univ_nonneg | | exact Hconv]. exact Hfirst. }
  change (dists_nonneg (V, d1, d2)).
  eapply (for_each_invariant dists_nonneg);
    [apply fc_step_univ_nonneg | | exact H]. exact Hc.
Qed.



Lemma masked_hinge_sum_shape th dist g db :
  shape th = shape dist ->
  masked_hinge_sum th dist (scalar g) = Ok db ->
  shape db = firstn 1 (shape dist) ++ skipn 2 (shape dist).
Proof.
  unfold masked_hinge_sum. intros Hth H.
  destruct (hinge_scalar dist g) as (h & Hh & Hs & _).
  rewrite Hh in H. cbn [bind] in H. inv_ok.
  unfold tf_mul in E.
  apply (bop_shape _ _ _ _ (shape dist)) in E;
    [|rewrite Hth, Hs; apply bshape_same].
  apply reduce_sum1_entries in H. destruct H as (K & _ & Hsh & _).
  subst v. now rewrite shape_tbuild in Hsh.
Qed.

Lemma filter_map_count (f : Q -> bool) (g : nat -> Q) l :
  length (filter (fun j => f (g j)) l) = count f (map g l).
Proof.
  unfold count. induction l as [|j l IH]; simpl; [reflexivity|].
  destruct (f (g j)); simpl; congruence.
Qed.


(** ** The true-class entry of the decision-boundary distances *)

Lemma tget_same_data t t' idx idx' :
  data t' = data t -> ravel (shape t') idx' = ravel (shape t) idx ->
  tget t' idx' = tget t idx.
Proof. unfold tget. now intros -> ->. Qed.

Lemma qsum_ext_eq (f g : nat -> Q) l :
  (forall k, In k l -> (f k == g k)%Q) ->
  (qsum (map f l) == qsum (map g l))%Q.
Proof.
  induction l as [|k l IH]; intros H; simpl; [reflexivity|].
  rewrite (H k) by now left. rewrite IH; [reflexivity|].
  intros j Hj. apply H. now right.
Qed.

Lemma qsum_zero (f : nat -> Q) l :
  (forall k, In k l -> (f k == 0)%Q) -> (qsum (map f l) == 0)%Q.
Proof.
  induction l as [|k l IH]; intros H; simpl; [reflexivity|].
  rewrite (H k) by now left. rewrite IH; [ring|].
  intros j Hj. apply H. now right.
Qed.

(** A sum with one non-zero term. *)
Lemma qsum_single (f : nat -> Q) n c :
  c < n -> (forall k, k < n -> k <> c -> (f k == 0)%Q) ->
  (qsum (map f (seq 0 n)) == f c)%Q.
Proof.
  intros Hc Hz.
  replace n with (c + (1 + (n - c - 1))) by lia.
  rewrite !seq_app, !map_app. simpl seq. simpl map.
  assert (Happ : forall l1 l2, (qsum (l1 ++ l2) == qsum l1 + qsum l2)%Q).
  { induction l1 as [|x l1 IH]; intros l2; simpl; [ring|]. rewrite IH. ring. }
  rewrite Happ. simpl app. simpl qsum.
  rewrite !qsum_zero.
  - ring.
  - intros k Hk. apply in_seq in Hk. apply Hz; lia.
  - intros k Hk. apply in_seq in Hk. apply Hz; lia.
Qed.

(** The numerator of row [b] when its label is the one-hot encoding of
    class [c]: the logit of the true class minus the logit of the class,
    plus 100 times the label. *)
Lemma margin_numerator_entries y_pred y_true bs K b c :
  shape y_pred = [bs; K] -> shape y_true = [bs; K] -> 0 < K ->
  b < bs -> c < K ->
  (tget y_true [b; c] == 1)%Q ->
  (forall k, k < K -> k <> c -> (tget y_true [b; k] == 0)%Q) ->
  exists num,
    margin_numerator y_pred y_true K = Ok num /\ shape num = [bs; K] /\
    forall k, k < K ->
      (tget num [b; k]
       == (tget y_pred [b; c] - tget y_pred [b; k]) + 100 * tget y_true [b; k])%Q.
Proof.
  intros Hp Ht HK Hb Hc H1 H0.
  unfold margin_numerator, margin_numerator_of.
  unfold tf_linalg_diag. rewrite Ht. cbn [bind].
  unfold tf_expand_dims1. rewrite Hp. cbn [bind].
  unfold tf_matmul. cbn [shape]. rewrite shape_tbuild.
  rewrite !Nat.eqb_refl. cbn [andb bind].
  unfold tf_reduce_sum, reduce_axis. rewrite shape_tbuild. cbn [nth_error bind firstn skipn app].
  unfold tf_tile, rank. rewrite shape_tbuild. cbn [length Nat.eqb bind combine map].
  rewrite (reshape_infer _ [Infer; D K; D 1] bs)
    by first [reflexivity | simpl; lia | rewrite shape_tbuild; simpl; lia].
  cbn [bind map resolve].
  unfold tf_transpose_021. cbn [shape bind].
  unfold tf_sub, bop. rewrite shape_tbuild. cbn [shape].
  rewrite bshape_same. cbn [bind].
  unfold tf_squeeze1. rewrite shape_tbuild. cbn [bind].
  unfold tf_mul, tf_add, bop. cbn [scalar shape]. rewrite Ht, bshape_nil_l.
  cbn [bind]. rewrite shape_tbuild, bshape_same. cbn [bind].
  eexists. split; [reflexivity|]. split; [apply shape_tbuild|].
  intros k Hk.
  assert (Hbk : inb [b; k] [bs; K]) by (repeat constructor; lia).
  assert (Hb0k : inb [b; 0; k] [bs; 1; K]) by (repeat constructor; lia).
  rewrite tget_tbuild by exact Hbk.
  cbn [shape]. rewrite !(bidx_same [bs; K]) by exact Hbk.
  rewrite (tget_tbuild [bs; K] _ [b; k]) by exact Hbk.
  rewrite tget_scalar. rewrite (bidx_same [bs; K]) by exact Hbk.
  apply Qplus_comp; [|reflexivity].
  (* the squeezed difference *)
  match goal with |- (tget {| shape := _; data := data ?u |} [b; k] == _)%Q =>
    rewrite (tget_same_data u _ [b; 0; k] [b; k]) end.
  3:{ cbn [shape ravel numel fold_right]. rewrite shape_tbuild.
      cbn [ravel numel fold_right]. lia. }
  2:{ reflexivity. }
  rewrite tget_tbuild by exact Hb0k.
  rewrite !(bidx_same [bs; 1; K]) by exact Hb0k.
  apply Qplus_comp.
  - rewrite tget_tbuild by exact Hb0k.
    match goal with |- (tget {| shape := _; data := data ?u |} _ == _)%Q =>
      rewrite (tget_same_data u _ [b; k] [b; k; 0]) end.
    3:{ cbn [shape ravel numel fold_right]. rewrite shape_tbuild.
        cbn [ravel numel fold_right]. lia. }
    2:{ reflexivity. }
    rewrite tget_tbuild by (repeat constructor; lia).
    cbn [combine map].
    rewrite Nat.mod_small by lia. rewrite Nat.mod_1_r.
    rewrite tget_tbuild by (repeat constructor; lia).
    unfold fibre. cbn [firstn skipn app].
    rewrite (qsum_ext_eq _ (fun j => (tget y_pred [b; j] * tget y_true [b; j])%Q)).
    + rewrite (qsum_single _ K c Hc).
      * rewrite H1. ring.
      * intros j Hj Hne. rewrite (H0 j Hj Hne). ring.
    + intros j Hj. apply in_seq in Hj.
      rewrite tget_tbuild by (repeat constructor; lia).
      rewrite (qsum_single _ K j) by first [lia |
        intros l Hl Hne; rewrite tget_tbuild by (repeat constructor; lia);
        apply Nat.eqb_neq in Hne; rewrite Hne; ring].
      rewrite tget_tbuild by (repeat constructor; lia).
      rewrite Nat.eqb_refl.
      apply Qmult_comp; [|reflexivity].
      rewrite (tget_same_data y_pred _ [b; j] [b; 0; j]);
        [reflexivity | reflexivity |].
      cbn [shape ravel numel fold_right]. rewrite Hp.
      cbn [ravel numel fold_right]. lia.
  - apply Qopp_comp.
    rewrite (tget_same_data y_pred _ [b; k] [b; 0; k]);
      [reflexivity | reflexivity |].
    cbn [shape ravel numel fold_right]. rewrite Hp.
    cbn [ravel numel fold_right]. lia.
Qed.

Lemma db_distance_entries num den y_true g bs K :
  shape num = [bs; K] -> shape den = [bs; K] -> shape y_true = [bs; K] ->
  exists dist,
    db_distance num den y_true (scalar g) = Ok dist /\ shape dist = [bs; K] /\
    forall b k, b < bs -> k < K ->
      tget dist [b; k]
      = (tget num [b; k] / tget den [b; k] + tget y_true [b; k] * 2 * g)%Q.
Proof.
  intros Hn Hd Ht. unfold db_distance, tf_div, tf_mul, tf_add, bop.
  rewrite Hn, Hd, bshape_same. cbn [bind]. cbn [scalar shape].
  rewrite Ht, bshape_nil_r. cbn [bind]. rewrite shape_tbuild, bshape_nil_r.
  cbn [bind]. rewrite !shape_tbuild, bshape_same. cbn [bind].
  eexists. split; [reflexivity|]. split; [apply shape_tbuild|].
  intros b k Hb Hk.
  assert (Hbk : inb [b; k] [bs; K]) by (repeat constructor; lia).
  rewrite tget_tbuild by exact Hbk.
  rewrite !(bidx_same [bs; K]) by exact Hbk.
  rewrite !(tget_tbuild [bs; K] _ [b; k]) by exact Hbk.
  rewrite !(bidx_same [bs; K]) by exact Hbk. rewrite !tget_scalar.
  rewrite !(tget_tbuild [bs; K] _ [b; k]) by exact Hbk.
  rewrite !(bidx_same [bs; K]) by exact Hbk. now rewrite !tget_scalar.
Qed.


(** * Further properties of the regularizer *)

(** ** The k smallest distances *)

Lemma In_firstn_le (k k' : nat) (x : Q) : forall l,
  k <= k' -> In x (firstn k l) -> In x (firstn k' l).
Proof.
  revert k'. induction k as [|k IH]; intros k' l Hk H; simpl in H; [contradiction|].
  destruct k' as [|k']; [lia|].
  destruct l as [|y l]; [contradiction|].
  simpl in *. destruct H as [H|H]; [now left | right].
  apply IH; [lia | exact H].
Qed.

Lemma In_firstn (k : nat) (x : Q) : forall l, In x (firstn k l) -> In x l.
Proof.
  induction k as [|k IH]; intros l H; simpl in H; [contradiction|].
  destruct l as [|y l]; [contradiction|].
  simpl in *. destruct H as [H|H]; [now left | right; now apply IH].
Qed.

Lemma sorted_firstn (R : Q -> Q -> Prop) k : forall s,
  StronglySorted R s -> StronglySorted R (firstn k s).
Proof.
  induction k as [|k IH]; intros s Hs; simpl; [constructor|].
  destruct s as [|x s]; [constructor|].
  apply StronglySorted_inv in Hs. destruct Hs as [Hs Hx].
  constructor; [now apply IH|].
  apply Forall_forall. intros y Hy. rewrite Forall_forall in Hx.
  apply Hx. eapply In_firstn. exact Hy.
Qed.

Lemma sorted_map_opp s :
  StronglySorted (fun a b => (b <= a)%Q) s -> ascending (map Qopp s).
Proof.
  unfold ascending. induction 1 as [|x s Hs IH Hx]; simpl; constructor.
  - exact IH.
  - apply Forall_forall. intros y Hy. apply in_map_iff in Hy.
    destruct Hy as (z & <- & Hz). rewrite Forall_forall in Hx.
    specialize (Hx z Hz). lra.
Qed.

Lemma map_opp_opp l : map Qopp (map Qopp l) = l.
Proof.
  rewrite map_map. rewrite <- (map_id l) at 2.
  apply map_ext. intros x. apply Qopp_opp.
Qed.

(** Row [b] of the result of [get_min_distances]. *)
Lemma get_min_distances_rows dists bs n k :
  shape dists = [bs; n] -> k <= n ->
  exists mins,
    get_min_distances dists k = Ok mins /\ shape mins = [bs; k] /\
    forall b, b < bs ->
      last_row mins k [b]
      = map Qopp (firstn k (sort_desc (map Qopp (last_row dists n [b])))).
Proof.
  intros Hsh Hk.
  unfold get_min_distances, tf_top_k_values.
  unfold tf_neg at 1. cbn [tmap shape]. rewrite Hsh. cbn [rev app].
  apply Nat.leb_le in Hk. rewrite Hk. cbn [bind]. apply Nat.leb_le in Hk.
  eexists. split; [reflexivity|]. split; [reflexivity|].
  intros b Hb.
  assert (Hrow : last_row (tf_neg dists) n [b] = map Qopp (last_row dists n [b])).
  { unfold last_row. rewrite map_map. apply map_ext. intros j.
    unfold tf_neg. now rewrite tget_tmap by reflexivity. }
  set (top := firstn k (sort_desc (map Qopp (last_row dists n [b])))).
  assert (Hlen : length top = k).
  { unfold top. rewrite length_firstn, length_sort_desc, length_map.
    unfold last_row. rewrite length_map, length_seq. lia. }
  rewrite <- (map_nth_seq Qopp top), Hlen.
  unfold last_row at 1. apply map_ext_in. intros i Hi. apply in_seq in Hi.
  unfold tf_neg at 1. rewrite tget_tmap by reflexivity. f_equal.
  rewrite tget_tbuild by (repeat constructor; lia).
  simpl last. simpl removelast.
  change (map (fun j0 => tget (tf_neg dists) ([b] ++ [j0])) (seq 0 n))
    with (last_row (tf_neg dists) n [b]).
  now rewrite Hrow.
Qed.

(** X1.  On a [bs] by [n] tensor and [k <= n], [get_min_distances] returns
    a [bs] by [k] tensor whose row [b] holds the [k] smallest entries of
    row [b] of the input, in ascending order: the row is sorted, and with
    some remainder [rest], none of whose entries is below an entry of the
    row, it is a rearrangement of the input row. *)
Theorem get_min_distances_smallest dists bs n k :
  shape dists = [bs; n] -> k <= n ->
  exists mins,
    get_min_distances dists k = Ok mins /\ shape mins = [bs; k] /\
    forall b, b < bs ->
      ascending (last_row mins k [b]) /\
      exists rest,
        Permutation (last_row mins k [b] ++ rest) (last_row dists n [b]) /\
        forall a c, In a (last_row mins k [b]) -> In c rest -> (a <= c)%Q.
Proof.
  intros Hsh Hk.
  destruct (get_min_distances_rows dists bs n k Hsh Hk) as (mins & Hm & Hs & Hr).
  exists mins. split; [exact Hm|]. split; [exact Hs|].
  intros b Hb. rewrite (Hr b Hb).
  set (s := sort_desc (map Qopp (last_row dists n [b]))).
  pose proof (sort_desc_sorted (map Qopp (last_row dists n [b]))) as Hsorted.
  fold s in Hsorted.
  split; [apply sorted_map_opp, sorted_firstn, Hsorted|].
  exists (map Qopp (skipn k s)). split.
  - rewrite <- map_app, firstn_skipn.
    rewrite <- (map_opp_opp (last_row dists n [b])).
    apply Permutation_map. apply sort_desc_perm.
  - intros a c Ha Hc.
    apply in_map_iff in Ha. destruct Ha as (a' & <- & Ha).
    apply in_map_iff in Hc. destruct Hc as (c' & <- & Hc).
    rewrite <- (firstn_skipn k s) in Hsorted.
    pose proof (sorted_app _ _ Hsorted a' c' Ha Hc). lra.
Qed.

Lemma get_min_distances_smallest_witness :
  exists mins,
    get_min_distances toy_dist 2 = Ok mins /\ shape mins = [1; 2] /\
    forall b, b < 1 ->
      ascending (last_row mins 2 [b]) /\
      exists rest,
        Permutation (last_row mins 2 [b] ++ rest) (last_row toy_dist 5 [b]) /\
        forall a c, In a (last_row mins 2 [b]) -> In c rest -> (a <= c)%Q.
Proof.
  apply (get_min_distances_smallest toy_dist 1 5 2); [reflexivity | lia].
Defined.

(** ** When the selector returns, and how its mask grows with [k] *)

(** X2.  [zero_out_non_min_distances] returns exactly on a tensor of rank 2
    whose rows have at least [n_boundaries] entries; on every other input
    it raises. *)
Theorem zero_out_non_min_distances_returns_iff rng pos dist k :
  (exists th pos', zero_out_non_min_distances rng pos dist k = Ok (th, pos'))
  <-> (exists bs n, shape dist = [bs; n] /\ k <= n).
Proof.
  split.
  - intros (th & pos' & H). apply zero_out_inv in H.
    destruct H as (bs & n & Hs & Hk & _). eauto.
  - intros (bs & n & Hs & Hk).
    destruct (zero_out_entries rng pos dist bs n k Hs Hk) as (th & H & _).
    eauto.
Qed.

Lemma jittered_in_row rng pos dist n b j :
  j < n -> In (jittered rng pos dist b j) (jittered_row rng pos dist n b).
Proof.
  intros Hj. unfold jittered_row. apply in_map, in_seq. lia.
Qed.

(** X3.  With the same draws, the rows of the mask grow with
    [n_boundaries]: an entry selected for [k] is selected for every
    [k' >= k]. *)
Theorem zero_out_non_min_distances_monotone rng pos dist bs n k k' :
  shape dist = [bs; n] -> k <= k' -> k' <= n ->
  exists th th',
    zero_out_non_min_distances rng pos dist k = Ok (th, pos + n) /\
    zero_out_non_min_distances rng pos dist k' = Ok (th', pos + n) /\
    forall b j, b < bs -> j < n ->
      (tget th [b; j] == 1)%Q -> (tget th' [b; j] == 1)%Q.
Proof.
  intros Hs Hk Hk'.
  destruct (zero_out_entries rng pos dist bs n k Hs) as (th & H & _ & Hv); [lia|].
  destruct (zero_out_entries rng pos dist bs n k' Hs Hk') as (th' & H' & _ & Hv').
  exists th, th'. split; [exact H|]. split; [exact H'|].
  intros b j Hb Hj. rewrite Hv, Hv' by assumption.
  set (x := jittered rng pos dist b j).
  set (row := jittered_row rng pos dist n b).
  destruct (le_threshold x (kth_threshold k row)) eqn:E; simpl;
    [intros _ | intros E0; discriminate E0].
  unfold kth_threshold in *.
  apply le_threshold_opp in E. destruct E as (a & Ha & Hax).
  assert (E' : le_threshold x
                 (row_max (map Qopp (firstn k' (sort_desc (map Qopp row))))) = true).
  { apply le_threshold_opp. exists a. split; [|exact Hax].
    eapply In_firstn_le; eassumption. }
  rewrite E'. reflexivity.
Qed.

Lemma zero_out_non_min_distances_monotone_witness :
  exists th th',
    zero_out_non_min_distances rng_ramp 0 toy_dist 2 = Ok (th, 0 + 5) /\
    zero_out_non_min_distances rng_ramp 0 toy_dist 3 = Ok (th', 0 + 5) /\
    forall b j, b < 1 -> j < 5 ->
      (tget th [b; j] == 1)%Q -> (tget th' [b; j] == 1)%Q.
Proof.
  apply (zero_out_non_min_distances_monotone rng_ramp 0 toy_dist 1 5 2 3);
    [reflexivity | lia | lia].
Defined.

(** X4.  The two ends: with [n_boundaries = 0] the mask is zero
    everywhere, and with [n_boundaries] the length of the rows it is one
    everywhere. *)
Theorem zero_out_non_min_distances_extremes rng pos dist bs n :
  shape dist = [bs; n] ->
  exists th0 thn,
    zero_out_non_min_distances rng pos dist 0 = Ok (th0, pos + n) /\
    zero_out_non_min_distances rng pos dist n = Ok (thn, pos + n) /\
    forall b j, b < bs -> j < n ->
      tget th0 [b; j] = 0%Q /\ tget thn [b; j] = 1%Q.
Proof.
  intros Hs.
  destruct (zero_out_entries rng pos dist bs n 0 Hs) as (th0 & H0 & _ & Hv0); [lia|].
  destruct (zero_out_entries rng pos dist bs n n Hs) as (thn & Hn & _ & Hvn); [lia|].
  exists th0, thn. split; [exact H0|]. split; [exact Hn|].
  intros b j Hb Hj. rewrite Hv0, Hvn by assumption. split; [reflexivity|].
  set (x := jittered rng pos dist b j).
  set (row := jittered_row rng pos dist n b).
  assert (E : le_threshold x (kth_threshold n row) = true).
  { unfold kth_threshold. apply le_threshold_opp.
    exists (- x)%Q. split; [|lra].
    rewrite firstn_all2.
    - eapply Permutation_in; [apply Permutation_sym, sort_desc_perm|].
      apply in_map. now apply jittered_in_row.
    - rewrite length_sort_desc, length_map. unfold row, jittered_row.
      now rewrite length_map, length_seq. }
  now rewrite E.
Qed.

Lemma zero_out_non_min_distances_extremes_witness :
  exists th0 thn,
    zero_out_non_min_distances rng_ramp 0 toy_dist 0 = Ok (th0, 0 + 5) /\
    zero_out_non_min_distances rng_ramp 0 toy_dist 5 = Ok (thn, 0 + 5) /\
    forall b j, b < 1 -> j < 5 ->
      tget th0 [b; j] = 0%Q /\ tget thn [b; j] = 1%Q.
Proof.
  apply (zero_out_non_min_distances_extremes rng_ramp 0 toy_dist 1 5).
  reflexivity.
Defined.

(** ** The union of the two selections of dual-norm mode *)

Lemma filter_orb_length (f g : nat -> bool) l :
  length (filter (fun j => f j || g j) l)
  <= length (filter f l) + length (filter g l).
Proof.
  induction l as [|j l IH]; simpl; [lia|].
  destruct (f j), (g j); simpl; lia.
Qed.

Lemma filter_le_length (f g : nat -> bool) l :
  (forall j, In j l -> f j = true -> g j = true) ->
  length (filter f l) <= length (filter g l).
Proof.
  induction l as [|j l IH]; intros H; simpl; [lia|].
  assert (IH' : length (filter f l) <= length (filter g l)).
  { apply IH. intros i Hi. apply H. now right. }
  destruct (f j) eqn:Ef.
  - rewrite (H j) by (auto; now left). simpl. lia.
  - destruct (g j); simpl; lia.
Qed.

(** The mask of lines 235 to 238 on two tensors of one shape. *)
Lemma union_mask_spec rng pos d1 d2 bs n k :
  shape d1 = [bs; n] -> shape d2 = [bs; n] -> k <= n ->
  exists th,
    union_mask rng pos d1 d2 k = Ok (th, pos + n + n) /\
    shape th = [bs; n] /\
    forall b, b < bs ->
      let row1 := jittered_row rng pos d1 n b in
      let row2 := jittered_row rng (pos + n) d2 n b in
      (forall j, j < n ->
         tget th [b; j] =
         b2q (le_threshold (jittered rng pos d1 b j) (kth_threshold k row1)
              || le_threshold (jittered rng (pos + n) d2 b j)
                              (kth_threshold k row2))) /\
      k <= selected th n b /\
      (NoDupA Qeq row1 -> NoDupA Qeq row2 -> selected th n b <= 2 * k).
Proof.
  intros Hs1 Hs2 Hk.
  destruct (zero_out_entries rng pos d1 bs n k Hs1 Hk) as (th1 & H1 & Hsh1 & Hv1).
  destruct (zero_out_entries rng (pos + n) d2 bs n k Hs2 Hk)
    as (th2 & H2 & Hsh2 & Hv2).
  unfold union_mask. rewrite H1. cbn [bind]. rewrite H2. cbn [bind].
  unfold tf_add, tf_minimum, bop. rewrite Hsh1, Hsh2, bshape_same. cbn [bind].
  rewrite shape_tbuild. cbn [scalar shape]. rewrite bshape_nil_r. cbn [bind].
  eexists. split; [reflexivity|]. split; [apply shape_tbuild|].
  intros b Hb.
  set (row1 := jittered_row rng pos d1 n b).
  set (row2 := jittered_row rng (pos + n) d2 n b).
  match goal with
  | |- context [selected ?t n b] => set (th := t)
  end.
  assert (Hv : forall j, j < n ->
            tget th [b; j] =
            b2q (le_threshold (jittered rng pos d1 b j) (kth_threshold k row1)
                 || le_threshold (jittered rng (pos + n) d2 b j)
                                 (kth_threshold k row2))).
  { intros j Hj. unfold th.
    assert (Hbj : inb [b; j] [bs; n]) by (repeat constructor; lia).
    rewrite tget_tbuild by exact Hbj.
    rewrite (bidx_same [bs; n]) by exact Hbj. rewrite tget_scalar.
    rewrite tget_tbuild by exact Hbj.
    rewrite !(bidx_same [bs; n]) by exact Hbj.
    rewrite Hv1, Hv2 by assumption.
    fold row1 row2.
    destruct (le_threshold _ (kth_threshold k row1)),
             (le_threshold _ (kth_threshold k row2)); reflexivity. }
  split; [exact Hv|].
  set (c1 := fun j => le_threshold (jittered rng pos d1 b j) (kth_threshold k row1)).
  set (c2 := fun j => le_threshold (jittered rng (pos + n) d2 b j)
                                   (kth_threshold k row2)).
  assert (Hsel : selected th n b
                 = length (filter (fun j => c1 j || c2 j) (seq 0 n))).
  { unfold selected. f_equal. apply filter_ext_in. intros j Hj.
    apply in_seq in Hj. rewrite Hv by lia. apply b2q_is_one. }
  assert (Hlen1 : length row1 = n).
  { unfold row1, jittered_row. now rewrite length_map, length_seq. }
  assert (Hlen2 : length row2 = n).
  { unfold row2, jittered_row. now rewrite length_map, length_seq. }
  assert (Hc1 : length (filter c1 (seq 0 n))
                = count (fun x => le_threshold x (kth_threshold k row1)) row1).
  { unfold c1.
    apply (filter_map_count (fun x => le_threshold x (kth_threshold k row1))
                            (jittered rng pos d1 b)). }
  assert (Hc2 : length (filter c2 (seq 0 n))
                = count (fun x => le_threshold x (kth_threshold k row2)) row2).
  { unfold c2.
    apply (filter_map_count (fun x => le_threshold x (kth_threshold k row2))
                            (jittered rng (pos + n) d2 b)). }
  split.
  - rewrite Hsel.
    eapply Nat.le_trans;
      [|apply (filter_le_length c1); intros j _ E; now rewrite E].
    rewrite Hc1. apply count_kth_threshold_ge. lia.
  - intros Hd1 Hd2. rewrite Hsel.
    eapply Nat.le_trans; [apply filter_orb_length|].
    rewrite Hc1, Hc2.
    rewrite !count_kth_threshold by (try assumption; lia). lia.
Qed.

(** X5.  On two [bs] by [n] tensors of distances and [k <= n],
    [union_mask] consumes [2 * n] draws, the second selection being
    jittered by the draws that follow those of the first.  An entry of its
    mask is 1 when either selection holds the entry and 0 otherwise, so a
    row has at least [k] entries selected, and at most [2 * k] when the
    jittered entries of each row are pairwise distinct. *)
Theorem union_mask_selects rng pos d1 d2 bs n k :
  shape d1 = [bs; n] -> shape d2 = [bs; n] -> k <= n ->
  exists th,
    union_mask rng pos d1 d2 k = Ok (th, pos + n + n) /\
    shape th = [bs; n] /\
    forall b, b < bs ->
      let row1 := jittered_row rng pos d1 n b in
      let row2 := jittered_row rng (pos + n) d2 n b in
      (forall j, j < n ->
         tget th [b; j] =
         b2q (le_threshold (jittered rng pos d1 b j) (kth_threshold k row1)
              || le_threshold (jittered rng (pos + n) d2 b j)
                              (kth_threshold k row2))) /\
      k <= selected th n b /\
      (NoDupA Qeq row1 -> NoDupA Qeq row2 -> selected th n b <= 2 * k).
Proof.
  intros Hs1 Hs2 Hk.
  destruct (union_mask_spec rng pos d1 d2 bs n k Hs1 Hs2 Hk)
    as (th & Hth & Hsh & Hv).
  exists th. split; [exact Hth|]. split; [exact Hsh|].
  intros b Hb. exact (Hv b Hb).
Qed.

Lemma union_mask_selects_witness :
  exists th,
    union_mask rng_ramp 0 toy_dist toy_dist 2 = Ok (th, 0 + 5 + 5) /\
    shape th = [1; 5] /\
    forall b, b < 1 ->
      let row1 := jittered_row rng_ramp 0 toy_dist 5 b in
      let row2 := jittered_row rng_ramp (0 + 5) toy_dist 5 b in
      (forall j, j < 5 ->
         tget th [b; j] =
         b2q (le_threshold (jittered rng_ramp 0 toy_dist b j)
                           (kth_threshold 2 row1)
              || le_threshold (jittered rng_ramp (0 + 5) toy_dist b j)
                              (kth_threshold 2 row2))) /\
      2 <= selected th 5 b /\
      (NoDupA Qeq row1 -> NoDupA Qeq row2 -> selected th 5 b <= 2 * 2).
Proof.
  apply (union_mask_selects rng_ramp 0 toy_dist toy_dist 1 5 2);
    [reflexivity | reflexivity | lia].
Defined.
(** ** The run of dual-norm mode *)

Lemma bop_shape_eq f g a b a' b' c c' :
  shape a = shape a' -> shape b = shape b' ->
  bop f a b = Ok c -> bop g a' b' = Ok c' -> shape c = shape c'.
Proof.
  unfold bop. intros <- <- H H'.
  destruct (bshape (shape a) (shape b)); [|discriminate].
  injection H as <-. injection H' as <-. now rewrite !shape_tbuild.
Qed.

Lemma norm_shape_eq sqrtQ t a o o' n1 n2 :
  tf_norm sqrtQ t a o false = Ok n1 -> tf_norm sqrtQ t a o' false = Ok n2 ->
  shape n1 = shape n2.
Proof.
  unfold tf_norm, reduce_axis. intros H H'.
  destruct (nth_error (shape t) a); [|discriminate].
  injection H as <-. injection H' as <-. now rewrite !shape_tbuild.
Qed.

Lemma reshape_exact_shape t sh t' :
  count_infer sh = 0 -> tf_reshape t sh = Ok t' -> shape t' = map (resolve 0) sh.
Proof.
  unfold tf_reshape. intros -> H.
  destruct (_ =? _); [|discriminate]. now injection H as <-.
Qed.

Lemma concat1_shape_eq a b a' b' c c' :
  shape a = shape a' -> shape b = shape b' ->
  tf_concat1 a b = Ok c -> tf_concat1 a' b' = Ok c' -> shape c = shape c'.
Proof.
  unfold tf_concat1. intros <- <- H H'.
  destruct (shape a) as [|n [|ma sa]]; try discriminate.
  destruct (shape b) as [|n' [|mb sb]]; try discriminate.
  destruct (_ && _); [|discriminate].
  injection H as <-. injection H' as <-. now rewrite !shape_tbuild.
Qed.

Lemma first_layer_univ_same_shape sqrtQ L bs d1 d2 :
  first_layer_univ sqrtQ L bs = Ok (d1, d2) -> shape d1 = shape d2.
Proof.
  unfold first_layer_univ. intros H. inv_ok.
  repeat match goal with
  | H : tf_reshape _ [D bs; D _] = Ok _ |- _ =>
      apply reshape_exact_shape in H; [|reflexivity]
  end.
  congruence.
Qed.

Lemma conv_step_univ_same_shape sqrtQ L bs boo_last i st st' :
  dists_same_shape st -> conv_step_univ sqrtQ L bs boo_last i st = Ok st' ->
  dists_same_shape st'.
Proof.
  destruct st as [[V d1] d2]. unfold dists_same_shape. simpl. intros Hs H.
  unfold conv_step_univ in H. inv_ok. simpl.
  repeat match goal with
  | H : tf_reshape _ [D bs; D _] = Ok _ |- _ =>
      apply reshape_exact_shape in H; [|reflexivity]
  end.
  eapply concat1_shape_eq; [exact Hs | | eassumption | eassumption].
  congruence.
Qed.

Lemma fc_step_univ_same_shape sqrtQ L i st st' :
  dists_same_shape st -> fc_step_univ sqrtQ L i st = Ok st' ->
  dists_same_shape st'.
Proof.
  destruct st as [[V d1] d2]. unfold dists_same_shape. simpl. intros Hs H.
  unfold fc_step_univ in H. inv_ok. simpl.
  eapply concat1_shape_eq; [exact Hs | | eassumption | eassumption].
  eapply (bop_shape_eq Qdiv Qdiv); [reflexivity | | eassumption | eassumption].
  eapply norm_shape_eq; eassumption.
Qed.

(** The parts of a run of [rb_univ] that returns. *)
Lemma rb_univ_inv sqrtQ L bs n_in h_in w_in c_in V d1 d2 :
  rb_univ sqrtQ L bs n_in h_in w_in c_in = Ok (V, d1, d2) ->
  exists s0 Vc c1 c2 nf Vf,
    univ_start sqrtQ L bs n_in h_in w_in c_in = Ok s0 /\
    for_each (seq 1 (length (z_conv L) - 1)) (conv_step_univ sqrtQ L bs false) s0
      = Ok (Vc, c1, c2) /\
    prod_dims234 Vc = Ok nf /\
    tf_reshape Vc [D bs; D n_in; D nf] = Ok Vf /\
    for_each (seq 0 (length (z_fc L) - 1)) (fc_step_univ sqrtQ L) (Vf, c1, c2)
      = Ok (V, d1, d2).
Proof.
  unfold rb_univ, univ_start. intros H.
  apply bind_ok in H. destruct H as ([e1 e2] & Hfirst & H).
  apply bind_ok in H. destruct H as (V0 & Hseed & H).
  apply bind_ok in H. destruct H as ([[Vc c1] c2] & Hconv & H).
  apply bind_ok in H. destruct H as (nf & Hnf & H).
  apply bind_ok in H. destruct H as (Vf & Hresh & H).
  exists (V0, e1, e2), Vc, c1, c2, nf, Vf.
  rewrite Hfirst. cbn [bind]. rewrite Hseed. cbn [bind]. auto.
Qed.

Lemma univ_start_inv sqrtQ L bs n_in h_in w_in c_in V d1 d2 :
  univ_start sqrtQ L bs n_in h_in w_in c_in = Ok (V, d1, d2) ->
  first_layer_univ sqrtQ L bs = Ok (d1, d2) /\
  seed_univ L bs n_in h_in w_in c_in = Ok V.
Proof.
  unfold univ_start. intros H.
  apply bind_ok in H. destruct H as ([e1 e2] & Hfirst & H).
  apply bind_ok in H. destruct H as (V0 & Hseed & H).
  injection H as <- <- <-. auto.
Qed.

Lemma rb_univ_same_shape sqrtQ L bs n_in h_in w_in c_in V d1 d2 :
  rb_univ sqrtQ L bs n_in h_in w_in c_in = Ok (V, d1, d2) ->
  shape d1 = shape d2.
Proof.
  intros H. apply rb_univ_inv in H.
  destruct H as ([[V0 e1] e2] & Vc & c1 & c2 & nf & Vf & Hs & Hconv & _ & _ & Hfc).
  apply univ_start_inv in Hs. destruct Hs as [Hfirst _].
  apply first_layer_univ_same_shape in Hfirst.
  assert (Hc : dists_same_shape (Vc, c1, c2)).
  { eapply (for_each_invariant dists_same_shape);
      [apply conv_step_univ_same_shape | | exact Hconv]. exact Hfirst. }
  change (dists_same_shape (V, d1, d2)).
  eapply (for_each_invariant dists_same_shape);
    [apply fc_step_univ_same_shape | | exact Hfc]. exact Hc.
Qed.

Lemma union_mask_inv rng pos d1 d2 k th pos' :
  shape d1 = shape d2 ->
  union_mask rng pos d1 d2 k = Ok (th, pos') ->
  exists bs n,
    shape d1 = [bs; n] /\ k <= n /\ pos' = pos + n + n /\ shape th = [bs; n].
Proof.
  intros Hs H. pose proof H as H0. unfold union_mask in H.
  apply bind_ok in H. destruct H as ([th1 p1] & H1 & _).
  apply zero_out_inv in H1. destruct H1 as (bs & n & Hd & Hk & _ & _).
  destruct (union_mask_spec rng pos d1 d2 bs n k Hd) as (th' & Hth & Hsh & _);
    [congruence | exact Hk |].
  rewrite H0 in Hth. injection Hth as <- ->.
  exists bs, n. auto.
Qed.

(** A call in dual-norm mode that returns: its stages and its result. *)
Lemma mmr_cnn_univ_run sqrtQ rng pos z_list x y_true model n_rb n_db gamma_rb
    gamma_db bs q weights r :
  is_univ q = true ->
  mmr_cnn sqrtQ rng pos z_list x y_true model n_rb n_db gamma_rb gamma_db bs q
          weights = Ok r ->
  exists y_pred L h_in w_in c_in n_out g1 g2 g3 g4 V d1 d2 m n th
         rb1 rb2 e1 e2 db1 db2,
    py_last z_list = Ok y_pred /\ split_layers z_list weights = Ok L /\
    dim_at x 1 = Ok h_in /\ dim_at x 2 = Ok w_in /\ dim_at x 3 = Ok c_in /\
    dim_at y_true 1 = Ok n_out /\
    subscript gamma_rb 0 = Ok g1 /\ subscript gamma_rb 1 = Ok g2 /\
    subscript gamma_db 0 = Ok g3 /\ subscript gamma_db 1 = Ok g4 /\
    rb_univ sqrtQ L bs (h_in * w_in * c_in) h_in w_in c_in = Ok (V, d1, d2) /\
    shape d1 = [m; n] /\ shape d2 = [m; n] /\ n_rb <= n /\
    union_mask rng pos d1 d2 n_rb = Ok (th, pos + n + n) /\
    shape th = [m; n] /\
    masked_hinge_sum th d1 (scalar g1) = Ok rb1 /\
    masked_hinge_sum th d2 (scalar g2) = Ok rb2 /\
    db_univ sqrtQ L V y_true y_pred g3 g4 n_out (h_in * w_in * c_in)
      = Ok (e1, e2) /\
    hinge_sum e1 (scalar g3) = Ok db1 /\ hinge_sum e2 (scalar g4) = Ok db2 /\
    r = RList [rb1; rb2; db1; db2].
Proof.
  intros Hu H. apply mmr_cnn_univ_inv in H; [|exact Hu].
  destruct H as (y_pred & L & h_in & w_in & c_in & n_out & Hy & HL & Hh & Hw
                 & Hc & Hn & H).
  unfold mmr_univ in H.
  apply bind_ok in H. destruct H as (g1 & Hg1 & H).
  apply bind_ok in H. destruct H as (g2 & Hg2 & H).
  apply bind_ok in H. destruct H as (g3 & Hg3 & H).
  apply bind_ok in H. destruct H as (g4 & Hg4 & H).
  apply bind_ok in H. destruct H as ([[V d1] d2] & Hrb & H).
  apply bind_ok in H. destruct H as ([th pos'] & Hth & H).
  apply bind_ok in H. destruct H as (rb1 & Hrb1 & H).
  apply bind_ok in H. destruct H as (rb2 & Hrb2 & H).
  apply bind_ok in H. destruct H as ([e1 e2] & Hdb & H).
  apply bind_ok in H. destruct H as (db1 & Hdb1 & H).
  apply bind_ok in H. destruct H as (db2 & Hdb2 & H).
  injection H as <-.
  pose proof (rb_univ_same_shape _ _ _ _ _ _ _ _ _ _ Hrb) as Hsame.
  destruct (union_mask_inv _ _ _ _ _ _ _ Hsame Hth) as (m & n & Hd1 & Hk & -> & Hsh).
  exists y_pred, L, h_in, w_in, c_in, n_out, g1, g2, g3, g4, V, d1, d2, m, n, th,
         rb1, rb2, e1, e2, db1, db2.
  repeat (split; [first [assumption | congruence | reflexivity]|]).
  reflexivity.
Qed.

(** ** What [calc_v_fc] computes, and on which shapes *)

Lemma reshape_infer_refuses t sh :
  count_infer sh = 1 -> numel (shape t) mod known_prod sh <> 0 ->
  tf_reshape t sh = Raise InvalidArgument.
Proof.
  intros Hc Hm. unfold tf_reshape. rewrite Hc.
  apply Nat.eqb_neq in Hm. rewrite Hm. cbn [negb].
  now rewrite orb_true_r.
Qed.

(** X6.  On sensitivities of shape [bs; d; n_prev] and a weight matrix of
    shape [n_prev; n_next], [calc_v_fc] multiplies each of the [bs * d]
    rows by the matrix: entry [b, j, n] of the result is the sum over [p]
    of [V_prev[b, j, p] * W[p, n]]. *)
Theorem calc_v_fc_entries V W bs d n_prev n_next :
  shape V = [bs; d; n_prev] -> shape W = [n_prev; n_next] ->
  0 < d -> 0 < n_prev -> 0 < n_next ->
  exists V',
    calc_v_fc V W = Ok V' /\ shape V' = [bs; d; n_next] /\
    forall b j n, b < bs -> j < d -> n < n_next ->
      tget V' [b; j; n]
      = qsum (map (fun p => (tget V [b; j; p] * tget W [p; n])%Q)
                  (seq 0 n_prev)).
Proof.
  intros HV HW Hd Hp Hn. unfold calc_v_fc, dim_at, py_index.
  rewrite HV, HW. cbn [nth_error bind unpack2].
  rewrite (reshape_infer V [Infer; D n_prev] (bs * d))
    by first [reflexivity | simpl; lia | rewrite HV; simpl; lia].
  cbn [bind]. unfold tf_matmul. cbn [shape map resolve]. rewrite HW.
  rewrite Nat.eqb_refl. cbn [bind].
  rewrite (reshape_infer _ [Infer; D d; D n_next] bs)
    by first [reflexivity | simpl; nia | rewrite shape_tbuild; simpl; lia].
  eexists. split; [reflexivity|]. split; [reflexivity|].
  intros b j n Hb Hj Hnn.
  match goal with
  | |- tget {| shape := _; data := data ?u |} _ = _ =>
      rewrite (tget_same_data u _ [b * d + j; n] [b; j; n])
        by first [reflexivity | rewrite shape_tbuild; simpl; lia]
  end.
  rewrite tget_tbuild by (repeat constructor; nia).
  f_equal. apply map_ext. intros p. f_equal.
  apply tget_same_data; [reflexivity|]. rewrite HV. simpl. lia.
Qed.

Lemma calc_v_fc_entries_witness :
  exists V',
    calc_v_fc toy_V_fc toy_W_fc = Ok V' /\ shape V' = [1; 2; 1] /\
    forall b j n, b < 1 -> j < 2 -> n < 1 ->
      tget V' [b; j; n]
      = qsum (map (fun p => (tget toy_V_fc [b; j; p] * tget toy_W_fc [p; n])%Q)
                  (seq 0 2)).
Proof.
  apply (calc_v_fc_entries toy_V_fc toy_W_fc 1 2 2 1);
    [reflexivity | reflexivity | lia | lia | lia].
Defined.

(** X7.  [calc_v_fc] does not compare the input dimension of [W] with the
    trailing axis of [V_prev].  On sensitivities of shape [bs; d; t] and a
    weight matrix of shape [n_prev; n_next] (all sizes but [bs] and [t]
    positive) it returns whenever [n_prev] divides [bs * t], with a batch
    axis of [bs * t / n_prev], and raises otherwise. *)
Theorem calc_v_fc_returns_iff V W bs d t n_prev n_next :
  shape V = [bs; d; t] -> shape W = [n_prev; n_next] ->
  0 < d -> 0 < n_prev -> 0 < n_next ->
  ((bs * t) mod n_prev = 0 ->
   exists V', calc_v_fc V W = Ok V' /\
              shape V' = [bs * t / n_prev; d; n_next]) /\
  ((bs * t) mod n_prev <> 0 -> calc_v_fc V W = Raise InvalidArgument).
Proof.
  intros HV HW Hd Hp Hn. unfold calc_v_fc, dim_at, py_index.
  rewrite HV, HW. cbn [nth_error bind unpack2].
  assert (Hsize : numel (shape V) = d * (bs * t)) by (rewrite HV; simpl; nia).
  split.
  - intros Hm. apply Nat.Div0.div_exact in Hm.
    set (q := bs * t / n_prev) in *.
    rewrite (reshape_infer V [Infer; D n_prev] (q * d))
      by first [reflexivity | simpl; lia | rewrite Hsize, Hm; simpl; nia].
    cbn [bind]. unfold tf_matmul. cbn [shape map resolve]. rewrite HW.
    rewrite Nat.eqb_refl. cbn [bind].
    rewrite (reshape_infer _ [Infer; D d; D n_next] q)
      by first [reflexivity | simpl; nia | rewrite shape_tbuild; simpl; lia].
    eexists. split; reflexivity.
  - intros Hm.
    destruct (Nat.eq_dec ((d * (bs * t)) mod n_prev) 0) as [E|E].
    + apply Nat.Div0.div_exact in E.
      set (A := d * (bs * t) / n_prev) in *.
      rewrite (reshape_infer V [Infer; D n_prev] A)
        by first [reflexivity | simpl; lia | rewrite Hsize, E; simpl; nia].
      cbn [bind]. unfold tf_matmul. cbn [shape map resolve]. rewrite HW.
      rewrite Nat.eqb_refl. cbn [bind].
      apply reshape_infer_refuses; [reflexivity|].
      rewrite shape_tbuild. simpl. rewrite !Nat.mul_1_r.
      intros Hdiv. apply Nat.Div0.mod_divides in Hdiv.
      destruct Hdiv as (B & HB). apply Hm.
      apply Nat.Div0.mod_divides. exists B.
      assert (A = d * B) by nia. nia.
    + rewrite reshape_infer_refuses;
        [reflexivity | reflexivity | rewrite Hsize; simpl; now rewrite Nat.mul_1_r].
Qed.

Lemma calc_v_fc_returns_iff_witness :
  (exists V', calc_v_fc (mkT [1; 2; 4] [1; 2; 3; 4; 5; 6; 7; 8]%Q) toy_W_fc
              = Ok V' /\ shape V' = [1 * 4 / 2; 2; 1]) /\
  calc_v_fc (mkT [1; 2; 3] [1; 2; 3; 4; 5; 6]%Q) toy_W_fc = Raise InvalidArgument.
Proof.
  split.
  - apply (proj1 (calc_v_fc_returns_iff
                    (mkT [1; 2; 4] [1; 2; 3; 4; 5; 6; 7; 8]%Q) toy_W_fc
                    1 2 4 2 1 eq_refl eq_refl ltac:(lia) ltac:(lia) ltac:(lia))).
    reflexivity.
  - apply (proj2 (calc_v_fc_returns_iff
                    (mkT [1; 2; 3] [1; 2; 3; 4; 5; 6]%Q) toy_W_fc
                    1 2 3 2 1 eq_refl eq_refl ltac:(lia) ltac:(lia) ltac:(lia))).
    discriminate.
Defined.

(** ** The partition of the layers, lines 101 to 111 *)

Lemma for_each_seq_invariant {St : Type} (P : nat -> St -> Prop)
    (f : nat -> St -> res St) n : forall a s s',
  P a s ->
  (forall i s s', a <= i < a + n -> P i s -> f i s = Ok s' -> P (1 + i) s') ->
  for_each (seq a n) f s = Ok s' -> P (a + n) s'.
Proof.
  induction n as [|n IH]; intros a s s' Hs Hf H; simpl in H.
  - injection H as <-. now rewrite Nat.add_0_r.
  - inv_ok. replace (a + S n) with (S a + n) by lia.
    eapply IH; [| |exact H].
    + apply (Hf a s v); [lia | exact Hs | exact E].
    + intros i s0 s1 Hi. apply Hf. lia.
Qed.

Lemma firstn_snoc (z_list : list tensor) : forall i z,
  nth_error z_list i = Some z -> firstn (1 + i) z_list = firstn i z_list ++ [z].
Proof.
  induction z_list as [|y l IH]; intros [|i] z H; simpl in *; try discriminate.
  - now injection H as ->.
  - f_equal. now apply IH.
Qed.

Lemma combine_snoc (l1 : list nat) (l2 : list tensor) a b :
  length l1 = length l2 ->
  combine (l1 ++ [a]) (l2 ++ [b]) = combine l1 l2 ++ [(a, b)].
Proof.
  revert l2. induction l1 as [|x l1 IH]; intros [|y l2] H; simpl in *;
    try discriminate; [reflexivity|].
  f_equal. apply IH. lia.
Qed.

Lemma indexed_firstn_snoc z_list i z :
  nth_error z_list i = Some z ->
  indexed (firstn (1 + i) z_list) = indexed (firstn i z_list) ++ [(i, z)].
Proof.
  intros H. unfold indexed.
  assert (Hi : i < length z_list) by (apply nth_error_Some; congruence).
  rewrite (firstn_snoc _ _ _ H), length_app, length_firstn. simpl length.
  replace (Nat.min i (length z_list) + 1) with (S (Nat.min i (length z_list)))
    by lia.
  rewrite seq_S. simpl. rewrite combine_snoc.
  - do 3 f_equal. lia.
  - now rewrite length_seq, length_firstn.
Qed.

(** X8.  When the loop of lines 101 to 111 ends, [z_conv] holds the
    pre-activations of rank 4 and [z_fc] the others, in the order of
    [z_list]; the weight filed with the pre-activation at position [i] is
    [weights[2*i]]; and the relu switches of each list are those of its
    pre-activations, in the same order.  The three lists of a kind have
    the same length. *)
Theorem split_layers_partition z_list weights L :
  split_layers z_list weights = Ok L ->
  let conv := filter is_conv (indexed z_list) in
  let fc := filter (fun p => negb (is_conv p)) (indexed z_list) in
  z_conv L = map snd conv /\ z_fc L = map snd fc /\
  map Some (W_conv L) = map (fun p => nth_error weights (2 * fst p)) conv /\
  map Some (W_fc L) = map (fun p => nth_error weights (2 * fst p)) fc /\
  map Ok (relus_conv L) = map relu_switch (z_conv L) /\
  map Ok (relus_fc L) = map relu_switch (z_fc L).
Proof.
  intros H. cbv zeta.
  set (P := fun (i : nat) (L : layers) =>
    let pre := indexed (firstn i z_list) in
    z_conv L = map snd (filter is_conv pre) /\
    z_fc L = map snd (filter (fun p => negb (is_conv p)) pre) /\
    map Some (W_conv L)
    = map (fun p => nth_error weights (2 * fst p)) (filter is_conv pre) /\
    map Some (W_fc L)
    = map (fun p => nth_error weights (2 * fst p))
          (filter (fun p => negb (is_conv p)) pre) /\
    map Ok (relus_conv L) = map relu_switch (z_conv L) /\
    map Ok (relus_fc L) = map relu_switch (z_fc L)).
  assert (G : P (0 + length z_list) L).
  { unfold split_layers in H.
    eapply (for_each_seq_invariant P); [| |exact H].
    - unfold P. simpl. repeat split; reflexivity.
    - clear H L. intros i L L' Hi (Hzc & Hzf & Hwc & Hwf & Hrc & Hrf) H.
      apply bind_ok in H. destruct H as (z & Ez & H).
      unfold py_index in Ez.
      destruct (nth_error z_list i) as [z'|] eqn:En; [|discriminate].
      injection Ez as ->.
      unfold P. cbv zeta.
      rewrite (indexed_firstn_snoc _ _ _ En), !filter_app, !map_app.
      cbn [filter].
      change (is_conv (i, z)) with (rank z =? 4).
      destruct (rank z =? 4) eqn:Er; cbn [negb map app snd fst];
        apply bind_ok in H; destruct H as (r0 & Er0 & H);
        apply bind_ok in H; destruct H as (r1 & Er1 & H);
        apply bind_ok in H; destruct H as (W & EW & H);
        injection H as <-; cbn [z_conv z_fc W_conv W_fc relus_conv relus_fc];
        unfold py_index in EW;
        destruct (nth_error weights (2 * i)) as [W'|] eqn:Ew; try discriminate;
        injection EW as ->;
        rewrite ?app_nil_r, ?map_app; cbn [map];
        assert (Hsw : relu_switch z = Ok r1)
          by (unfold relu_switch; rewrite Er0; exact Er1);
        rewrite ?Hsw;
        repeat split; congruence. }
  unfold P in G. simpl Nat.add in G. rewrite firstn_all in G. exact G.
Qed.

Lemma split_layers_partition_witness :
  let L := layers_of toy2_z_list toy2_weights in
  let conv := filter is_conv (indexed toy2_z_list) in
  let fc := filter (fun p => negb (is_conv p)) (indexed toy2_z_list) in
  z_conv L = map snd conv /\ z_fc L = map snd fc /\
  map Some (W_conv L) = map (fun p => nth_error toy2_weights (2 * fst p)) conv /\
  map Some (W_fc L) = map (fun p => nth_error toy2_weights (2 * fst p)) fc /\
  map Ok (relus_conv L) = map relu_switch (z_conv L) /\
  map Ok (relus_fc L) = map relu_switch (z_fc L).
Proof.
  apply (split_layers_partition toy2_z_list toy2_weights). reflexivity.
Defined.

(** ** The relu switches *)

(** X9.  The relu switches of a layer have the shape of its
    pre-activations with an axis of size 1 inserted after the batch axis;
    an entry is 1 where the pre-activation is positive and 0 where it is
    zero or negative. *)
Theorem relu_switch_entries z n rest :
  shape z = n :: rest ->
  exists relu,
    relu_switch z = Ok relu /\ shape relu = n :: 1 :: rest /\
    forall b idx, inb (b :: idx) (n :: rest) ->
      tget relu (b :: 0 :: idx) = b2q (Qlt_bool 0 (tget z (b :: idx))).
Proof.
  intros Hz. unfold relu_switch, cast_greater, bop. cbn [scalar shape].
  rewrite bshape_nil_r. cbn [bind].
  unfold tf_expand_dims1. rewrite shape_tbuild, Hz.
  eexists. split; [reflexivity|]. split; [reflexivity|].
  intros b idx Hin.
  match goal with
  | |- tget {| shape := _; data := data ?u |} _ = _ =>
      rewrite (tget_same_data u _ (b :: idx) (b :: 0 :: idx))
        by first [reflexivity | rewrite shape_tbuild; simpl; lia]
  end.
  rewrite tget_tbuild by exact Hin.
  rewrite (bidx_same (n :: rest)) by exact Hin.
  reflexivity.
Qed.

Lemma relu_switch_entries_witness :
  exists relu,
    relu_switch toy_z2 = Ok relu /\ shape relu = [1; 1; 2] /\
    forall b idx, inb (b :: idx) [1; 2] ->
      tget relu (b :: 0 :: idx) = b2q (Qlt_bool 0 (tget toy_z2 (b :: idx))).
Proof.
  apply (relu_switch_entries toy_z2 1 [2]). reflexivity.
Defined.

(** ** Inputs on which [mmr_cnn] raises *)

Lemma relu_switch_ok z :
  1 <= rank z ->
  exists r0 r1, cast_greater z (scalar 0) = Ok r0 /\ tf_expand_dims1 r0 = Ok r1.
Proof.
  intros Hz. unfold cast_greater, bop. cbn [scalar shape]. rewrite bshape_nil_r.
  unfold rank in Hz. destruct (shape z) as [|n l] eqn:Es; simpl in Hz; [lia|].
  eexists. eexists. split; [reflexivity|].
  unfold tf_expand_dims1. rewrite shape_tbuild. reflexivity.
Qed.

Lemma split_layers_short z_list weights :
  (forall z, In z z_list -> 1 <= rank z) ->
  length weights + 1 < 2 * length z_list ->
  split_layers z_list weights = Raise IndexError.
Proof.
  intros Hr Hw. unfold split_layers.
  match goal with
  | |- for_each _ ?f _ = _ => set (body := f)
  end.
  assert (G : forall idxs L0,
            (forall i, In i idxs -> i < length z_list) ->
            (exists i, In i idxs /\ length weights <= 2 * i) ->
            for_each idxs body L0 = Raise IndexError).
  { induction idxs as [|i idxs IH]; intros L0 Hi (i0 & Hi0 & Hbad);
      [contradiction|].
    cbn [for_each].
    assert (Hlt : i < length z_list) by (apply Hi; now left).
    destruct (nth_error z_list i) as [z|] eqn:Ez;
      [|apply nth_error_None in Ez; lia].
    assert (Hz : 1 <= rank z) by (apply Hr; eapply nth_error_In; exact Ez).
    destruct (relu_switch_ok z Hz) as (r0 & r1 & Hr0 & Hr1).
    unfold body at 1. unfold py_index at 1. rewrite Ez. cbn [bind].
    destruct (nth_error weights (2 * i)) as [W|] eqn:Ew.
    - assert (Hne : i0 <> i).
      { intros ->. apply nth_error_None in Hbad. congruence. }
      assert (Hrest : In i0 idxs) by (destruct Hi0; congruence).
      destruct (rank z =? 4); rewrite Hr0; cbn [bind]; rewrite Hr1; cbn [bind];
        unfold py_index; rewrite Ew; cbn [bind];
        (apply IH; [intros j Hj; apply Hi; now right | eauto]).
    - destruct (rank z =? 4); rewrite Hr0; cbn [bind]; rewrite Hr1; cbn [bind];
        unfold py_index; rewrite Ew; reflexivity. }
  apply G.
  - intros i Hi. apply in_seq in Hi. lia.
  - exists (length z_list - 1). split; [apply in_seq; lia | lia].
Qed.

Lemma py_last_ok {A : Type} (l : list A) : l <> [] -> exists a, py_last l = Ok a.
Proof.
  intros Hl. unfold py_last. destruct (rev l) as [|a r] eqn:E; [|eauto].
  apply (f_equal (@rev A)) in E. rewrite rev_involutive in E. now subst.
Qed.

(** X10.  [mmr_cnn] raises [IndexError], whatever the norm asked for, when
    the list of pre-activations is empty, and when it holds pre-activations
    of rank at least 1 and the weights list is too short to hold
    [weights[2*i]] for the last of them. *)
Theorem mmr_cnn_missing_weights sqrtQ rng pos z_list x y_true model n_rb n_db
    gamma_rb gamma_db bs q weights :
  z_list = [] \/
  ((forall z, In z z_list -> 1 <= rank z) /\
   length weights + 1 < 2 * length z_list) ->
  mmr_cnn sqrtQ rng pos z_list x y_true model n_rb n_db gamma_rb gamma_db bs q
          weights = Raise IndexError.
Proof.
  intros [-> | [Hr Hw]]; [reflexivity|].
  unfold mmr_cnn.
  destruct (py_last_ok z_list) as (y_pred & Hy).
  { intros ->. simpl in Hw. lia. }
  rewrite Hy. cbn [bind].
  now rewrite split_layers_short.
Qed.

Lemma mmr_cnn_missing_weights_witness :
  mmr_cnn sqrt_floor rng_half 0 toy_z_list toy_x toy_y tt 2 1
          (HFloat 1) (HFloat 1) 1 QInf [toy_w0; toy_b0; toy_w1; toy_b1]
  = Raise IndexError.
Proof.
  apply mmr_cnn_missing_weights. right. split.
  - intros z Hz. simpl in Hz.
    destruct Hz as [<-|[<-|[<-|[]]]]; unfold rank; simpl; lia.
  - simpl. lia.
Defined.

(** ** How many layers [mmr_cnn] takes *)

Lemma split_layers_filter z_list weights L :
  split_layers z_list weights = Ok L ->
  z_conv L = filter (fun z => rank z =? 4) z_list /\
  z_fc L = filter (fun z => negb (rank z =? 4)) z_list /\
  length (W_conv L) = length (z_conv L) /\
  length (W_fc L) = length (z_fc L).
Proof.
  intros H.
  set (P := fun (i : nat) (L : layers) =>
    z_conv L = filter (fun z => rank z =? 4) (firstn i z_list) /\
    z_fc L = filter (fun z => negb (rank z =? 4)) (firstn i z_list) /\
    length (W_conv L) = length (z_conv L) /\
    length (W_fc L) = length (z_fc L)).
  assert (G : P (0 + length z_list) L).
  { unfold split_layers in H.
    eapply (for_each_seq_invariant P); [| |exact H].
    - unfold P. simpl. repeat split; reflexivity.
    - clear H L. intros i L L' Hi (Hzc & Hzf & Hwc & Hwf) H.
      apply bind_ok in H. destruct H as (z & Ez & H).
      unfold py_index in Ez.
      destruct (nth_error z_list i) as [z'|] eqn:En; [|discriminate].
      injection Ez as ->.
      unfold P. rewrite (firstn_snoc _ _ _ En), !filter_app. cbn [filter].
      destruct (rank z =? 4) eqn:Er; cbn [negb]; inv_ok;
        cbn [z_conv z_fc W_conv W_fc]; rewrite ?app_nil_r, ?length_app;
        cbn [length]; repeat split; congruence. }
  unfold P in G. simpl Nat.add in G. rewrite firstn_all in G. exact G.
Qed.

Lemma py_index_length {A : Type} (l : list A) i a :
  py_index l i = Ok a -> i < length l.
Proof.
  unfold py_index. destruct (nth_error l i) eqn:E; [|discriminate].
  intros _. apply nth_error_Some. congruence.
Qed.

Lemma py_last_length {A : Type} (l : list A) a : py_last l = Ok a -> 1 <= length l.
Proof.
  unfold py_last. destruct l as [|x l]; [discriminate|]. simpl. lia.
Qed.

Lemma strides_length i si : py_index strides i = Ok si -> i < 5.
Proof. intros H. apply py_index_length in H. exact H. Qed.

(** X11.  A call of [mmr_cnn] that returns its terms was given between
    one and five pre-activations of rank 4, the strides of line 95 being
    five, and at least one pre-activation of another rank. *)
Theorem mmr_cnn_layer_counts sqrtQ rng pos z_list x y_true model n_rb n_db
    gamma_rb gamma_db bs q weights r :
  mmr_cnn sqrtQ rng pos z_list x y_true model n_rb n_db gamma_rb gamma_db bs q
          weights = Ok r ->
  r <> RNone ->
  1 <= length (filter (fun z => rank z =? 4) z_list) <= 5 /\
  1 <= length (filter (fun z => negb (rank z =? 4)) z_list).
Proof.
  intros H Hr. apply mmr_cnn_inv in H.
  destruct H as (y_pred & L & h_in & w_in & c_in & n_out & _ & HL & _ & H).
  destruct (split_layers_filter _ _ _ HL) as (Hzc & Hzf & Hwc & Hwf).
  rewrite <- Hzc, <- Hzf, <- Hwc, <- Hwf.
  destruct (single_ord q) as [o|].
  - exfalso.
    destruct (mmr_single_raises sqrtQ rng pos o L y_true y_pred n_rb n_db
                gamma_rb gamma_db bs (h_in * w_in * c_in) h_in w_in c_in n_out)
      as (e & He).
    rewrite He in H. discriminate.
  - destruct (is_univ q); [|congruence].
    unfold mmr_univ in H. inv_ok.
    match goal with H : db_univ _ _ _ _ _ _ _ _ _ = Ok _ |- _ =>
      unfold db_univ in H; apply bind_ok in H;
      destruct H as (W_last & HW & _); apply py_last_length in HW end.
    match goal with H : rb_univ _ _ _ _ _ _ _ = Ok _ |- _ =>
      unfold rb_univ in H; apply bind_ok in H; destruct H as (d0 & Hd0 & H);
      destruct d0 as [d01 d02];
      apply bind_ok in H; destruct H as (V0 & _ & H);
      apply bind_ok in H; destruct H as (st & Hloop & _) end.
    unfold first_layer_univ in Hd0. apply bind_ok in Hd0.
    destruct Hd0 as (W0 & HW0 & _). apply py_index_length in HW0.
    split; [split; [lia|] | lia].
    destruct (Nat.le_gt_cases (length (W_conv L)) 5) as [Hle|Hgt]; [exact Hle|].
    exfalso.
    destruct (for_each_calls _ _ _ _ Hloop 5) as ([[Va da] da'] & b & Hstep).
    { apply in_seq. lia. }
    apply conv_step_univ_floor in Hstep.
    destruct Hstep as (Wi & si & Vi & zi & n1 & n1' & n2 & n2' & _ & Hs & _).
    apply strides_length in Hs. lia.
Qed.

Lemma mmr_cnn_layer_counts_witness :
  1 <= length (filter (fun z => rank z =? 4) toy_z_list) <= 5 /\
  1 <= length (filter (fun z => negb (rank z =? 4)) toy_z_list).
Proof.
  destruct (mmr_cnn sqrt_floor rng_ramp 0 toy_z_list toy_x toy_y tt 2 1
              (HSeq [16; 16]%Q) (HSeq [16; 16]%Q) 1 (QStr "univ") toy_weights)
    as [r|e] eqn:E; [|vm_compute in E; discriminate].
  apply (mmr_cnn_layer_counts _ _ _ _ _ _ _ _ _ _ _ _ _ _ _ E).
  intros ->. vm_compute in E. discriminate.
Defined.

(** ** The hyper-parameters of dual-norm mode *)

Lemma subscript_two h a b :
  subscript h 0 = Ok a -> subscript h 1 = Ok b ->
  exists l, h = HSeq (a :: b :: l).
Proof.
  destruct h as [g|[|x [|y l]]]; simpl; try discriminate.
  intros Ha Hb. injection Ha as <-. injection Hb as <-. eauto.
Qed.

(** X12.  In dual-norm mode a call of [mmr_cnn] that returns was given
    sequences of at least two entries for [gamma_rb] and for [gamma_db],
    and reads the first two entries of each only: the call with the two
    sequences cut after their second entry returns the same terms. *)
Theorem mmr_cnn_univ_gammas sqrtQ rng pos z_list x y_true model n_rb n_db
    gamma_rb gamma_db bs q weights r :
  is_univ q = true ->
  mmr_cnn sqrtQ rng pos z_list x y_true model n_rb n_db gamma_rb gamma_db bs q
          weights = Ok r ->
  exists rb_l1 rb_linf rb_rest db_l1 db_linf db_rest,
    gamma_rb = HSeq (rb_l1 :: rb_linf :: rb_rest) /\
    gamma_db = HSeq (db_l1 :: db_linf :: db_rest) /\
    mmr_cnn sqrtQ rng pos z_list x y_true model n_rb n_db
            (HSeq [rb_l1; rb_linf]) (HSeq [db_l1; db_linf]) bs q weights = Ok r.
Proof.
  intros Hu H. pose proof H as H0. apply mmr_cnn_inv in H.
  destruct H as (y_pred & L & h_in & w_in & c_in & n_out & Hy & HL
                 & (Hh & Hw & Hc & Ho) & H).
  rewrite (is_univ_not_single q Hu), Hu in H.
  unfold mmr_univ in H.
  apply bind_ok in H. destruct H as (a & Ha & H).
  apply bind_ok in H. destruct H as (b & Hb & H).
  apply bind_ok in H. destruct H as (a' & Ha' & H).
  apply bind_ok in H. destruct H as (b' & Hb' & H).
  destruct (subscript_two _ _ _ Ha Hb) as (l & ->).
  destruct (subscript_two _ _ _ Ha' Hb') as (l' & ->).
  exists a, b, l, a', b', l'. split; [reflexivity|]. split; [reflexivity|].
  rewrite <- H0. unfold mmr_cnn.
  rewrite Hy, HL, Hh, Hw, Hc, Ho. cbn [bind].
  rewrite (is_univ_not_single q Hu), Hu. reflexivity.
Qed.

Lemma mmr_cnn_univ_gammas_witness :
  exists r rb_l1 rb_linf rb_rest db_l1 db_linf db_rest,
    HSeq [16; 16; 3]%Q = HSeq (rb_l1 :: rb_linf :: rb_rest) /\
    HSeq [16; 16]%Q = HSeq (db_l1 :: db_linf :: db_rest) /\
    mmr_cnn sqrt_floor rng_ramp 0 toy_z_list toy_x toy_y tt 2 1
            (HSeq [rb_l1; rb_linf]) (HSeq [db_l1; db_linf]) 1 (QStr "univ")
            toy_weights = Ok r.
Proof.
  destruct (mmr_cnn sqrt_floor rng_ramp 0 toy_z_list toy_x toy_y tt 2 1
              (HSeq [16; 16; 3]%Q) (HSeq [16; 16]%Q) 1 (QStr "univ") toy_weights)
    as [r|e] eqn:E; [|vm_compute in E; discriminate].
  exists r.
  apply (mmr_cnn_univ_gammas _ _ _ _ _ _ _ _ _ _ _ _ (QStr "univ") _ _ eq_refl E).
Defined.

(** ** When the region-boundary term vanishes *)

Lemma qsum_nonneg_zero (f : nat -> Q) l :
  (forall k, In k l -> (0 <= f k)%Q) ->
  (qsum (map f l) == 0)%Q -> forall k, In k l -> (f k == 0)%Q.
Proof.
  induction l as [|j l IH]; intros Hn Hs k Hk; [contradiction|].
  simpl in Hs.
  assert (Hj : (0 <= f j)%Q) by (apply Hn; now left).
  assert (Hl : (0 <= qsum (map f l))%Q).
  { apply qsum_nonneg. apply Forall_forall. intros y Hy.
    apply in_map_iff in Hy. destruct Hy as (i & <- & Hi). apply Hn. now right. }
  destruct Hk as [<-|Hk]; [lra|].
  apply IH; [intros i Hi; apply Hn; now right | lra | exact Hk].
Qed.

Lemma hinge_zero_iff d g : (0 < g)%Q -> (Qmax 0 (1 - d / g) == 0)%Q <-> (g <= d)%Q.
Proof.
  intros Hg. split.
  - intros H. apply Qnot_lt_le. intros Hlt.
    assert (d / g < 1)%Q by (apply Qlt_shift_div_r; [exact Hg | lra]).
    pose proof (Q.le_max_r 0 (1 - d / g)). lra.
  - intros H. apply Q.max_l.
    assert (1 <= d / g)%Q by (apply Qle_shift_div_l; [exact Hg | lra]). lra.
Qed.

(** A hinge sum masked by a 0/1 mask is zero on a row exactly when every
    selected distance of the row is at least [g]. *)
Lemma masked_term_zero_iff th d g rb m n (c : nat -> nat -> bool) :
  shape th = [m; n] -> shape d = [m; n] -> (0 < g)%Q ->
  (forall b j, b < m -> j < n -> tget th [b; j] = b2q (c b j)) ->
  masked_hinge_sum th d (scalar g) = Ok rb ->
  shape rb = [m] /\
  forall b, b < m ->
    ((tget rb [b] == 0)%Q <->
     forall k, k < n -> (tget th [b; k] == 1)%Q -> (g <= tget d [b; k])%Q).
Proof.
  intros Hs Hd Hg He Hsum.
  assert (Hshape : shape rb = [m]).
  { rewrite (masked_hinge_sum_shape th d g rb); [now rewrite Hd | congruence
                                                  | exact Hsum]. }
  split; [exact Hshape|].
  intros b Hb.
  destruct (masked_hinge_sum_is th d g rb) as (K & HK & Hv);
    [congruence | exact Hsum |].
  rewrite Hd in HK. simpl in HK. injection HK as <-.
  rewrite Hv by (rewrite Hshape; repeat constructor; exact Hb).
  unfold at_axis1. cbn [firstn skipn app].
  split.
  - intros Hz k Hkn H1.
    assert (Ht : (tget th [b; k] * Qmax 0 (1 - tget d [b; k] / g) == 0)%Q).
    { apply (qsum_nonneg_zero
               (fun k => (tget th [b; k]
                          * Qmax 0 (1 - tget d [b; k] / g))%Q) (seq 0 n)).
      - intros j Hj. apply in_seq in Hj. rewrite He by lia.
        apply Qmult_nonneg; [apply b2q_nonneg | apply Q.le_max_l].
      - exact Hz.
      - apply in_seq. lia. }
    rewrite H1 in Ht. apply (hinge_zero_iff _ g Hg). lra.
  - intros Hall. apply qsum_zero. intros k Hkn. apply in_seq in Hkn.
    pose proof (Hall k (proj2 Hkn)) as Hk1. rewrite He in * by lia.
    destruct (c b k); simpl b2q in *; [|ring].
    rewrite (proj2 (hinge_zero_iff _ g Hg)); [ring|].
    apply Hk1. reflexivity.
Qed.

(** X13.  In dual-norm mode with positive [gamma_rb[0]] and
    [gamma_rb[1]], the L1 region-boundary term of an example is zero
    exactly when every distance of its L1 vector that the union mask
    selects is at least [gamma_rb[0]], and the Linf term exactly when
    every selected distance of its Linf vector is at least [gamma_rb[1]].
    The distances tested are those that [rb_univ] computed: the jitter of
    the selector decides which entries are selected and is not part of
    the value compared with the gamma.  (The first filter has no output
    channel of zero weights and the input is not empty: no distance of
    the run divides by zero.) *)
Theorem rb_term_zero_iff sqrtQ rng pos z_list x y_true model n_rb n_db g1 g2
    rest gamma_db bs q weights L h_in w_in c_in rb_l1 rb_linf db_l1 db_linf :
  is_univ q = true -> (0 < g1)%Q -> (0 < g2)%Q ->
  split_layers z_list weights = Ok L -> first_filter_nonzero L ->
  dim_at x 1 = Ok h_in -> dim_at x 2 = Ok w_in -> dim_at x 3 = Ok c_in ->
  0 < h_in * w_in * c_in ->
  mmr_cnn sqrtQ rng pos z_list x y_true model n_rb n_db
          (HSeq (g1 :: g2 :: rest)) gamma_db bs q weights
    = Ok (RList [rb_l1; rb_linf; db_l1; db_linf]) ->
  exists V d1 d2 th m n,
    rb_univ sqrtQ L bs (h_in * w_in * c_in) h_in w_in c_in = Ok (V, d1, d2) /\
    union_mask rng pos d1 d2 n_rb = Ok (th, pos + n + n) /\
    shape d1 = [m; n] /\ shape d2 = [m; n] /\
    shape rb_l1 = [m] /\ shape rb_linf = [m] /\
    forall b, b < m ->
      ((tget rb_l1 [b] == 0)%Q <->
       forall k, k < n -> (tget th [b; k] == 1)%Q -> (g1 <= tget d1 [b; k])%Q) /\
      ((tget rb_linf [b] == 0)%Q <->
       forall k, k < n -> (tget th [b; k] == 1)%Q -> (g2 <= tget d2 [b; k])%Q).
Proof.
  intros Hu Hg1 Hg2 HL _ Hh Hw Hc _ H.
  destruct (mmr_cnn_univ_run _ _ _ _ _ _ _ _ _ _ _ _ _ _ _ Hu H)
    as (y_pred & L' & h' & w' & c' & n_out & a1 & a2 & a3 & a4 & V & d1 & d2
        & m & n & th & rb1 & rb2 & e1 & e2 & db1 & db2 & _ & HL' & Hh' & Hw'
        & Hc' & _ & Ha1 & Ha2 & _ & _ & Hrb & Hd1 & Hd2 & Hk & Hth & Hsh
        & Hrb1 & Hrb2 & _ & _ & _ & Hr).
  rewrite HL in HL'. injection HL' as <-.
  rewrite Hh in Hh'. injection Hh' as <-.
  rewrite Hw in Hw'. injection Hw' as <-.
  rewrite Hc in Hc'. injection Hc' as <-.
  cbn in Ha1, Ha2. injection Ha1 as <-. injection Ha2 as <-.
  injection Hr as -> -> _ _.
  exists V, d1, d2, th, m, n.
  repeat (split; [assumption|]).
  destruct (union_mask_spec rng pos d1 d2 m n n_rb Hd1 Hd2 Hk)
    as (th' & Hth' & _ & Hv).
  rewrite Hth in Hth'. injection Hth' as <-.
  set (c := fun b j =>
         le_threshold (jittered rng pos d1 b j)
                      (kth_threshold n_rb (jittered_row rng pos d1 n b))
         || le_threshold (jittered rng (pos + n) d2 b j)
                         (kth_threshold n_rb (jittered_row rng (pos + n) d2 n b))).
  assert (He : forall b j, b < m -> j < n -> tget th [b; j] = b2q (c b j)).
  { intros b j Hb Hj. destruct (Hv b Hb) as (Hvb & _). exact (Hvb j Hj). }
  destruct (masked_term_zero_iff th d1 g1 rb1 m n c Hsh Hd1 Hg1 He Hrb1)
    as (Hs1 & Hz1).
  destruct (masked_term_zero_iff th d2 g2 rb2 m n c Hsh Hd2 Hg2 He Hrb2)
    as (Hs2 & Hz2).
  split; [exact Hs1|]. split; [exact Hs2|].
  intros b Hb. split; [apply Hz1 | apply Hz2]; exact Hb.
Qed.

Lemma toy_first_filter_nonzero :
  first_filter_nonzero (layers_of toy_z_list toy_weights).
Proof.
  intros W0 c_out c HW Hc Hlt.
  vm_compute in HW. injection HW as <-.
  vm_compute in Hc. injection Hc as <-.
  exists [0; 0; 0]. assert (c = 0) as -> by lia.
  split; [repeat constructor | vm_compute; discriminate].
Qed.

Lemma rb_term_zero_iff_witness :
  exists rb_l1 rb_linf db_l1 db_linf V d1 d2 th m n,
    mmr_cnn sqrt_floor rng_ramp 0 toy_z_list toy_x toy_y tt 2 1
            (HSeq [16; 16]%Q) (HSeq [16; 16]%Q) 1 (QStr "univ") toy_weights
      = Ok (RList [rb_l1; rb_linf; db_l1; db_linf]) /\
    rb_univ sqrt_floor (layers_of toy_z_list toy_weights) 1 (2 * 2 * 1) 2 2 1
      = Ok (V, d1, d2) /\
    union_mask rng_ramp 0 d1 d2 2 = Ok (th, 0 + n + n) /\
    shape d1 = [m; n] /\ shape d2 = [m; n] /\
    shape rb_l1 = [m] /\ shape rb_linf = [m] /\
    forall b, b < m ->
      ((tget rb_l1 [b] == 0)%Q <->
       forall k, k < n -> (tget th [b; k] == 1)%Q -> (16 <= tget d1 [b; k])%Q) /\
      ((tget rb_linf [b] == 0)%Q <->
       forall k, k < n -> (tget th [b; k] == 1)%Q -> (16 <= tget d2 [b; k])%Q).
Proof.
  destruct (mmr_cnn sqrt_floor rng_ramp 0 toy_z_list toy_x toy_y tt 2 1
              (HSeq [16; 16]%Q) (HSeq [16; 16]%Q) 1 (QStr "univ") toy_weights)
    as [[| [|rb_l1 [|rb_linf [|db_l1 [|db_linf [|]]]]] |]|e] eqn:E;
    try (vm_compute in E; discriminate).
  exists rb_l1, rb_linf, db_l1, db_linf.
  destruct (rb_term_zero_iff sqrt_floor rng_ramp 0 toy_z_list toy_x toy_y tt 2 1
              16%Q 16%Q [] (HSeq [16; 16]%Q) 1 (QStr "univ") toy_weights
              (layers_of toy_z_list toy_weights) 2 2 1
              rb_l1 rb_linf db_l1 db_linf)
    as (V & d1 & d2 & th & m & n & H);
    [reflexivity | reflexivity | reflexivity | reflexivity
     | exact toy_first_filter_nonzero | reflexivity | reflexivity | reflexivity
     | lia | exact E |].
  exists V, d1, d2, th, m, n. split; [reflexivity | exact H].
Defined.

(** ** The sensitivities of the margins, lines 244 to 251 *)

(** The floor of line 251 on a non-negative entry. *)
Lemma floor_abs a :
  (0 <= a)%Q ->
  let r := (a + eps_num_stabil * b2q (Qlt_bool a eps_num_stabil))%Q in
  ((a < eps_num_stabil)%Q -> (r == a + eps_num_stabil)%Q) /\
  ((eps_num_stabil <= a)%Q -> (r == a)%Q) /\
  (eps_num_stabil <= r)%Q.
Proof.
  intros Ha r. unfold r.
  destruct (Qlt_bool a eps_num_stabil) eqn:E; simpl b2q.
  - apply Qlt_bool_iff in E.
    split; [intros _; ring|]. split; [intros H; exfalso; lra | lra].
  - assert (Hge : (eps_num_stabil <= a)%Q).
    { apply Qnot_lt_le. intros H. apply Qlt_bool_iff in H. congruence. }
    split; [intros H; exfalso; lra|]. split; [intros _; ring | lra].
Qed.

Lemma Qlt_bool_comp a a' e : (a == a')%Q -> Qlt_bool a e = Qlt_bool a' e.
Proof.
  intros H. destruct (Qlt_bool a e) eqn:E, (Qlt_bool a' e) eqn:E';
    try reflexivity.
  - apply Qlt_bool_iff in E. rewrite H in E. apply Qlt_bool_iff in E. congruence.
  - apply Qlt_bool_iff in E'. rewrite <- H in E'. apply Qlt_bool_iff in E'.
    congruence.
Qed.

(** Entry [b, j, k] of [diff_v]: the floored absolute difference between
    the sensitivity of logit [k] and the sensitivities of row [b, j]
    weighted by the labels of the example. *)
Lemma sensitivity_diff_values V y_true bs n_in K :
  shape V = [bs; n_in; K] -> shape y_true = [bs; K] -> 0 < n_in -> 0 < K ->
  exists diff_v,
    sensitivity_diff V y_true K n_in = Ok diff_v /\
    shape diff_v = [bs; n_in; K] /\
    forall b j k, b < bs -> j < n_in -> k < K ->
      exists s,
        (s == qsum (map (fun l => (tget V [b; j; l] * tget y_true [b; l])%Q)
                        (seq 0 K)))%Q /\
        tget diff_v [b; j; k]
        = (Qabs (tget V [b; j; k] - s)
           + eps_num_stabil
             * b2q (Qlt_bool (Qabs (tget V [b; j; k] - s)) eps_num_stabil))%Q.
Proof.
  intros HV Ht Hn HK. unfold sensitivity_diff, sensitivity_diff_of.
  unfold tf_linalg_diag. rewrite Ht. cbn [bind].
  unfold tf_matmul. rewrite HV, shape_tbuild, !Nat.eqb_refl. cbn [andb bind].
  unfold tf_reduce_sum, reduce_axis. rewrite shape_tbuild.
  cbn [nth_error bind firstn skipn app].
  unfold tf_tile, rank. rewrite shape_tbuild. cbn [length Nat.eqb bind combine map].
  rewrite (reshape_infer _ [Infer; D K; D n_in] bs)
    by first [reflexivity | simpl; nia | rewrite shape_tbuild; simpl; nia].
  cbn [bind map resolve].
  unfold tf_transpose_021. cbn [shape bind].
  unfold tf_sub, bop. rewrite HV, shape_tbuild, bshape_same. cbn [bind].
  unfold cast_less, tf_mul, tf_add, bop. unfold tf_abs. cbn [tmap shape scalar].
  rewrite shape_tbuild, bshape_nil_r. cbn [bind].
  rewrite shape_tbuild, bshape_nil_l. cbn [bind].
  rewrite shape_tbuild, bshape_same. cbn [bind].
  eexists. split; [reflexivity|]. split; [apply shape_tbuild|].
  intros b j k Hb Hj Hk.
  assert (Hin : inb [b; j; k] [bs; n_in; K]) by (repeat constructor; lia).
  rewrite tget_tbuild by exact Hin.
  rewrite !(bidx_same [bs; n_in; K]) by exact Hin.
  rewrite (tget_tbuild [bs; n_in; K] _ [b; j; k]) by exact Hin.
  rewrite tget_scalar, (bidx_same [bs; n_in; K]) by exact Hin.
  rewrite (tget_tbuild [bs; n_in; K] _ [b; j; k]) by exact Hin.
  rewrite tget_scalar, (bidx_same [bs; n_in; K]) by exact Hin.
  match goal with
  | |- context [tget (tmap Qabs ?d) [b; j; k]] =>
      replace (tget (tmap Qabs d) [b; j; k]) with (Qabs (tget d [b; j; k]))
        by (symmetry; apply tget_tmap; reflexivity);
      set (dd := d)
  end.
  assert (Hd : exists s,
            (s == qsum (map (fun l => (tget V [b; j; l] * tget y_true [b; l])%Q)
                            (seq 0 K)))%Q /\
            tget dd [b; j; k] = (tget V [b; j; k] - s)%Q).
  { unfold dd. rewrite tget_tbuild by exact Hin.
    rewrite !(bidx_same [bs; n_in; K]) by exact Hin.
    eexists. split; [|reflexivity].
    rewrite tget_tbuild by exact Hin.
    match goal with |- (tget {| shape := _; data := data ?u |} _ == _)%Q =>
      rewrite (tget_same_data u _ [b; k * n_in + j] [b; k; j]) end.
    3:{ cbn [shape ravel numel fold_right]. rewrite shape_tbuild.
        cbn [ravel numel fold_right]. lia. }
    2:{ reflexivity. }
    rewrite tget_tbuild by (repeat constructor; nia).
    cbn [combine map].
    rewrite (Nat.mod_small b bs) by lia.
    replace ((k * n_in + j) mod n_in) with j
      by (rewrite Nat.add_comm, Nat.Div0.mod_add, Nat.mod_small; lia).
    rewrite tget_tbuild by (repeat constructor; lia).
    unfold fibre. cbn [firstn skipn app].
    apply qsum_ext_eq. intros l Hl. apply in_seq in Hl.
    rewrite tget_tbuild by (repeat constructor; lia).
    rewrite (qsum_single _ K l) by first [lia |
      intros m Hm Hne; rewrite tget_tbuild by (repeat constructor; lia);
      apply Nat.eqb_neq in Hne; rewrite Hne; ring].
    rewrite tget_tbuild by (repeat constructor; lia).
    rewrite Nat.eqb_refl. reflexivity. }
  destruct Hd as (s & Hs & Hd). exists s. split; [exact Hs|].
  rewrite Hd. reflexivity.
Qed.

(** The entries of the true class are the floor itself. *)
Lemma sensitivity_diff_true_class V y_true bs n_in K b c diff_v :
  shape V = [bs; n_in; K] -> shape y_true = [bs; K] -> 0 < n_in -> 0 < K ->
  b < bs -> one_hot_row y_true K b c ->
  sensitivity_diff V y_true K n_in = Ok diff_v ->
  forall j, j < n_in -> (tget diff_v [b; j; c] == eps_num_stabil)%Q.
Proof.
  intros HV Ht Hn HK Hb (Hc & H1 & H0) Hdiff j Hj.
  destruct (sensitivity_diff_values V y_true bs n_in K HV Ht Hn HK)
    as (d' & Hd' & _ & Hv).
  rewrite Hdiff in Hd'. injection Hd' as <-.
  destruct (Hv b j c Hb Hj Hc) as (s & Hs & E).
  assert (Hsc : (s == tget V [b; j; c])%Q).
  { rewrite Hs, (qsum_single _ K c Hc).
    - rewrite H1. ring.
    - intros l Hl Hne. rewrite (H0 l Hl Hne). ring. }
  set (a := Qabs (tget V [b; j; c] - s)) in *.
  assert (Ha : (a == 0)%Q).
  { unfold a. rewrite Hsc.
    setoid_replace (tget V [b; j; c] - tget V [b; j; c])%Q with 0%Q by ring.
    reflexivity. }
  destruct (floor_abs a (Qabs_nonneg _)) as (F1 & _ & _).
  rewrite E, F1; [rewrite Ha; ring | rewrite Ha; reflexivity].
Qed.

(** X14.  For an example [b] whose label is the one-hot encoding of class
    [c], entry [b, j, k] of [diff_v] is the absolute difference between
    the sensitivities of the logits [k] and [c] to input [j], floored: the
    difference plus [eps_num_stabil] when it is below [eps_num_stabil],
    the difference itself otherwise.  No entry is below [eps_num_stabil],
    and the entries of the true class are [eps_num_stabil]. *)
Theorem sensitivity_diff_entries V y_true bs n_in K b c :
  shape V = [bs; n_in; K] -> shape y_true = [bs; K] -> 0 < n_in -> 0 < K ->
  b < bs -> one_hot_row y_true K b c ->
  exists diff_v,
    sensitivity_diff V y_true K n_in = Ok diff_v /\
    shape diff_v = [bs; n_in; K] /\
    forall j, j < n_in ->
      (forall k, k < K ->
         let v := Qabs (tget V [b; j; k] - tget V [b; j; c]) in
         ((v < eps_num_stabil)%Q ->
          (tget diff_v [b; j; k] == v + eps_num_stabil)%Q) /\
         ((eps_num_stabil <= v)%Q -> (tget diff_v [b; j; k] == v)%Q) /\
         (eps_num_stabil <= tget diff_v [b; j; k])%Q) /\
      (tget diff_v [b; j; c] == eps_num_stabil)%Q.
Proof.
  intros HV Ht Hn HK Hb (Hc & H1 & H0).
  destruct (sensitivity_diff_values V y_true bs n_in K HV Ht Hn HK)
    as (diff_v & Hdiff & Hsh & Hv).
  exists diff_v. split; [exact Hdiff|]. split; [exact Hsh|].
  intros j Hj.
  assert (Hall : forall k, k < K ->
            let v := Qabs (tget V [b; j; k] - tget V [b; j; c]) in
            ((v < eps_num_stabil)%Q ->
             (tget diff_v [b; j; k] == v + eps_num_stabil)%Q) /\
            ((eps_num_stabil <= v)%Q -> (tget diff_v [b; j; k] == v)%Q) /\
            (eps_num_stabil <= tget diff_v [b; j; k])%Q).
  { intros k Hk v.
    destruct (Hv b j k Hb Hj Hk) as (s & Hs & E).
    assert (Hsc : (s == tget V [b; j; c])%Q).
    { rewrite Hs, (qsum_single _ K c Hc).
      - rewrite H1. ring.
      - intros l Hl Hne. rewrite (H0 l Hl Hne). ring. }
    set (a := Qabs (tget V [b; j; k] - s)) in *.
    assert (Hav : (a == v)%Q) by (unfold a, v; now rewrite Hsc).
    destruct (floor_abs a (Qabs_nonneg _)) as (F1 & F2 & F3).
    rewrite E. rewrite <- Hav. auto. }
  split; [exact Hall|].
  destruct (Hall c Hc) as (F1 & _ & _). rewrite F1.
  - setoid_replace (tget V [b; j; c] - tget V [b; j; c])%Q with 0%Q by ring.
    simpl Qabs. ring.
  - setoid_replace (tget V [b; j; c] - tget V [b; j; c])%Q with 0%Q by ring.
    reflexivity.
Qed.

Lemma toy_y_one_hot : one_hot_row toy_y 2 0 0.
Proof.
  split; [lia|]. split; [reflexivity|].
  intros k Hk Hne. destruct k as [|[|k]]; [contradiction | reflexivity | lia].
Qed.

Lemma sensitivity_diff_entries_witness :
  exists diff_v,
    sensitivity_diff toy_V_logits toy_y 2 4 = Ok diff_v /\
    shape diff_v = [1; 4; 2] /\
    forall j, j < 4 ->
      (forall k, k < 2 ->
         let v := Qabs (tget toy_V_logits [0; j; k]%nat
                        - tget toy_V_logits [0; j; 0]%nat) in
         ((v < eps_num_stabil)%Q ->
          (tget diff_v [0; j; k]%nat == v + eps_num_stabil)%Q) /\
         ((eps_num_stabil <= v)%Q -> (tget diff_v [0; j; k]%nat == v)%Q) /\
         (eps_num_stabil <= tget diff_v [0; j; k]%nat)%Q) /\
      (tget diff_v [0; j; 0]%nat == eps_num_stabil)%Q.
Proof.
  apply (sensitivity_diff_entries toy_V_logits toy_y 1 4 2 0 0);
    [reflexivity | reflexivity | lia | lia | lia | exact toy_y_one_hot].
Defined.

(** ** The distance to the decision boundary of another class *)

Lemma vnorm_pos sqrtQ o l :
  (o = Ord2 -> forall v, (0 < v)%Q -> (0 < sqrtQ v)%Q) ->
  l <> [] -> (forall x, In x l -> (eps_num_stabil <= x)%Q) ->
  (0 < vnorm sqrtQ o l)%Q.
Proof.
  intros Hsq Hl Hx. destruct l as [|x l]; [congruence|]. clear Hl.
  assert (Hx0 : (eps_num_stabil <= x)%Q) by (apply Hx; now left).
  assert (He : (0 < eps_num_stabil)%Q) by reflexivity.
  assert (Habs : (eps_num_stabil <= Qabs x)%Q).
  { rewrite Qabs_pos by lra. exact Hx0. }
  destruct o; simpl.
  - assert (0 <= qsum (map Qabs l))%Q.
    { apply qsum_nonneg, Forall_forall. intros y Hy.
      apply in_map_iff in Hy. destruct Hy as (z & <- & _). apply Qabs_nonneg. }
    lra.
  - apply Hsq; [reflexivity|].
    assert (0 <= qsum (map (fun y => y * y) l))%Q.
    { apply qsum_nonneg, Forall_forall. intros y Hy.
      apply in_map_iff in Hy. destruct Hy as (z & <- & _).
      destruct (Qlt_le_dec z 0); nra. }
    assert (0 < x * x)%Q by nra.
    lra.
  - destruct (fold_left_Qmax_spec (map Qabs l) (Qabs x)) as [Hub _].
    specialize (Hub (Qabs x) (or_introl eq_refl)). lra.
Qed.

Lemma norm_axis1_entries sqrtQ t o bs d K :
  shape t = [bs; d; K] ->
  exists nrm,
    tf_norm sqrtQ t 1 o false = Ok nrm /\ shape nrm = [bs; K] /\
    forall b k, b < bs -> k < K ->
      tget nrm [b; k]
      = vnorm sqrtQ o (map (fun j => tget t [b; j; k]) (seq 0 d)).
Proof.
  intros Ht. unfold tf_norm, reduce_axis. rewrite Ht. cbn [nth_error].
  eexists. split; [reflexivity|]. split; [reflexivity|].
  intros b k Hb Hk. cbn [firstn skipn app].
  now rewrite tget_tbuild by (repeat constructor; lia).
Qed.

(** The decision-boundary distances of dual-norm mode, lines 243 to 266,
    on sensitivities, last weights, labels and logits of compatible
    shapes, for an example [b] whose label is the one-hot encoding of
    class [c]: what is computed, and its entries in row [b]. *)
Lemma db_univ_parts sqrtQ L V W y_true y_pred bs n_in n_prev K b c g1 g2 :
  shape V = [bs; n_in; n_prev] ->
  py_last (W_fc L) = Ok W -> shape W = [n_prev; K] ->
  shape y_true = [bs; K] -> shape y_pred = [bs; K] ->
  0 < n_in -> 0 < n_prev -> 0 < K -> b < bs ->
  one_hot_row y_true K b c ->
  exists V' diff_v num den1 den2 dist1 dist2,
    calc_v_fc V W = Ok V' /\
    sensitivity_diff V' y_true K n_in = Ok diff_v /\
    tf_norm sqrtQ diff_v 1 OrdInf false = Ok den1 /\
    tf_norm sqrtQ diff_v 1 Ord1 false = Ok den2 /\
    margin_numerator y_pred y_true K = Ok num /\
    db_univ sqrtQ L V y_true y_pred g1 g2 K n_in = Ok (dist1, dist2) /\
    shape dist1 = [bs; K] /\ shape dist2 = [bs; K] /\
    (forall k, k < K ->
       (tget num [b; k]
        == (tget y_pred [b; c] - tget y_pred [b; k]) + 100 * tget y_true [b; k])%Q) /\
    (forall j k, j < n_in -> k < K ->
       (eps_num_stabil <= tget diff_v [b; j; k])%Q) /\
    (forall j, j < n_in -> (tget diff_v [b; j; c] == eps_num_stabil)%Q) /\
    (forall k, k < K ->
       tget den1 [b; k]
       = vnorm sqrtQ OrdInf (map (fun j => tget diff_v [b; j; k]) (seq 0 n_in)) /\
       tget den2 [b; k]
       = vnorm sqrtQ Ord1 (map (fun j => tget diff_v [b; j; k]) (seq 0 n_in))) /\
    (forall k, k < K ->
       tget dist1 [b; k]
       = (tget num [b; k] / tget den1 [b; k] + tget y_true [b; k] * 2 * g1)%Q /\
       tget dist2 [b; k]
       = (tget num [b; k] / tget den2 [b; k] + tget y_true [b; k] * 2 * g2)%Q).
Proof.
  intros HV HW HWs Ht Hp Hn Hnp HK Hb Hoh.
  pose proof Hoh as (Hc & H1 & H0).
  destruct (margin_numerator_entries y_pred y_true bs K b c Hp Ht HK Hb Hc H1 H0)
    as (num & Hnum & Hnsh & Hnv).
  destruct (calc_v_fc_compatible V W bs n_in n_prev K HV HWs Hn Hnp HK)
    as (V' & HV' & HVs).
  destruct (sensitivity_diff_values V' y_true bs n_in K HVs Ht Hn HK)
    as (diff_v & Hdiff & Hds & Hdv).
  destruct (norm_axis1_entries sqrtQ diff_v OrdInf bs n_in K Hds)
    as (den1 & Hden1 & Hdsh1 & Hdenv1).
  destruct (norm_axis1_entries sqrtQ diff_v Ord1 bs n_in K Hds)
    as (den2 & Hden2 & Hdsh2 & Hdenv2).
  destruct (db_distance_entries num den1 y_true g1 bs K Hnsh Hdsh1 Ht)
    as (dist1 & Hdist1 & Hsh1 & Hdistv1).
  destruct (db_distance_entries num den2 y_true g2 bs K Hnsh Hdsh2 Ht)
    as (dist2 & Hdist2 & Hsh2 & Hdistv2).
  exists V', diff_v, num, den1, den2, dist1, dist2.
  split; [exact HV'|]. split; [exact Hdiff|]. split; [exact Hden1|].
  split; [exact Hden2|]. split; [exact Hnum|].
  split.
  { unfold db_univ. rewrite HW. cbn [bind]. rewrite HV'. cbn [bind].
    rewrite Hdiff. cbn [bind]. rewrite Hden1. cbn [bind].
    rewrite Hden2. cbn [bind]. rewrite Hnum. cbn [bind].
    rewrite Hdist1. cbn [bind]. rewrite Hdist2. reflexivity. }
  split; [exact Hsh1|]. split; [exact Hsh2|]. split; [exact Hnv|].
  split.
  { intros j k Hj Hk. destruct (Hdv b j k Hb Hj Hk) as (s & _ & E).
    rewrite E. apply (floor_abs _ (Qabs_nonneg _)). }
  split.
  { intros j Hj.
    exact (sensitivity_diff_true_class V' y_true bs n_in K b c diff_v
             HVs Ht Hn HK Hb Hoh Hdiff j Hj). }
  split.
  { intros k Hk. split; [apply Hdenv1 | apply Hdenv2]; assumption. }
  intros k Hk. split; [apply Hdistv1 | apply Hdistv2]; assumption.
Qed.

Lemma vnorm_floor_pos sqrtQ o l :
  o <> Ord2 -> l <> [] -> (forall x, In x l -> (eps_num_stabil <= x)%Q) ->
  (0 < vnorm sqrtQ o l)%Q.
Proof.
  intros Ho. apply vnorm_pos. intros E. contradiction.
Qed.

(** X15.  For an example [b] whose label is the one-hot encoding of class
    [c] and a class [k] other than [c], each of the two decision-boundary
    distances of dual-norm mode is the margin
    [y_pred[b, c] - y_pred[b, k]] over the norm, along the input axis, of
    [diff_v] ([ord=np.inf] for the first, [ord=1] for the second).  Both
    norms are positive, so each distance is negative exactly when the
    logit of [k] exceeds the logit of the true class. *)
Theorem db_distance_other_class sqrtQ L V W y_true y_pred bs n_in n_prev K b c
    g1 g2 :
  shape V = [bs; n_in; n_prev] ->
  py_last (W_fc L) = Ok W -> shape W = [n_prev; K] ->
  shape y_true = [bs; K] -> shape y_pred = [bs; K] ->
  0 < n_in -> 0 < n_prev -> 0 < K -> b < bs ->
  one_hot_row y_true K b c ->
  exists V' diff_v den_l1 den_linf dist_db_l1 dist_db_linf,
    calc_v_fc V W = Ok V' /\
    sensitivity_diff V' y_true K n_in = Ok diff_v /\
    tf_norm sqrtQ diff_v 1 OrdInf false = Ok den_l1 /\
    tf_norm sqrtQ diff_v 1 Ord1 false = Ok den_linf /\
    db_univ sqrtQ L V y_true y_pred g1 g2 K n_in
      = Ok (dist_db_l1, dist_db_linf) /\
    forall k, k < K -> k <> c ->
      let margin := (tget y_pred [b; c] - tget y_pred [b; k])%Q in
      (0 < tget den_l1 [b; k])%Q /\ (0 < tget den_linf [b; k])%Q /\
      (tget dist_db_l1 [b; k] == margin / tget den_l1 [b; k])%Q /\
      (tget dist_db_linf [b; k] == margin / tget den_linf [b; k])%Q /\
      ((tget dist_db_l1 [b; k] < 0)%Q
       <-> (tget y_pred [b; c] < tget y_pred [b; k])%Q) /\
      ((tget dist_db_linf [b; k] < 0)%Q
       <-> (tget y_pred [b; c] < tget y_pred [b; k])%Q).
Proof.
  intros HV HW HWs Ht Hp Hn Hnp HK Hb Hoh.
  destruct (db_univ_parts sqrtQ L V W y_true y_pred bs n_in n_prev K b c g1 g2
              HV HW HWs Ht Hp Hn Hnp HK Hb Hoh)
    as (V' & diff_v & num & den1 & den2 & dist1 & dist2 & HV' & Hdiff & Hden1
        & Hden2 & _ & Hdb & _ & _ & Hnv & Hge & _ & Hdenv & Hdistv).
  destruct Hoh as (Hc & H1 & H0).
  exists V', diff_v, den1, den2, dist1, dist2.
  repeat (split; [assumption|]).
  intros k Hk Hne margin.
  assert (Hcol : forall y, In y (map (fun j => tget diff_v [b; j; k]) (seq 0 n_in))
                           -> (eps_num_stabil <= y)%Q).
  { intros y Hy. apply in_map_iff in Hy. destruct Hy as (j & <- & Hj).
    apply in_seq in Hj. apply Hge; lia. }
  assert (Hne0 : map (fun j => tget diff_v [b; j; k]) (seq 0 n_in) <> []).
  { destruct n_in; [lia | discriminate]. }
  destruct (Hdenv k Hk) as (Ed1 & Ed2). destruct (Hdistv k Hk) as (Ev1 & Ev2).
  assert (Hp1 : (0 < tget den1 [b; k])%Q).
  { rewrite Ed1. apply vnorm_floor_pos; [discriminate | exact Hne0 | exact Hcol]. }
  assert (Hp2 : (0 < tget den2 [b; k])%Q).
  { rewrite Ed2. apply vnorm_floor_pos; [discriminate | exact Hne0 | exact Hcol]. }
  assert (E1 : (tget dist1 [b; k] == margin / tget den1 [b; k])%Q).
  { rewrite Ev1, (Hnv k Hk), (H0 k Hk Hne). unfold margin. field. lra. }
  assert (E2 : (tget dist2 [b; k] == margin / tget den2 [b; k])%Q).
  { rewrite Ev2, (Hnv k Hk), (H0 k Hk Hne). unfold margin. field. lra. }
  assert (Hsign : forall den, (0 < den)%Q ->
            ((margin / den < 0)%Q
             <-> (tget y_pred [b; c] < tget y_pred [b; k])%Q)).
  { intros den Hden. split.
    - intros Hlt.
      assert (Hm : (margin < 0)%Q).
      { apply Qnot_le_lt. intros Hge0.
        assert (0 <= margin / den)%Q by (apply Qdiv_nonneg; lra). lra. }
      unfold margin in Hm. lra.
    - intros Hlt. apply Qlt_shift_div_r; [exact Hden|]. unfold margin. lra. }
  split; [exact Hp1|]. split; [exact Hp2|]. split; [exact E1|].
  split; [exact E2|].
  split; [rewrite E1 | rewrite E2]; apply Hsign; assumption.
Qed.

Lemma db_distance_other_class_witness :
  exists V' diff_v den_l1 den_linf dist_db_l1 dist_db_linf,
    calc_v_fc toy_V_last toy_w2 = Ok V' /\
    sensitivity_diff V' toy_y 2 4 = Ok diff_v /\
    tf_norm sqrt_floor diff_v 1 OrdInf false = Ok den_l1 /\
    tf_norm sqrt_floor diff_v 1 Ord1 false = Ok den_linf /\
    db_univ sqrt_floor (layers_of toy_z_list toy_weights) toy_V_last
            toy_y toy_z2 16 16 2 4 = Ok (dist_db_l1, dist_db_linf) /\
    forall k, k < 2 -> k <> 0 ->
      let margin := (tget toy_z2 [0; 0]%nat - tget toy_z2 [0; k]%nat)%Q in
      (0 < tget den_l1 [0; k]%nat)%Q /\ (0 < tget den_linf [0; k]%nat)%Q /\
      (tget dist_db_l1 [0; k]%nat == margin / tget den_l1 [0; k]%nat)%Q /\
      (tget dist_db_linf [0; k]%nat == margin / tget den_linf [0; k]%nat)%Q /\
      ((tget dist_db_l1 [0; k]%nat < 0)%Q
       <-> (tget toy_z2 [0; 0]%nat < tget toy_z2 [0; k]%nat)%Q) /\
      ((tget dist_db_linf [0; k]%nat < 0)%Q
       <-> (tget toy_z2 [0; 0]%nat < tget toy_z2 [0; k]%nat)%Q).
Proof.
  apply (db_distance_other_class sqrt_floor (layers_of toy_z_list toy_weights)
           toy_V_last toy_w2 toy_y toy_z2 1 4 1 2 0 0 16%Q 16%Q).
  - reflexivity.
  - vm_compute. reflexivity.
  - reflexivity.
  - reflexivity.
  - reflexivity.
  - lia.
  - lia.
  - lia.
  - lia.
  - exact toy_y_one_hot.
Defined.
Lemma bdim_1_r n : bdim n 1 = Some n.
Proof.
  unfold bdim. destruct (n =? 1) eqn:E; [reflexivity|]. reflexivity.
Qed.


(** ** The distances of the first convolutional layer *)

Lemma numel_snoc sh n : numel (sh ++ [n]) = numel sh * n.
Proof.
  induction sh as [|a sh IH]; simpl; [lia|]. rewrite IH. lia.
Qed.

Lemma ravel_snoc sh n c : forall idx,
  inb idx sh -> ravel (sh ++ [n]) (idx ++ [c]) = ravel sh idx * n + c.
Proof.
  induction sh as [|a sh IH]; intros idx H; inversion H; subst; simpl.
  - lia.
  - rewrite IH by assumption. rewrite numel_snoc. lia.
Qed.

Lemma ravel_unravel sh : forall r, r < numel sh -> ravel sh (unravel sh r) = r.
Proof.
  induction sh as [|a sh IH]; intros r H; simpl in *; [lia|].
  assert (Hp : numel sh <> 0) by (intros E; rewrite E in H; lia).
  rewrite IH by (apply Nat.mod_upper_bound, Hp).
  rewrite (Nat.div_mod_eq r (numel sh)) at 3. lia.
Qed.

Lemma reshape_exact t sh :
  count_infer sh = 0 -> numel (shape t) = known_prod sh ->
  tf_reshape t sh = Ok (mkT (map (resolve 0) sh) (data t)).
Proof.
  intros Hc Hs. unfold tf_reshape. rewrite Hc, Hs, Nat.eqb_refl. reflexivity.
Qed.

(** A norm ([ord=1] or [ord=np.inf]) of a list in which some entry is
    not zero is positive. *)
Lemma vnorm_nonzero_pos sqrtQ o l :
  o <> Ord2 -> (exists x, In x l /\ ~ (x == 0)%Q) -> (0 < vnorm sqrtQ o l)%Q.
Proof.
  intros Ho (x & Hx & Hx0).
  assert (Hax : (0 < Qabs x)%Q).
  { destruct (Qlt_le_dec 0 (Qabs x)) as [H|H]; [exact H|].
    exfalso. apply Hx0. apply Qabs_Qle_condition in H.
    destruct H as [H1 H2]. lra. }
  destruct o; [| contradiction |]; simpl.
  - induction l as [|y l IH]; [contradiction|]. simpl.
    assert (Hy : (0 <= Qabs y)%Q) by apply Qabs_nonneg.
    assert (Hl : (0 <= qsum (map Qabs l))%Q).
    { apply qsum_nonneg, Forall_forall. intros z Hz.
      apply in_map_iff in Hz. destruct Hz as (t & <- & _). apply Qabs_nonneg. }
    destruct Hx as [->|Hx]; [lra|]. specialize (IH Hx). lra.
  - unfold qmax_list. destruct l as [|y l]; [contradiction|]. simpl.
    destruct (fold_left_Qmax_spec (map Qabs l) (Qabs y)) as [Hub _].
    assert (Hin : In (Qabs x) (Qabs y :: map Qabs l)).
    { destruct Hx as [->|Hx]; [now left | right; now apply in_map]. }
    specialize (Hub (Qabs x) Hin). lra.
Qed.

(** Lines 191 to 193 (and 195 to 197): the norms of the columns of the
    reshaped filter, the quotient and its reshaping. *)
Lemma first_layer_block sqrtQ o W0 z0 bs kh kw c_in c_out h w :
  shape W0 = [kh; kw; c_in; c_out] -> shape z0 = [bs; h; w; c_out] ->
  0 < c_out ->
  exists denom dist d,
    tf_norm sqrtQ (mkT [kh * kw * c_in; c_out] (data W0)) 0 o false = Ok denom /\
    tf_div (tf_abs z0) denom = Ok dist /\
    tf_reshape dist [D bs; D (h * w * c_out)] = Ok d /\
    shape d = [bs; h * w * c_out] /\
    forall b i j c, b < bs -> i < h -> j < w -> c < c_out ->
      tget d [b; (i * w + j) * c_out + c]
      = (Qabs (tget z0 [b; i; j; c]) / vnorm sqrtQ o (filter_weights W0 c))%Q.
Proof.
  intros HWs Hzs Hc.
  unfold tf_norm, reduce_axis. cbn [shape nth_error firstn skipn app].
  eexists. eexists. eexists. split; [reflexivity|].
  unfold tf_div, bop. unfold tf_abs at 1. cbn [tmap shape].
  rewrite Hzs, shape_tbuild.
  assert (Hb : bshape [bs; h; w; c_out] [c_out] = Some [bs; h; w; c_out]).
  { unfold bshape. cbn [rev app bshape_rev]. unfold bdim.
    rewrite Nat.eqb_refl. reflexivity. }
  rewrite Hb. split; [reflexivity|].
  rewrite reshape_exact
    by first [reflexivity | rewrite shape_tbuild; simpl; lia].
  cbn [map resolve].
  split; [reflexivity|]. split; [reflexivity|].
  intros b i j c Hbb Hi Hj Hcc.
  assert (Hin : inb [b; i; j; c] [bs; h; w; c_out]) by (repeat constructor; lia).
  match goal with
  | |- tget {| shape := _; data := data ?u |} _ = _ =>
      rewrite (tget_same_data u _ [b; i; j; c] [b; (i * w + j) * c_out + c])
        by first [reflexivity | rewrite shape_tbuild; simpl; lia]
  end.
  rewrite tget_tbuild by exact Hin.
  change (shape (tf_abs z0)) with (shape z0). rewrite Hzs.
  rewrite (bidx_same [bs; h; w; c_out]) by exact Hin.
  unfold tf_abs. rewrite tget_tmap by reflexivity. f_equal.
  assert (Hbi : bidx [c_out] [b; i; j; c] = [c]).
  { unfold bidx. cbn [length Nat.sub skipn combine map Nat.eqb].
    destruct (Nat.eqb_spec c_out 1); [f_equal; lia | reflexivity]. }
  rewrite Hbi. rewrite tget_tbuild by (repeat constructor; lia).
  f_equal. unfold fibre, filter_weights. cbn [firstn skipn app].
  rewrite HWs. cbn [removelast].
  replace (numel [kh; kw; c_in]) with (kh * kw * c_in) by (simpl; lia).
  apply map_ext_in. intros r Hr. apply in_seq in Hr.
  apply tget_same_data; [reflexivity|]. rewrite HWs.
  change [kh; kw; c_in; c_out] with ([kh; kw; c_in] ++ [c_out]).
  rewrite ravel_snoc by (apply unravel_inb; simpl; lia).
  rewrite ravel_unravel by (simpl; lia).
  simpl. lia.
Qed.

(** Lines 189 to 197 on a first filter of shape [kh; kw; c_in; c_out] and
    first pre-activations of shape [bs; h; w; c_out]. *)
Lemma first_layer_univ_entries sqrtQ L bs W0 z0 kh kw c_in c_out h w :
  py_index (W_conv L) 0 = Ok W0 -> py_index (z_conv L) 0 = Ok z0 ->
  shape W0 = [kh; kw; c_in; c_out] -> shape z0 = [bs; h; w; c_out] ->
  0 < c_out ->
  exists d1 d2,
    first_layer_univ sqrtQ L bs = Ok (d1, d2) /\
    shape d1 = [bs; h * w * c_out] /\ shape d2 = [bs; h * w * c_out] /\
    forall b i j c, b < bs -> i < h -> j < w -> c < c_out ->
      tget d1 [b; (i * w + j) * c_out + c]
      = (Qabs (tget z0 [b; i; j; c])
         / vnorm sqrtQ OrdInf (filter_weights W0 c))%Q /\
      tget d2 [b; (i * w + j) * c_out + c]
      = (Qabs (tget z0 [b; i; j; c])
         / vnorm sqrtQ Ord1 (filter_weights W0 c))%Q.
Proof.
  intros HW Hz HWs Hzs Hc.
  destruct (first_layer_block sqrtQ OrdInf W0 z0 bs kh kw c_in c_out h w
              HWs Hzs Hc) as (n1 & q1 & d1 & Hn1 & Hq1 & Hr1 & Hs1 & Hv1).
  destruct (first_layer_block sqrtQ Ord1 W0 z0 bs kh kw c_in c_out h w
              HWs Hzs Hc) as (n2 & q2 & d2 & Hn2 & Hq2 & Hr2 & Hs2 & Hv2).
  exists d1, d2. split.
  - unfold first_layer_univ.
    rewrite HW. cbn [bind]. unfold dim_last, py_last. rewrite HWs.
    cbn [rev app bind].
    rewrite (reshape_infer W0 [Infer; D c_out] (kh * kw * c_in))
      by first [reflexivity | simpl; lia | rewrite HWs; simpl; lia].
    cbn [bind map resolve].
    rewrite Hn1. cbn [bind]. rewrite Hz. cbn [bind]. rewrite Hq1. cbn [bind].
    unfold prod_dims123, dim_at, py_index. rewrite Hzs. cbn [nth_error bind].
    rewrite Hr1. cbn [bind]. rewrite Hn2. cbn [bind]. rewrite Hq2. cbn [bind].
    rewrite Hr2. reflexivity.
  - split; [exact Hs1|]. split; [exact Hs2|].
    intros b i j c Hb Hi Hj Hcc. split; [apply Hv1 | apply Hv2]; assumption.
Qed.

(** X17.  For a first filter of shape [kh; kw; c_in; c_out] and first
    pre-activations of shape [bs; h; w; c_out], dual-norm mode computes,
    for the unit at row [i], column [j] and channel [c] of example [b],
    the absolute value of its pre-activation over the norm of the weights
    of channel [c] of the filter ([ord=np.inf] in the first vector,
    [ord=1] in the second), and puts it at position
    [(i * w + j) * c_out + c] of row [b].  The quotient is stated for the
    channels in which the filter has a weight that is not zero, so that
    the norm is not zero. *)
Theorem first_layer_distance sqrtQ L bs W0 z0 kh kw c_in c_out h w :
  py_index (W_conv L) 0 = Ok W0 -> py_index (z_conv L) 0 = Ok z0 ->
  shape W0 = [kh; kw; c_in; c_out] -> shape z0 = [bs; h; w; c_out] ->
  0 < c_out ->
  exists dist_rb_l1 dist_rb_linf,
    first_layer_univ sqrtQ L bs = Ok (dist_rb_l1, dist_rb_linf) /\
    shape dist_rb_l1 = [bs; h * w * c_out] /\
    shape dist_rb_linf = [bs; h * w * c_out] /\
    forall b i j c, b < bs -> i < h -> j < w -> c < c_out ->
      (exists x, In x (filter_weights W0 c) /\ ~ (x == 0)%Q) ->
      (0 < vnorm sqrtQ OrdInf (filter_weights W0 c))%Q /\
      (0 < vnorm sqrtQ Ord1 (filter_weights W0 c))%Q /\
      tget dist_rb_l1 [b; (i * w + j) * c_out + c]
      = (Qabs (tget z0 [b; i; j; c])
         / vnorm sqrtQ OrdInf (filter_weights W0 c))%Q /\
      tget dist_rb_linf [b; (i * w + j) * c_out + c]
      = (Qabs (tget z0 [b; i; j; c])
         / vnorm sqrtQ Ord1 (filter_weights W0 c))%Q.
Proof.
  intros HW Hz HWs Hzs Hc.
  destruct (first_layer_univ_entries sqrtQ L bs W0 z0 kh kw c_in c_out h w
              HW Hz HWs Hzs Hc) as (d1 & d2 & H & Hs1 & Hs2 & Hv).
  exists d1, d2. split; [exact H|]. split; [exact Hs1|]. split; [exact Hs2|].
  intros b i j c Hb Hi Hj Hcc (x & Hx & Hx0).
  destruct (Hv b i j c Hb Hi Hj Hcc) as (E1 & E2).
  split; [|split; [|split; assumption]].
  - apply (vnorm_nonzero_pos sqrtQ OrdInf); [discriminate | eauto].
  - apply (vnorm_nonzero_pos sqrtQ Ord1); [discriminate | eauto].
Qed.

Lemma first_layer_distance_witness :
  exists dist_rb_l1 dist_rb_linf,
    first_layer_univ sqrt_floor (layers_of toy_z_list toy_weights) 1
      = Ok (dist_rb_l1, dist_rb_linf) /\
    shape dist_rb_l1 = [1; 2 * 2 * 1] /\
    shape dist_rb_linf = [1; 2 * 2 * 1] /\
    forall b i j c, b < 1 -> i < 2 -> j < 2 -> c < 1 ->
      (exists x, In x (filter_weights toy_w0 c) /\ ~ (x == 0)%Q) ->
      (0 < vnorm sqrt_floor OrdInf (filter_weights toy_w0 c))%Q /\
      (0 < vnorm sqrt_floor Ord1 (filter_weights toy_w0 c))%Q /\
      tget dist_rb_l1 [b; (i * 2 + j) * 1 + c]
      = (Qabs (tget toy_z0 [b; i; j; c])
         / vnorm sqrt_floor OrdInf (filter_weights toy_w0 c))%Q /\
      tget dist_rb_linf [b; (i * 2 + j) * 1 + c]
      = (Qabs (tget toy_z0 [b; i; j; c])
         / vnorm sqrt_floor Ord1 (filter_weights toy_w0 c))%Q.
Proof.
  apply (first_layer_distance sqrt_floor (layers_of toy_z_list toy_weights)
           1 toy_w0 toy_z0 1 1 1 1 2 2);
    [reflexivity | reflexivity | reflexivity | reflexivity | lia].
Defined.

(** ** How far the jitter can move the selection *)

Lemma jitter_bound rng pos dist b j :
  (forall i, (0 <= rng i <= 1)%Q) ->
  (tget dist [b; j] - (1 # 200000) <= jittered rng pos dist b j
   <= tget dist [b; j] + (1 # 200000))%Q.
Proof.
  intros Hr. unfold jittered. specialize (Hr (pos + j)). lra.
Qed.

Lemma kth_threshold_some k row :
  1 <= k -> k <= length row -> exists t, kth_threshold k row = Some t.
Proof.
  intros H1 Hk. unfold kth_threshold.
  assert (Hlen : length (firstn k (sort_desc (map Qopp row))) = k).
  { rewrite length_firstn, length_sort_desc, length_map. lia. }
  destruct (firstn k (sort_desc (map Qopp row))) as [|a l]; simpl in *; [lia|].
  eauto.
Qed.

Lemma count_le_indexwise (f g : Q -> bool) (u v : nat -> Q) n :
  (forall j, j < n -> f (u j) = true -> g (v j) = true) ->
  count f (map u (seq 0 n)) <= count g (map v (seq 0 n)).
Proof.
  intros H. rewrite <- !filter_map_count.
  apply filter_le_length. intros j Hj. apply in_seq in Hj. apply H. lia.
Qed.

(** X18.  With draws in the unit interval the jitter moves a distance by at
    most 5e-6.  For [1 <= n_boundaries <= n], let [t] be the threshold
    that the rows of the distances themselves, without jitter, would give
    (their [n_boundaries]-th smallest entry).  Every entry that the mask
    selects is at most [t + 1e-5], and every entry below [t - 1e-5] is
    selected. *)
Theorem zero_out_non_min_distances_tolerance rng pos dist bs n k :
  shape dist = [bs; n] -> 1 <= k -> k <= n ->
  (forall i, (0 <= rng i <= 1)%Q) ->
  exists th,
    zero_out_non_min_distances rng pos dist k = Ok (th, pos + n) /\
    forall b, b < bs ->
      exists t,
        kth_threshold k (last_row dist n [b]) = Some t /\
        forall j, j < n ->
          ((tget th [b; j] == 1)%Q ->
           (tget dist [b; j] <= t + (1 # 100000))%Q) /\
          ((tget dist [b; j] < t - (1 # 100000))%Q ->
           (tget th [b; j] == 1)%Q).
Proof.
  intros Hs H1 Hk Hr.
  destruct (zero_out_entries rng pos dist bs n k Hs Hk) as (th & H & _ & Hv).
  exists th. split; [exact H|].
  intros b Hb.
  set (row := last_row dist n [b]).
  set (jrow := jittered_row rng pos dist n b).
  assert (Hlr : length row = n).
  { unfold row, last_row. now rewrite length_map, length_seq. }
  assert (Hlj : length jrow = n).
  { unfold jrow, jittered_row. now rewrite length_map, length_seq. }
  destruct (kth_threshold_some k row) as (t & Ht); [lia | lia |].
  destruct (kth_threshold_some k jrow) as (T & HT); [lia | lia |].
  exists t. split; [exact Ht|].
  pose proof (count_kth_threshold_ge k row) as Hge. rewrite Ht in Hge.
  pose proof (count_kth_threshold_ge k jrow) as HgeJ. rewrite HT in HgeJ.
  pose proof (count_below_kth_threshold k row t) as Hlt.
  pose proof (count_below_kth_threshold k jrow T) as HltJ.
  specialize (Hge ltac:(lia)). specialize (HgeJ ltac:(lia)).
  specialize (Hlt ltac:(lia) Ht). specialize (HltJ ltac:(lia) HT).
  cbn [le_threshold] in Hge, HgeJ.
  assert (Hup : (T <= t + (1 # 200000))%Q).
  { apply Qnot_lt_le. intros Hc.
    assert (count (fun x => Qle_bool x t) row
            <= count (fun x => Qlt_bool x T) jrow); [|lia].
    apply (count_le_indexwise _ _ (fun j => tget dist ([b] ++ [j]))
                              (jittered rng pos dist b)).
    intros j Hj E. apply Qle_bool_iff in E. apply Qlt_bool_iff.
    pose proof (jitter_bound rng pos dist b j Hr). simpl app in E. lra. }
  assert (Hlow : (t - (1 # 200000) <= T)%Q).
  { apply Qnot_lt_le. intros Hc.
    assert (count (fun x => Qle_bool x T) jrow
            <= count (fun x => Qlt_bool x t) row); [|lia].
    apply (count_le_indexwise _ _ (jittered rng pos dist b)
                              (fun j => tget dist ([b] ++ [j]))).
    intros j Hj E. apply Qle_bool_iff in E. apply Qlt_bool_iff.
    pose proof (jitter_bound rng pos dist b j Hr). simpl app. lra. }
  intros j Hj. rewrite Hv by assumption. fold jrow. rewrite HT.
  cbn [le_threshold].
  pose proof (jitter_bound rng pos dist b j Hr) as Hjb.
  split.
  - destruct (Qle_bool (jittered rng pos dist b j) T) eqn:E; simpl b2q;
      [intros _ | intros E0; discriminate E0].
    apply Qle_bool_iff in E. lra.
  - intros Hd.
    assert (E : Qle_bool (jittered rng pos dist b j) T = true)
      by (apply Qle_bool_iff; lra).
    rewrite E. reflexivity.
Qed.

Lemma rng_ramp_unit i : (0 <= rng_ramp i <= 1)%Q.
Proof.
  unfold rng_ramp.
  assert (H : (0 <= Z.of_nat (i mod 16) < 16)%Z).
  { pose proof (Nat.mod_upper_bound i 16). lia. }
  set (z := Z.of_nat (i mod 16)) in *.
  unfold Qdiv, Qmult, Qinv, Qle, inject_Z. simpl. lia.
Qed.

Lemma zero_out_non_min_distances_tolerance_witness :
  exists th,
    zero_out_non_min_distances rng_ramp 0 toy_dist 2 = Ok (th, 0 + 5) /\
    forall b, b < 1 ->
      exists t,
        kth_threshold 2 (last_row toy_dist 5 [b]) = Some t /\
        forall j, j < 5 ->
          ((tget th [b; j] == 1)%Q ->
           (tget toy_dist [b; j] <= t + (1 # 100000))%Q) /\
          ((tget toy_dist [b; j] < t - (1 # 100000))%Q ->
           (tget th [b; j] == 1)%Q).
Proof.
  apply (zero_out_non_min_distances_tolerance rng_ramp 0 toy_dist 1 5 2);
    [reflexivity | lia | lia | exact rng_ramp_unit].
Defined.

(** ** The sensitivities of the first layer in dual-norm mode *)

Lemma qsum_app l1 l2 : (qsum (l1 ++ l2) == qsum l1 + qsum l2)%Q.
Proof. induction l1 as [|x l1 IH]; simpl; [ring|]. rewrite IH. ring. Qed.

Lemma qsum_flat_map (F : nat -> list Q) l :
  (qsum (flat_map F l) == qsum (map (fun a => qsum (F a)) l))%Q.
Proof.
  induction l as [|a l IH]; simpl; [reflexivity|].
  rewrite qsum_app, IH. reflexivity.
Qed.

Lemma qsum_scale (c : Q) (f : nat -> Q) l :
  (c * qsum (map f l) == qsum (map (fun a => c * f a) l))%Q.
Proof. induction l as [|a l IH]; simpl; [ring|]. rewrite <- IH. ring. Qed.

Lemma qsum_plus (f g : nat -> Q) l :
  (qsum (map (fun a => f a + g a) l) == qsum (map f l) + qsum (map g l))%Q.
Proof. induction l as [|a l IH]; simpl; [ring|]. rewrite IH. ring. Qed.

Lemma qsum_swap (f : nat -> nat -> Q) D l :
  (qsum (map (fun d => qsum (map (f d) l)) D)
   == qsum (map (fun a => qsum (map (fun d => f d a) D)) l))%Q.
Proof.
  induction D as [|d D IH]; simpl.
  - symmetry. apply qsum_zero. intros; reflexivity.
  - rewrite IH. symmetry. apply qsum_plus.
Qed.

(** A weighted sum of sums, one level down. *)
Lemma qsum_level (c : nat -> Q) (f : nat -> nat -> Q) (g : nat -> Q) D l :
  (forall a, In a l -> (qsum (map (fun d => c d * f d a) D) == g a)%Q) ->
  (qsum (map (fun d => c d * qsum (map (f d) l)) D) == qsum (map g l))%Q.
Proof.
  intros H.
  rewrite (qsum_ext_eq _ (fun d => qsum (map (fun a => (c d * f d a)%Q) l)))
    by (intros d _; apply qsum_scale).
  rewrite (qsum_swap (fun d a => (c d * f d a)%Q)).
  apply qsum_ext_eq. exact H.
Qed.

Lemma flat_map_ext_in {A B : Type} (f g : A -> list B) l :
  (forall a, In a l -> f a = g a) -> flat_map f l = flat_map g l.
Proof.
  induction l as [|a l IH]; intros H; simpl; [reflexivity|].
  rewrite (H a) by now left. f_equal. apply IH. intros b Hb. apply H. now right.
Qed.

Lemma win_pos_valid i d n : i + d < n -> win_pos i 1 d 0 n = Some (i + d).
Proof.
  intros H. unfold win_pos. rewrite Nat.mul_1_r, Nat.sub_0_r.
  cbn [Nat.leb andb]. apply Nat.ltb_lt in H. now rewrite H.
Qed.

Lemma window_valid_1 n k :
  k <= n -> window VALID n k 1 = Ok (n - k + 1, 0).
Proof.
  intros H. unfold window. cbn [Nat.eqb].
  rewrite Z.quot_1_r.
  destruct (Z.ltb_spec (Z.of_nat n - Z.of_nat k + Z.of_nat 1) 0); [lia|].
  do 2 f_equal. lia.
Qed.

(** The value of a convolution with padding VALID and stride 1, as a
    triple sum. *)
Lemma conv2d_valid_entries t W n h w c kh kw co :
  shape t = [n; h; w; c] -> shape W = [kh; kw; c; co] ->
  kh <= h -> kw <= w ->
  exists z,
    tf_conv2d t W 1 VALID = Ok z /\
    shape z = [n; h - kh + 1; w - kw + 1; co] /\
    forall e i j o, e < n -> i < h - kh + 1 -> j < w - kw + 1 -> o < co ->
      (tget z [e; i; j; o]
       == qsum (map (fun di => qsum (map (fun dj => qsum (map (fun ch =>
            tget t [e; (i + di)%nat; (j + dj)%nat; ch] * tget W [di; dj; ch; o])
            (seq 0 c))) (seq 0 kw))) (seq 0 kh)))%Q.
Proof.
  intros Ht HW Hkh Hkw. unfold tf_conv2d. rewrite Ht, HW, Nat.eqb_refl.
  rewrite (window_valid_1 h kh Hkh), (window_valid_1 w kw Hkw). cbn [bind].
  eexists. split; [reflexivity|]. split; [reflexivity|].
  intros e i j o He Hi Hj Ho.
  rewrite tget_tbuild by (repeat constructor; lia).
  rewrite qsum_flat_map. apply qsum_ext_eq. intros di Hdi. apply in_seq in Hdi.
  rewrite qsum_flat_map. apply qsum_ext_eq. intros dj Hdj. apply in_seq in Hdj.
  rewrite !win_pos_valid by lia. reflexivity.
Qed.

(** X19.  In dual-norm mode the sensitivities of the first layer are
    obtained by giving the identity matrix, reshaped to one image per
    input entry, to [calc_v_conv] with [boo_last] set.  For a filter of
    shape [kh; kw; c; co] and images of shape [h; w; c] the result [V] is
    the matrix of the convolution: the convolution (padding VALID, stride
    1) of every image [x] is, at each output position, the sum over the
    input entries [d] of [x[d] * V[0, d, ...]]. *)
Theorem identity_seed_is_conv_matrix W0 x h w c kh kw co :
  shape W0 = [kh; kw; c; co] -> shape x = [1; h; w; c] ->
  0 < c -> 0 < co -> 0 < kh -> 0 < kw -> kh <= h -> kw <= w ->
  exists identity_input_fm V z,
    tf_reshape (tf_eye (h * w * c) (h * w * c))
               [D 1; D (h * w * c); D h; D w; D c] = Ok identity_input_fm /\
    calc_v_conv identity_input_fm W0 1 VALID true = Ok V /\
    shape V = [1; h * w * c; h - kh + 1; w - kw + 1; co] /\
    tf_conv2d x W0 1 VALID = Ok z /\
    forall i j o, i < h - kh + 1 -> j < w - kw + 1 -> o < co ->
      (tget z [0; i; j; o]%nat
       == qsum (map (fun d => tget x (0%nat :: unravel [h; w; c] d)
                              * tget V [0%nat; d; i; j; o])
                    (seq 0 (h * w * c))))%Q.
Proof.
  intros HW Hx Hc Hco Hkh0 Hkw0 Hkh Hkw.
  set (n := h * w * c).
  assert (Hn : 0 < n) by (unfold n; repeat apply Nat.mul_pos_pos; lia).
  assert (Hnum : numel [h; w; c] = n) by (unfold n; simpl; lia).
  rewrite reshape_exact by first [reflexivity | unfold n; simpl; nia].
  cbn [map resolve].
  set (idm := mkT [1; n; h; w; c] (data (tf_eye n n))).
  set (V1 := mkT [n; h; w; c] (data (tf_eye n n))).
  destruct (conv2d_valid_entries V1 W0 n h w c kh kw co eq_refl HW Hkh Hkw)
    as (zV & HzV & HsV & HvV).
  destruct (conv2d_valid_entries x W0 1 h w c kh kw co Hx HW Hkh Hkw)
    as (z & Hz & Hsz & Hvz).
  assert (Hcalc : calc_v_conv idm W0 1 VALID true
                  = Ok (mkT [1; n; h - kh + 1; w - kw + 1; co] (data zV))).
  { unfold calc_v_conv.
    change (dim_at idm 1) with (@Ok nat n).
    change (dim_at idm 2) with (@Ok nat h).
    change (dim_at idm 3) with (@Ok nat w).
    change (dim_at idm 4) with (@Ok nat c).
    cbn [bind].
    rewrite (reshape_infer idm [Infer; D h; D w; D c] n)
      by first [reflexivity | simpl; nia | unfold idm; simpl; nia].
    cbn [bind map resolve negb].
    change {| shape := [n; h; w; c]; data := data idm |} with V1.
    rewrite HzV. cbn [bind].
    unfold dim_at, py_index. rewrite HsV. cbn [nth_error bind].
    rewrite (reshape_infer zV [Infer; D n; D (h - kh + 1); D (w - kw + 1); D co] 1)
      by first [reflexivity | simpl; nia | rewrite HsV; simpl; lia].
    reflexivity. }
  eexists. exists (mkT [1; n; h - kh + 1; w - kw + 1; co] (data zV)), z.
  split; [reflexivity|]. split; [exact Hcalc|]. split; [reflexivity|].
  split; [exact Hz|].
  intros i j o Hi Hj Ho.
  rewrite Hvz by (try assumption; lia).
  symmetry.
  pose (xd := fun d : nat => tget x (0 :: unravel [h; w; c] d)).
  pose (T := fun (t : tensor) (e di dj ch : nat) =>
               Qmult (tget t [e; i + di; j + dj; ch]) (tget W0 [di; dj; ch; o])).
  rewrite (qsum_ext_eq _ (fun d =>
             (xd d * qsum (map (fun di => qsum (map (fun dj => qsum (map
                       (T V1 d di dj) (seq 0 c))) (seq 0 kw))) (seq 0 kh)))%Q)).
  2:{ intros d Hd. apply in_seq in Hd.
      unfold xd, T.
      rewrite <- HvV by (try assumption; lia).
      rewrite (tget_same_data zV _ [d; i; j; o] [0; d; i; j; o]);
        [reflexivity | reflexivity |].
      rewrite HsV. simpl. lia. }
  apply (qsum_level xd
           (fun d di => qsum (map (fun dj => qsum (map (T V1 d di dj) (seq 0 c)))
                                  (seq 0 kw)))).
  intros di Hdi. apply in_seq in Hdi.
  apply (qsum_level xd (fun d dj => qsum (map (T V1 d di dj) (seq 0 c)))).
  intros dj Hdj. apply in_seq in Hdj.
  apply (qsum_level xd (fun d ch => T V1 d di dj ch)).
  intros ch Hch. apply in_seq in Hch.
  set (k := ravel [h; w; c] [i + di; j + dj; ch]).
  assert (Hin : inb [i + di; j + dj; ch] [h; w; c]) by (repeat constructor; lia).
  assert (Hk : k < n) by (rewrite <- Hnum; apply ravel_lt, Hin).
  assert (HV1 : forall d, d < n ->
            tget V1 [d; i + di; j + dj; ch] = b2q (d =? k)).
  { intros d Hd. unfold V1.
    rewrite (tget_same_data (tf_eye n n) _ [d; k] [d; i + di; j + dj; ch]).
    - unfold tf_eye. now rewrite tget_tbuild by (repeat constructor; lia).
    - reflexivity.
    - unfold tf_eye. rewrite shape_tbuild. unfold k.
      cbn [shape ravel]. rewrite Hnum. simpl. lia. }
  rewrite (qsum_single _ n k Hk).
  - unfold T, xd. rewrite HV1 by exact Hk. rewrite Nat.eqb_refl. unfold k.
    rewrite unravel_ravel by exact Hin. simpl b2q. ring.
  - intros d Hd Hne. unfold T. rewrite HV1 by exact Hd.
    apply Nat.eqb_neq in Hne. rewrite Hne. simpl b2q. ring.
Qed.

Lemma identity_seed_is_conv_matrix_witness :
  exists identity_input_fm V z,
    tf_reshape (tf_eye (3 * 3 * 1) (3 * 3 * 1))
               [D 1; D (3 * 3 * 1); D 3; D 3; D 1] = Ok identity_input_fm /\
    calc_v_conv identity_input_fm ones22 1 VALID true = Ok V /\
    shape V = [1; 3 * 3 * 1; 3 - 2 + 1; 3 - 2 + 1; 1] /\
    tf_conv2d img33 ones22 1 VALID = Ok z /\
    forall i j o, i < 3 - 2 + 1 -> j < 3 - 2 + 1 -> o < 1 ->
      (tget z [0; i; j; o]%nat
       == qsum (map (fun d => tget img33 (0%nat :: unravel [3; 3; 1]%nat d)
                              * tget V [0%nat; d; i; j; o])
                    (seq 0 (3 * 3 * 1))))%Q.
Proof.
  apply (identity_seed_is_conv_matrix ones22 img33 3 3 1 2 2 1);
    first [reflexivity | lia].
Defined.

(** ** The region-boundary term grows with [gamma_rb] *)

Lemma qsum_le_pointwise (f g : nat -> Q) l :
  (forall k, In k l -> (f k <= g k)%Q) ->
  (qsum (map f l) <= qsum (map g l))%Q.
Proof.
  induction l as [|k l IH]; intros H; simpl; [lra|].
  assert (Hk := H k (or_introl eq_refl)).
  assert (IH' := IH (fun j Hj => H j (or_intror Hj))). lra.
Qed.

Lemma hinge_monotone d g g' :
  (0 <= d)%Q -> (0 < g)%Q -> (g <= g')%Q ->
  (Qmax 0 (1 - d / g) <= Qmax 0 (1 - d / g'))%Q.
Proof.
  intros Hd Hg Hgg.
  assert (Hq : (0 <= d / g)%Q) by (apply Qdiv_nonneg; lra).
  assert (Hle : (d / g' <= d / g)%Q).
  { apply Qle_shift_div_r; [lra|].
    assert (E : (d == d / g * g)%Q) by (field; lra).
    rewrite E at 1. nra. }
  apply Q.max_lub; [apply Q.le_max_l|].
  eapply Qle_trans; [|apply Q.le_max_r]. lra.
Qed.

Lemma masked_hinge_sum_scalar_ok th dist g m n :
  shape th = [m; n] -> shape dist = [m; n] ->
  exists db, masked_hinge_sum th dist (scalar g) = Ok db.
Proof.
  intros Hth Hd. unfold masked_hinge_sum.
  destruct (hinge_scalar dist g) as (h & Hh & Hs & _).
  rewrite Hh. cbn [bind]. unfold tf_mul, bop.
  rewrite Hth, Hs, Hd, bshape_same. cbn [bind].
  unfold tf_reduce_sum, reduce_axis. rewrite shape_tbuild. cbn [nth_error].
  eauto.
Qed.

Lemma masked_hinge_sum_monotone th d g g' rb rb' m n :
  shape th = [m; n] -> shape d = [m; n] -> nonneg th -> nonneg d ->
  (0 < g)%Q -> (g <= g')%Q ->
  masked_hinge_sum th d (scalar g) = Ok rb ->
  masked_hinge_sum th d (scalar g') = Ok rb' ->
  shape rb' = shape rb /\
  forall idx, inb idx (shape rb) -> (tget rb idx <= tget rb' idx)%Q.
Proof.
  intros Hs Hd Hth Hdn Hg Hgg Hsum Hsum'.
  assert (Hsh : shape rb' = shape rb).
  { rewrite (masked_hinge_sum_shape th d g' rb'); [|congruence | exact Hsum'].
    rewrite (masked_hinge_sum_shape th d g rb); [reflexivity | congruence
                                                 | exact Hsum]. }
  split; [exact Hsh|].
  intros idx Hidx.
  destruct (masked_hinge_sum_is th d g rb) as (K & HK & Hv);
    [congruence | exact Hsum |].
  destruct (masked_hinge_sum_is th d g' rb') as (K' & HK' & Hv');
    [congruence | exact Hsum' |].
  rewrite HK in HK'. injection HK' as <-.
  rewrite Hv by exact Hidx.
  rewrite Hv' by (rewrite Hsh; exact Hidx).
  apply qsum_le_pointwise. intros k _.
  assert (Ht : (0 <= tget th (at_axis1 idx k))%Q) by now apply nonneg_tget.
  assert (Hm : (Qmax 0 (1 - tget d (at_axis1 idx k) / g)
                <= Qmax 0 (1 - tget d (at_axis1 idx k) / g'))%Q).
  { apply hinge_monotone; [|exact Hg | exact Hgg]. now apply nonneg_tget. }
  nra.
Qed.

(** X20.  In dual-norm mode, raising the two positive entries of
    [gamma_rb] changes neither the mask nor the two decision-boundary
    terms, and lowers no entry of the two region-boundary terms: the call
    with the greater entries returns too, with the same [db] terms and
    [rb] terms that are entry by entry at least the former.  (The first
    filter has no output channel of zero weights and the input is not
    empty: no distance of the run divides by zero.) *)
Theorem rb_term_monotone_in_gamma sqrtQ rng pos z_list x y_true model n_rb n_db
    g1 g2 g1' g2' rest rest' gamma_db bs q weights L h_in w_in c_in
    rb_l1 rb_linf db_l1 db_linf :
  is_univ q = true ->
  (0 < g1)%Q -> (g1 <= g1')%Q -> (0 < g2)%Q -> (g2 <= g2')%Q ->
  split_layers z_list weights = Ok L -> first_filter_nonzero L ->
  dim_at x 1 = Ok h_in -> dim_at x 2 = Ok w_in -> dim_at x 3 = Ok c_in ->
  0 < h_in * w_in * c_in ->
  mmr_cnn sqrtQ rng pos z_list x y_true model n_rb n_db
          (HSeq (g1 :: g2 :: rest)) gamma_db bs q weights
    = Ok (RList [rb_l1; rb_linf; db_l1; db_linf]) ->
  exists rb_l1' rb_linf',
    mmr_cnn sqrtQ rng pos z_list x y_true model n_rb n_db
            (HSeq (g1' :: g2' :: rest')) gamma_db bs q weights
      = Ok (RList [rb_l1'; rb_linf'; db_l1; db_linf]) /\
    shape rb_l1' = shape rb_l1 /\ shape rb_linf' = shape rb_linf /\
    (forall idx, inb idx (shape rb_l1) -> (tget rb_l1 idx <= tget rb_l1' idx)%Q) /\
    (forall idx, inb idx (shape rb_linf) ->
       (tget rb_linf idx <= tget rb_linf' idx)%Q).
Proof.
  intros Hu Hg1 Hgg1 Hg2 Hgg2 _ _ _ _ _ _ H.
  destruct (mmr_cnn_univ_run _ _ _ _ _ _ _ _ _ _ _ _ _ _ _ Hu H)
    as (y_pred & L' & h' & w' & c' & n_out & a1 & a2 & a3 & a4 & V & d1 & d2
        & m & n & th & rb1 & rb2 & e1 & e2 & db1 & db2 & Hy & HL' & Hh' & Hw'
        & Hc' & Hn' & Ha1 & Ha2 & Ha3 & Ha4 & Hrb & Hd1 & Hd2 & Hk & Hth & Hsh
        & Hrb1 & Hrb2 & Hdb & Hdb1 & Hdb2 & Hr).
  cbn in Ha1, Ha2. injection Ha1 as <-. injection Ha2 as <-.
  injection Hr as -> -> -> ->.
  destruct (masked_hinge_sum_scalar_ok th d1 g1' m n Hsh Hd1) as (rb1' & Hrb1').
  destruct (masked_hinge_sum_scalar_ok th d2 g2' m n Hsh Hd2) as (rb2' & Hrb2').
  destruct (rb_univ_nonneg _ _ _ _ _ _ _ _ _ _ Hrb) as (Hn1 & Hn2).
  assert (Hnth : nonneg th) by (eapply nonneg_union_mask; exact Hth).
  destruct (masked_hinge_sum_monotone th d1 g1 g1' rb1 rb1' m n
              Hsh Hd1 Hnth Hn1 Hg1 Hgg1 Hrb1 Hrb1') as (Hs1 & Hv1).
  destruct (masked_hinge_sum_monotone th d2 g2 g2' rb2 rb2' m n
              Hsh Hd2 Hnth Hn2 Hg2 Hgg2 Hrb2 Hrb2') as (Hs2 & Hv2).
  exists rb1', rb2'. split; [|auto].
  unfold mmr_cnn. rewrite Hy, HL', Hh', Hw', Hc', Hn'. cbn [bind].
  rewrite (is_univ_not_single q Hu), Hu.
  unfold mmr_univ. cbn [subscript py_index nth_error bind].
  rewrite Ha3, Ha4. cbn [bind]. rewrite Hrb. cbn [bind].
  rewrite Hth. cbn [bind]. rewrite Hrb1', Hrb2'. cbn [bind].
  rewrite Hdb. cbn [bind]. rewrite Hdb1, Hdb2. reflexivity.
Qed.

Lemma rb_term_monotone_in_gamma_witness :
  exists rb_l1 rb_linf db_l1 db_linf rb_l1' rb_linf',
    mmr_cnn sqrt_floor rng_ramp 0 toy_z_list toy_x toy_y tt 2 1
            (HSeq [16; 16]%Q) (HSeq [16; 16]%Q) 1 (QStr "univ") toy_weights
      = Ok (RList [rb_l1; rb_linf; db_l1; db_linf]) /\
    mmr_cnn sqrt_floor rng_ramp 0 toy_z_list toy_x toy_y tt 2 1
            (HSeq [32; 24]%Q) (HSeq [16; 16]%Q) 1 (QStr "univ") toy_weights
      = Ok (RList [rb_l1'; rb_linf'; db_l1; db_linf]) /\
    shape rb_l1' = shape rb_l1 /\ shape rb_linf' = shape rb_linf /\
    (forall idx, inb idx (shape rb_l1) -> (tget rb_l1 idx <= tget rb_l1' idx)%Q) /\
    (forall idx, inb idx (shape rb_linf) ->
       (tget rb_linf idx <= tget rb_linf' idx)%Q).
Proof.
  destruct (mmr_cnn sqrt_floor rng_ramp 0 toy_z_list toy_x toy_y tt 2 1
              (HSeq [16; 16]%Q) (HSeq [16; 16]%Q) 1 (QStr "univ") toy_weights)
    as [[| [|rb_l1 [|rb_linf [|db_l1 [|db_linf [|]]]]] |]|e] eqn:E;
    try (vm_compute in E; discriminate).
  exists rb_l1, rb_linf, db_l1, db_linf.
  destruct (rb_term_monotone_in_gamma sqrt_floor rng_ramp 0 toy_z_list toy_x
              toy_y tt 2 1 16%Q 16%Q 32%Q 24%Q [] [] (HSeq [16; 16]%Q) 1
              (QStr "univ") toy_weights (layers_of toy_z_list toy_weights)
              2 2 1 rb_l1 rb_linf db_l1 db_linf)
    as (rb_l1' & rb_linf' & H);
    [reflexivity | reflexivity | unfold Qle; simpl; lia | reflexivity
     | unfold Qle; simpl; lia | reflexivity | exact toy_first_filter_nonzero
     | reflexivity | reflexivity | reflexivity | lia | exact E |].
  exists rb_l1', rb_linf'. split; [reflexivity | exact H].
Defined.

(** ** What [calc_v_conv] computes *)

Lemma window_valid_pool n : window VALID n 2 2 = Ok (n / 2, 0).
Proof.
  unfold window. cbn [Nat.eqb].
  replace (Z.of_nat n - Z.of_nat 2 + Z.of_nat 2)%Z with (Z.of_nat n) by lia.
  rewrite Z.quot_div_nonneg by lia.
  destruct (Z.ltb_spec (Z.of_nat n / Z.of_nat 2) 0) as [Hlt|_].
  - pose proof (Z.div_pos (Z.of_nat n) (Z.of_nat 2)). lia.
  - do 2 f_equal. rewrite <- Nat2Z.inj_div. apply Nat2Z.id.
Qed.

Lemma win_pos_pool i d n : i < n / 2 -> d < 2 -> win_pos i 2 d 0 n = Some (i * 2 + d).
Proof.
  intros Hi Hd. unfold win_pos. rewrite Nat.sub_0_r. cbn [Nat.leb andb].
  assert (H : i * 2 + d < n).
  { pose proof (Nat.Div0.mul_div_le n 2). lia. }
  apply Nat.ltb_lt in H. now rewrite H.
Qed.

Lemma max_pool2d_valid_entries t n h w c :
  shape t = [n; h; w; c] ->
  exists p,
    tf_max_pool2d t 2 2 VALID = Ok p /\ shape p = [n; h / 2; w / 2; c] /\
    forall e r q ch, e < n -> r < h / 2 -> q < w / 2 -> ch < c ->
      tget p [e; r; q; ch]
      = Qmax (Qmax (Qmax (tget t [e; r * 2; q * 2; ch])
                         (tget t [e; r * 2; q * 2 + 1; ch]))
                   (tget t [e; r * 2 + 1; q * 2; ch]))
             (tget t [e; r * 2 + 1; q * 2 + 1; ch]).
Proof.
  intros Ht. unfold tf_max_pool2d. rewrite Ht, !window_valid_pool. cbn [bind].
  eexists. split; [reflexivity|]. split; [reflexivity|].
  intros e r q ch He Hr Hq Hch.
  rewrite tget_tbuild by (repeat constructor; lia).
  cbn [seq flat_map app].
  rewrite !(win_pos_pool r) by lia. rewrite !(win_pos_pool q) by lia.
  cbn [app qmax_list fold_left]. rewrite !Nat.add_0_r. reflexivity.
Qed.

(** The entries of what [calc_v_conv] returns, padding VALID and stride
    1. *)
Lemma calc_v_conv_values V W (boo_last : bool) bs d h w c kh kw co :
  shape V = [bs; d; h; w; c] -> shape W = [kh; kw; c; co] ->
  let hp := if boo_last then h else h / 2 in
  let wp := if boo_last then w else w / 2 in
  0 < d -> 0 < c -> 0 < co -> 0 < kh -> 0 < kw -> kh <= hp -> kw <= wp ->
  exists V',
    calc_v_conv V W 1 VALID boo_last = Ok V' /\
    shape V' = [bs; d; hp - kh + 1; wp - kw + 1; co] /\
    forall b dd i j o,
      b < bs -> dd < d -> i < hp - kh + 1 -> j < wp - kw + 1 -> o < co ->
      (tget V' [b; dd; i; j; o]
       == qsum (map (fun di => qsum (map (fun dj => qsum (map (fun ch =>
            conv_input V boo_last b dd (i + di) (j + dj) ch
            * tget W [di; dj; ch; o])
            (seq 0 c))) (seq 0 kw))) (seq 0 kh)))%Q.
Proof.
  intros HV HW hp wp Hd Hc Hco Hkh0 Hkw0 Hkh Hkw.
  assert (Hh : 0 < h) by (unfold hp in Hkh; destruct boo_last;
                          [lia | pose proof (Nat.Div0.mul_div_le h 2); lia]).
  assert (Hw : 0 < w) by (unfold wp in Hkw; destruct boo_last;
                          [lia | pose proof (Nat.Div0.mul_div_le w 2); lia]).
  set (V1 := mkT [bs * d; h; w; c] (data V)).
  assert (HV1 : forall b dd r q ch, dd < d ->
            tget V1 [b * d + dd; r; q; ch] = tget V [b; dd; r; q; ch]).
  { intros b dd r q ch Hdd. apply tget_same_data; [reflexivity|].
    rewrite HV. unfold V1. simpl. lia. }
  assert (Hin : exists conv_in,
            (if negb boo_last then tf_max_pool2d V1 2 2 VALID else Ok V1)
            = Ok conv_in /\
            shape conv_in = [bs * d; hp; wp; c] /\
            forall b dd r q ch, b < bs -> dd < d -> r < hp -> q < wp -> ch < c ->
              tget conv_in [b * d + dd; r; q; ch]
              = conv_input V boo_last b dd r q ch).
  { unfold hp, wp, conv_input. destruct boo_last; cbn [negb].
    - exists V1. split; [reflexivity|]. split; [reflexivity|].
      intros. now apply HV1.
    - destruct (max_pool2d_valid_entries V1 (bs * d) h w c eq_refl)
        as (p & Hp & Hsp & Hvp).
      exists p. split; [exact Hp|]. split; [exact Hsp|].
      intros b dd r q ch Hb Hdd Hr Hq Hch.
      rewrite Hvp by (try assumption; nia).
      now rewrite !HV1 by exact Hdd. }
  destruct Hin as (conv_in & Hci & Hsci & Hvci).
  destruct (conv2d_valid_entries conv_in W (bs * d) hp wp c kh kw co
              Hsci HW Hkh Hkw) as (z & Hz & Hsz & Hvz).
  assert (Hcalc : calc_v_conv V W 1 VALID boo_last
                  = Ok (mkT [bs; d; hp - kh + 1; wp - kw + 1; co] (data z))).
  { unfold calc_v_conv.
    unfold dim_at at 1 2 3 4. unfold py_index. rewrite HV.
    cbn [nth_error bind].
    rewrite (reshape_infer V [Infer; D h; D w; D c] (bs * d))
      by first [reflexivity | simpl; nia | rewrite HV; simpl; nia].
    cbn [bind map resolve]. fold V1. rewrite Hci. cbn [bind].
    rewrite Hz. cbn [bind].
    unfold dim_at, py_index. rewrite Hsz. cbn [nth_error bind].
    rewrite (reshape_infer z [Infer; D d; D (hp - kh + 1); D (wp - kw + 1); D co] bs)
      by first [reflexivity | simpl; nia | rewrite Hsz; simpl; nia].
    reflexivity. }
  eexists. split; [exact Hcalc|]. split; [reflexivity|].
  intros b dd i j o Hb Hdd Hi Hj Ho.
  rewrite (tget_same_data z _ [b * d + dd; i; j; o] [b; dd; i; j; o])
    by first [reflexivity | rewrite Hsz; simpl; nia].
  rewrite Hvz by (try assumption; nia).
  apply qsum_ext_eq. intros di Hdi. apply in_seq in Hdi.
  apply qsum_ext_eq. intros dj Hdj. apply in_seq in Hdj.
  apply qsum_ext_eq. intros ch Hch. apply in_seq in Hch.
  rewrite Hvci by (try assumption; lia). reflexivity.
Qed.

(** X21.  On sensitivities of shape [bs; d; h; w; c] and a filter of shape
    [kh; kw; c; co], with padding VALID and stride 1, [calc_v_conv]
    treats each of the [bs * d] slices as an image: entry [b, dd, i, j, o]
    of the result is the sum over the window of the filter of what
    [conv_input] gives for the slice [b, dd] (its entries when
    [boo_last] is set, the maxima of its 2 x 2 blocks otherwise) times the
    weights of the filter. *)
Theorem calc_v_conv_entries V W (boo_last : bool) bs d h w c kh kw co :
  shape V = [bs; d; h; w; c] -> shape W = [kh; kw; c; co] ->
  let hp := if boo_last then h else h / 2 in
  let wp := if boo_last then w else w / 2 in
  0 < d -> 0 < c -> 0 < co -> 0 < kh -> 0 < kw -> kh <= hp -> kw <= wp ->
  exists V',
    calc_v_conv V W 1 VALID boo_last = Ok V' /\
    shape V' = [bs; d; hp - kh + 1; wp - kw + 1; co] /\
    forall b dd i j o,
      b < bs -> dd < d -> i < hp - kh + 1 -> j < wp - kw + 1 -> o < co ->
      (tget V' [b; dd; i; j; o]
       == qsum (map (fun di => qsum (map (fun dj => qsum (map (fun ch =>
            conv_input V boo_last b dd (i + di) (j + dj) ch
            * tget W [di; dj; ch; o])
            (seq 0 c))) (seq 0 kw))) (seq 0 kh)))%Q.
Proof.
  intros HV HW hp wp Hd Hc Hco Hkh0 Hkw0 Hkh Hkw.
  destruct (calc_v_conv_values V W boo_last bs d h w c kh kw co HV HW
              Hd Hc Hco Hkh0 Hkw0 Hkh Hkw) as (V' & H & Hs & Hv).
  exists V'. split; [exact H|]. split; [exact Hs|]. exact Hv.
Qed.

Lemma calc_v_conv_entries_witness :
  exists V',
    calc_v_conv toy_V_conv toy_w0 1 VALID false = Ok V' /\
    shape V' = [1; 2; 2 / 2 - 1 + 1; 2 / 2 - 1 + 1; 1] /\
    forall b dd i j o,
      b < 1 -> dd < 2 -> i < 2 / 2 - 1 + 1 -> j < 2 / 2 - 1 + 1 -> o < 1 ->
      (tget V' [b; dd; i; j; o]
       == qsum (map (fun di => qsum (map (fun dj => qsum (map (fun ch =>
            conv_input toy_V_conv false b dd (i + di) (j + dj) ch
            * tget toy_w0 [di; dj; ch; o])
            (seq 0 1))) (seq 0 1))) (seq 0 1)))%Q.
Proof.
  apply (calc_v_conv_entries toy_V_conv toy_w0 false 1 2 2 2 1 1 1 1);
    first [reflexivity | lia | (simpl; lia)].
Defined.

(** ** One pass of the loop over the fully-connected layers *)

Lemma calc_v_fc_values V W bs d n_prev n_next :
  shape V = [bs; d; n_prev] -> shape W = [n_prev; n_next] ->
  0 < d -> 0 < n_prev -> 0 < n_next ->
  exists V',
    calc_v_fc V W = Ok V' /\ shape V' = [bs; d; n_next] /\
    forall b j n, b < bs -> j < d -> n < n_next ->
      tget V' [b; j; n] = fc_product V W n_prev b j n.
Proof.
  intros HV HW Hd Hp Hn. unfold calc_v_fc, dim_at, py_index.
  rewrite HV, HW. cbn [nth_error bind unpack2].
  rewrite (reshape_infer V [Infer; D n_prev] (bs * d))
    by first [reflexivity | simpl; lia | rewrite HV; simpl; lia].
  cbn [bind]. unfold tf_matmul. cbn [shape map resolve]. rewrite HW.
  rewrite Nat.eqb_refl. cbn [bind].
  rewrite (reshape_infer _ [Infer; D d; D n_next] bs)
    by first [reflexivity | simpl; nia | rewrite shape_tbuild; simpl; lia].
  eexists. split; [reflexivity|]. split; [reflexivity|].
  intros b j n Hb Hj Hnn.
  match goal with
  | |- tget {| shape := _; data := data ?u |} _ = _ =>
      rewrite (tget_same_data u _ [b * d + j; n] [b; j; n])
        by first [reflexivity | rewrite shape_tbuild; simpl; lia]
  end.
  rewrite tget_tbuild by (repeat constructor; nia).
  unfold fc_product. f_equal. apply map_ext. intros p. f_equal.
  apply tget_same_data; [reflexivity|]. rewrite HV. simpl. lia.
Qed.

Lemma bshape_relu bs d n : bshape [bs; d; n] [bs; 1; n] = Some [bs; d; n].
Proof.
  unfold bshape. cbn [rev app bshape_rev]. rewrite bdim_1_r.
  unfold bdim. rewrite !Nat.eqb_refl. reflexivity.
Qed.

Lemma bidx_relu bs n b j k :
  b < bs -> k < n -> bidx [bs; 1; n] [b; j; k] = [b; 0; k].
Proof.
  intros Hb Hk. unfold bidx. cbn [length Nat.sub skipn combine map Nat.eqb].
  destruct (Nat.eqb_spec bs 1), (Nat.eqb_spec n 1);
    repeat f_equal; lia.
Qed.

(** X22.  One pass of the loop of lines 146 to 151, on sensitivities of
    shape [bs; d; n_prev], weights of shape [n_prev; n], pre-activations
    of shape [bs; n] and [m] distances per example so far.  The
    distances so far are kept and [n] are appended: for unit [k], the
    absolute value of its pre-activation over the norm, along the input
    axis, of the floored products of the sensitivities with the weights.
    The sensitivities passed on are those products, not floored, times the
    relu switches of the layer. *)
Theorem fc_step_single_entries sqrtQ o L i V dist_rb W z relu bs d n_prev n m :
  py_index (W_fc L) i = Ok W -> py_index (z_fc L) i = Ok z ->
  py_index (relus_fc L) i = Ok relu ->
  shape V = [bs; d; n_prev] -> shape W = [n_prev; n] -> shape z = [bs; n] ->
  shape relu = [bs; 1; n] -> shape dist_rb = [bs; m] ->
  0 < d -> 0 < n_prev -> 0 < n ->
  exists V' dist',
    fc_step_single sqrtQ o L i (V, dist_rb) = Ok (V', dist') /\
    shape V' = [bs; d; n] /\ shape dist' = [bs; m + n] /\
    forall b, b < bs ->
      (forall k, k < m -> tget dist' [b; k] = tget dist_rb [b; k]) /\
      (forall k, k < n ->
         tget dist' [b; m + k]
         = (Qabs (tget z [b; k])
            / vnorm sqrtQ o
                (map (fun j => floor_eps (fc_product V W n_prev b j k))
                     (seq 0 d)))%Q) /\
      (forall j k, j < d -> k < n ->
         tget V' [b; j; k]
         = (fc_product V W n_prev b j k * tget relu [b; 0%nat; k])%Q).
Proof.
  intros HW Hz Hr HV HWs Hzs Hrs Hds Hd Hp Hn.
  destruct (calc_v_fc_values V W bs d n_prev n HV HWs Hd Hp Hn)
    as (V1 & HV1 & Hs1 & Hv1).
  destruct (stabilise_entries V1) as (Vs & HVs & Hss & Hvs).
  rewrite Hs1 in Hss, Hvs.
  destruct (norm_axis1_entries sqrtQ Vs o bs d n Hss) as (nrm & Hnrm & Hsn & Hvn).
  unfold fc_step_single. rewrite HW. cbn [bind]. rewrite HV1. cbn [bind].
  rewrite HVs. cbn [bind]. rewrite Hz. cbn [bind]. rewrite Hnrm. cbn [bind].
  unfold tf_div, bop. unfold tf_abs at 1. cbn [tmap shape].
  rewrite Hzs, Hsn, bshape_same. cbn [bind].
  unfold tf_concat1. rewrite Hds, shape_tbuild, Nat.eqb_refl. cbn [shape_eqb andb bind].
  rewrite Hr. cbn [bind].
  unfold tf_mul, bop. rewrite Hs1, Hrs, bshape_relu. cbn [bind].
  eexists. eexists. split; [reflexivity|]. split; [apply shape_tbuild|].
  split; [apply shape_tbuild|].
  intros b Hb. split; [|split].
  - intros k Hk. rewrite tget_tbuild by (repeat constructor; lia).
    apply Nat.ltb_lt in Hk. now rewrite Hk.
  - intros k Hk. rewrite tget_tbuild by (repeat constructor; lia).
    assert (E : (m + k <? m) = false) by (apply Nat.ltb_ge; lia).
    rewrite E. replace (m + k - m) with k by lia.
    assert (Hbk : inb [b; k] [bs; n]) by (repeat constructor; lia).
    rewrite tget_tbuild by exact Hbk.
    rewrite !(bidx_same [bs; n]) by exact Hbk.
    unfold tf_abs. rewrite tget_tmap by reflexivity.
    cbn [tmap shape]. rewrite Hzs, (bidx_same [bs; n]) by exact Hbk.
    f_equal.
    rewrite Hvn by assumption. f_equal.
    apply map_ext_in. intros j Hj. apply in_seq in Hj.
    rewrite Hvs by (repeat constructor; lia).
    rewrite Hv1 by (try assumption; lia). reflexivity.
  - intros j k Hj Hk.
    assert (Hin : inb [b; j; k] [bs; d; n]) by (repeat constructor; lia).
    rewrite tget_tbuild by exact Hin.
    rewrite (bidx_same [bs; d; n]) by exact Hin.
    rewrite bidx_relu by assumption.
    now rewrite Hv1 by assumption.
Qed.

Lemma fc_step_single_entries_witness :
  exists V' dist',
    fc_step_single sqrt_floor OrdInf (layers_of toy_z_list toy_weights) 0
                   (toy_V_flat, toy_dist0) = Ok (V', dist') /\
    shape V' = [1; 4; 1] /\ shape dist' = [1; 4 + 1] /\
    forall b, b < 1 ->
      (forall k, k < 4 -> tget dist' [b; k] = tget toy_dist0 [b; k]) /\
      (forall k, k < 1 ->
         tget dist' [b; 4 + k]
         = (Qabs (tget toy_z1 [b; k])
            / vnorm sqrt_floor OrdInf
                (map (fun j => floor_eps (fc_product toy_V_flat toy_w1 4 b j k))
                     (seq 0 4)))%Q) /\
      (forall j k, j < 4 -> k < 1 ->
         tget V' [b; j; k]
         = (fc_product toy_V_flat toy_w1 4 b j k * tget toy_relu1 [b; 0%nat; k])%Q).
Proof.
  apply (fc_step_single_entries sqrt_floor OrdInf
           (layers_of toy_z_list toy_weights) 0 toy_V_flat toy_dist0
           toy_w1 toy_z1 toy_relu1 1 4 4 1 4);
    first [reflexivity | lia].
Defined.
(** * The claims on the two modes *)

(** ** The decision-boundary terms are not masked *)




(** ** The entry of the true class *)






(** ** The two modes on one input *)




(** ** The size of the terms *)





(** ** The passes of the loops of dual-norm mode *)








(** ** The pooling in a run of dual-norm mode *)



(** ** The floor in the passes of dual-norm mode *)
















(** * Properties of functions/utils.py *)

(** ** The distances [l1] and [l2] *)

Lemma reduce_sum_range1_all t bs rest :
  shape t = bs :: rest ->
  exists r,
    Utils.tf_reduce_sum_range1 (1 + length rest) t = Ok r /\ shape r = [bs] /\
    forall b, b < bs ->
      (tget r [b]
       == qsum (map (fun i => tget t (b :: unravel rest i)) (seq 0 (numel rest))))%Q.
Proof.
  intros Ht. unfold Utils.tf_reduce_sum_range1.
  destruct rest as [|n rest'].
  - cbn [length Nat.add Nat.leb]. exists t. split; [reflexivity|].
    split; [exact Ht|]. intros b Hb. simpl. ring.
  - cbn [length Nat.add]. change (S (S (length rest')) <=? 1) with false.
    cbv iota. unfold rank. rewrite Ht. cbn [length]. rewrite Nat.leb_refl.
    replace (S (S (length rest')) - 1) with (length (n :: rest'))
      by (simpl; lia).
    rewrite firstn_all, skipn_all.
    eexists. split; [reflexivity|]. split; [reflexivity|].
    intros b Hb. rewrite tget_tbuild by (repeat constructor; exact Hb).
    apply qsum_ext_eq. intros i _. now rewrite app_nil_r.
Qed.

Lemma l1_entries x y bs rest :
  shape x = bs :: rest -> shape y = bs :: rest ->
  exists r,
    Utils.l1 x y = Ok r /\ shape r = [bs] /\
    forall b, b < bs ->
      (tget r [b]
       == qsum (map (fun i => Qabs (tget x (b :: unravel rest i)
                                    - tget y (b :: unravel rest i)))
                    (seq 0 (numel rest))))%Q.
Proof.
  intros Hx Hy. unfold Utils.l1, tf_sub, bop. rewrite Hx, Hy, bshape_same.
  cbn [bind]. unfold rank. rewrite Hx. cbn [length].
  match goal with
  | |- context [Utils.tf_reduce_sum_range1 _ ?t] =>
      destruct (reduce_sum_range1_all t bs rest) as (r & Hr & Hs & Hv);
        [reflexivity|]
  end.
  change (S (length rest)) with (1 + length rest).
  exists r. split; [exact Hr|]. split; [exact Hs|].
  intros b Hb. rewrite (Hv b Hb).
  apply qsum_ext_eq. intros i Hi. apply in_seq in Hi.
  assert (Hin : inb (b :: unravel rest i) (bs :: rest)).
  { constructor; [exact Hb | apply unravel_inb; lia]. }
  unfold tf_abs. rewrite tget_tmap by reflexivity.
  rewrite tget_tbuild by exact Hin.
  rewrite !(bidx_same (bs :: rest)) by exact Hin. reflexivity.
Qed.

Lemma qsum_triangle (f g h : nat -> Q) l :
  (forall k, In k l -> (f k <= g k + h k)%Q) ->
  (qsum (map f l) <= qsum (map g l) + qsum (map h l))%Q.
Proof.
  induction l as [|k l IH]; intros H; simpl; [lra|].
  assert (Hk := H k (or_introl eq_refl)).
  assert (IH' := IH (fun j Hj => H j (or_intror Hj))). lra.
Qed.

(** X23.  On tensors of one shape [bs :: rest], [l1] returns one number
    per example, the sum over the other axes of the absolute differences.
    Per example it is a distance: it is not negative, it is zero exactly
    when the two examples have the same entries, it does not depend on the
    order of its arguments, and it obeys the triangle inequality. *)
Theorem l1_distance x y z bs rest :
  shape x = bs :: rest -> shape y = bs :: rest -> shape z = bs :: rest ->
  exists dxy dyx dxz dyz,
    Utils.l1 x y = Ok dxy /\ Utils.l1 y x = Ok dyx /\
    Utils.l1 x z = Ok dxz /\ Utils.l1 y z = Ok dyz /\
    shape dxy = [bs] /\
    forall b, b < bs ->
      (0 <= tget dxy [b])%Q /\
      ((tget dxy [b] == 0)%Q <->
       forall idx, inb idx rest -> (tget x (b :: idx) == tget y (b :: idx))%Q) /\
      (tget dxy [b] == tget dyx [b])%Q /\
      (tget dxz [b] <= tget dxy [b] + tget dyz [b])%Q.
Proof.
  intros Hx Hy Hz.
  destruct (l1_entries x y bs rest Hx Hy) as (dxy & Hxy & Hs & Vxy).
  destruct (l1_entries y x bs rest Hy Hx) as (dyx & Hyx & _ & Vyx).
  destruct (l1_entries x z bs rest Hx Hz) as (dxz & Hxz & _ & Vxz).
  destruct (l1_entries y z bs rest Hy Hz) as (dyz & Hyz & _ & Vyz).
  exists dxy, dyx, dxz, dyz. repeat (split; [assumption|]).
  intros b Hb. rewrite (Vxy b Hb), (Vyx b Hb), (Vxz b Hb), (Vyz b Hb).
  split; [|split; [|split]].
  - apply qsum_nonneg, Forall_forall. intros v Hv.
    apply in_map_iff in Hv. destruct Hv as (i & <- & _). apply Qabs_nonneg.
  - split.
    + intros H0 idx Hidx.
      pose proof (qsum_nonneg_zero _ _ (fun k _ => Qabs_nonneg _) H0
                    (ravel rest idx)) as Hk.
      cbv beta in Hk. rewrite unravel_ravel in Hk by exact Hidx.
      assert (Hr : In (ravel rest idx) (seq 0 (numel rest))).
      { apply in_seq. pose proof (ravel_lt _ _ Hidx). lia. }
      specialize (Hk Hr).
      pose proof (Qabs_nonneg (tget x (b :: idx) - tget y (b :: idx))).
      assert (Habs : forall v : Q, (Qabs v == 0)%Q -> (v == 0)%Q).
      { intros v Hv. pose proof (Qle_Qabs v). pose proof (Qle_Qabs (- v)).
        rewrite Qabs_opp in *. lra. }
      apply Habs in Hk. lra.
    + intros Hall. apply qsum_zero. intros i Hi. apply in_seq in Hi.
      rewrite (Hall (unravel rest i)) by (apply unravel_inb; lia).
      setoid_replace (tget y (b :: unravel rest i) - tget y (b :: unravel rest i))%Q
        with 0%Q by ring.
      reflexivity.
  - apply qsum_ext_eq. intros i _.
    setoid_replace (tget y (b :: unravel rest i) - tget x (b :: unravel rest i))%Q
      with (- (tget x (b :: unravel rest i) - tget y (b :: unravel rest i)))%Q
      by ring.
    now rewrite Qabs_opp.
  - apply qsum_triangle. intros i _.
    setoid_replace (tget x (b :: unravel rest i) - tget z (b :: unravel rest i))%Q
      with ((tget x (b :: unravel rest i) - tget y (b :: unravel rest i))
            + (tget y (b :: unravel rest i) - tget z (b :: unravel rest i)))%Q
      by ring.
    apply Qabs_triangle.
Qed.

Lemma l1_distance_witness :
  exists dxy dyx dxz dyz,
    Utils.l1 toy_x toy_z0 = Ok dxy /\ Utils.l1 toy_z0 toy_x = Ok dyx /\
    Utils.l1 toy_x toy5_x = Ok dxz /\ Utils.l1 toy_z0 toy5_x = Ok dyz /\
    shape dxy = [1] /\
    forall b, b < 1 ->
      (0 <= tget dxy [b])%Q /\
      ((tget dxy [b] == 0)%Q <->
       forall idx, inb idx [2; 2; 1] ->
         (tget toy_x (b :: idx) == tget toy_z0 (b :: idx))%Q) /\
      (tget dxy [b] == tget dyx [b])%Q /\
      (tget dxz [b] <= tget dxy [b] + tget dyz [b])%Q.
Proof.
  apply (l1_distance toy_x toy_z0 toy5_x 1 [2; 2; 1]); reflexivity.
Defined.

Lemma tget_tmap_in f t idx :
  ravel (shape t) idx < length (data t) -> tget (tmap f t) idx = f (tget t idx).
Proof.
  intros H. unfold tget, tmap. cbn [shape data].
  rewrite (nth_indep _ 0%Q (f 0%Q)) by (rewrite length_map; exact H).
  apply map_nth.
Qed.

Lemma length_data_tbuild sh g : length (data (tbuild sh g)) = numel sh.
Proof. unfold tbuild. cbn [data]. now rewrite length_map, length_seq. Qed.

Lemma l2_entries sqrtQ x y bs rest :
  (forall a b : Q, (a == b)%Q -> (sqrtQ a == sqrtQ b)%Q) ->
  shape x = bs :: rest -> shape y = bs :: rest ->
  exists r,
    Utils.l2 sqrtQ x y = Ok r /\ shape r = [bs] /\
    forall b, b < bs ->
      (tget r [b]
       == sqrtQ (qsum (map (fun i =>
                   (tget x (b :: unravel rest i) - tget y (b :: unravel rest i))
                   * (tget x (b :: unravel rest i) - tget y (b :: unravel rest i)))
                 (seq 0 (numel rest)))))%Q.
Proof.
  intros Hsq Hx Hy. unfold Utils.l2, tf_sub, bop. rewrite Hx, Hy, bshape_same.
  cbn [bind]. unfold rank. rewrite Hx. cbn [length].
  set (d := tbuild (bs :: rest) _).
  set (sq := tmap (fun v => (v * v)%Q) d).
  assert (Hsh : shape sq = bs :: rest) by reflexivity.
  assert (Hlen : length (data sq) = numel (bs :: rest)).
  { unfold sq, tmap. cbn [data]. rewrite length_map. apply length_data_tbuild. }
  assert (Hd : forall idx, inb idx (bs :: rest) ->
            tget sq idx
            = ((tget x idx - tget y idx) * (tget x idx - tget y idx))%Q).
  { intros idx Hidx. unfold sq. rewrite tget_tmap_in.
    - unfold d. rewrite tget_tbuild by exact Hidx.
      now rewrite !(bidx_same (bs :: rest)) by exact Hidx.
    - unfold d. rewrite shape_tbuild, length_data_tbuild.
      apply ravel_lt, Hidx. }
  destruct (reduce_sum_range1_all sq bs rest Hsh) as (s & Hr & Hs & Hv).
  change (S (length rest)) with (1 + length rest). rewrite Hr. cbn [bind].
  eexists. split; [reflexivity|]. split; [exact Hs|].
  intros b Hb.
  assert (Hls : ravel (shape s) [b] < length (data s)).
  { unfold Utils.tf_reduce_sum_range1 in Hr.
    destruct (1 + length rest <=? 1).
    - injection Hr as <-. rewrite Hlen, Hsh. apply ravel_lt.
      rewrite Hsh in Hs. rewrite Hs. repeat constructor. exact Hb.
    - unfold rank in Hr. rewrite Hsh in Hr.
      destruct (1 + length rest <=? length (bs :: rest)); [|discriminate].
      injection Hr as <-. rewrite shape_tbuild, length_data_tbuild.
      apply ravel_lt. rewrite shape_tbuild in Hs. rewrite Hs.
      repeat constructor. exact Hb. }
  rewrite tget_tmap_in by exact Hls. apply Hsq.
  rewrite (Hv b Hb). apply qsum_ext_eq. intros i Hi. apply in_seq in Hi.
  rewrite Hd; [reflexivity|].
  constructor; [exact Hb | apply unravel_inb; lia].
Qed.

(** X24.  On tensors of one shape [bs :: rest] and with a square root that
    gives equal results on equal numbers, [l2] returns one number per
    example, the square root of the sum over the other axes of the
    squared differences; it does not depend on the order of its
    arguments, and the distance of a tensor to itself is the square root
    of zero. *)
Theorem l2_distance sqrtQ x y bs rest :
  (forall a b : Q, (a == b)%Q -> (sqrtQ a == sqrtQ b)%Q) ->
  shape x = bs :: rest -> shape y = bs :: rest ->
  exists dxy dyx dxx,
    Utils.l2 sqrtQ x y = Ok dxy /\ Utils.l2 sqrtQ y x = Ok dyx /\
    Utils.l2 sqrtQ x x = Ok dxx /\ shape dxy = [bs] /\
    forall b, b < bs ->
      (tget dxy [b]
       == sqrtQ (qsum (map (fun i =>
                   (tget x (b :: unravel rest i) - tget y (b :: unravel rest i))
                   * (tget x (b :: unravel rest i) - tget y (b :: unravel rest i)))
                 (seq 0 (numel rest)))))%Q /\
      (tget dxy [b] == tget dyx [b])%Q /\
      (tget dxx [b] == sqrtQ 0)%Q.
Proof.
  intros Hsq Hx Hy.
  destruct (l2_entries sqrtQ x y bs rest Hsq Hx Hy) as (dxy & Hxy & Hs & Vxy).
  destruct (l2_entries sqrtQ y x bs rest Hsq Hy Hx) as (dyx & Hyx & _ & Vyx).
  destruct (l2_entries sqrtQ x x bs rest Hsq Hx Hx) as (dxx & Hxx & _ & Vxx).
  exists dxy, dyx, dxx. repeat (split; [assumption|]).
  intros b Hb. split; [apply Vxy, Hb|]. split.
  - rewrite (Vxy b Hb), (Vyx b Hb). apply Hsq.
    apply qsum_ext_eq. intros i _. ring.
  - rewrite (Vxx b Hb). apply Hsq. apply qsum_zero. intros i _. ring.
Qed.

Lemma sqrt_floor_comp (a b : Q) : (a == b)%Q -> (sqrt_floor a == sqrt_floor b)%Q.
Proof. intros H. unfold sqrt_floor. now rewrite H. Qed.

Lemma l2_distance_witness :
  exists dxy dyx dxx,
    Utils.l2 sqrt_floor toy_x toy5_x = Ok dxy /\
    Utils.l2 sqrt_floor toy5_x toy_x = Ok dyx /\
    Utils.l2 sqrt_floor toy_x toy_x = Ok dxx /\ shape dxy = [1] /\
    forall b, b < 1 ->
      (tget dxy [b]
       == sqrt_floor (qsum (map (fun i =>
            (tget toy_x (b :: unravel [2; 2; 1]%nat i)
             - tget toy5_x (b :: unravel [2; 2; 1]%nat i))
            * (tget toy_x (b :: unravel [2; 2; 1]%nat i)
               - tget toy5_x (b :: unravel [2; 2; 1]%nat i)))
            (seq 0 (numel [2; 2; 1]%nat)))))%Q /\
      (tget dxy [b] == tget dyx [b])%Q /\
      (tget dxx [b] == sqrt_floor 0)%Q.
Proof.
  apply (l2_distance sqrt_floor toy_x toy5_x 1 [2; 2; 1]);
    [exact sqrt_floor_comp | reflexivity | reflexivity].
Defined.

(** ** The normalisation of the images *)

(** X25.  [convert_types] returns the label as it is and an image of the
    same shape whose entries are those of the input divided by 127.5,
    minus 1: pixel values between 0 and 255 land between -1 and 1, and the
    pixel value is recovered as [(v + 1) * 127.5]. *)
Theorem convert_types_range (A : Type) (image : tensor) (label : A) :
  exists image',
    Utils.convert_types image label = Ok (image', label) /\
    shape image' = shape image /\
    forall idx, inb idx (shape image) ->
      (tget image' idx == tget image idx / (255 # 2) - 1)%Q /\
      ((0 <= tget image idx <= 255)%Q -> (-1 <= tget image' idx <= 1)%Q) /\
      (tget image idx == (tget image' idx + 1) * (255 # 2))%Q.
Proof.
  unfold Utils.convert_types, tf_div, tf_sub, bop. cbn [scalar shape].
  rewrite bshape_nil_r. cbn [bind]. rewrite shape_tbuild, bshape_nil_r.
  cbn [bind].
  eexists. split; [reflexivity|]. split; [apply shape_tbuild|].
  intros idx Hidx.
  rewrite tget_tbuild by exact Hidx.
  rewrite (bidx_same (shape image)) by exact Hidx. rewrite tget_scalar.
  rewrite tget_tbuild by exact Hidx.
  rewrite (bidx_same (shape image)) by exact Hidx. rewrite tget_scalar.
  set (v := tget image idx).
  assert (E : (v / (255 # 2) == v * (2 # 255))%Q) by (field; discriminate).
  split; [reflexivity|]. split.
  - intros Hv. rewrite E. lra.
  - rewrite E. field.
Qed.

Lemma convert_types_range_witness :
  exists image',
    Utils.convert_types toy_x 7 = Ok (image', 7) /\
    shape image' = shape toy_x /\
    forall idx, inb idx (shape toy_x) ->
      (tget image' idx == tget toy_x idx / (255 # 2) - 1)%Q /\
      ((0 <= tget toy_x idx <= 255)%Q -> (-1 <= tget image' idx <= 1)%Q) /\
      (tget toy_x idx == (tget image' idx + 1) * (255 # 2))%Q.
Proof.
  apply (convert_types_range nat toy_x 7).
Defined.

(** ** The table of the data sets *)

(** X26.  [load_data] returns for the four names "mnist", "svhn",
    "cifar10" and "cifar100" and raises [ValueError] for every other
    name, "imagenet" included.  In what it returns, [input_elements] is
    the product of the three sizes of [input_shape], there are 100 classes
    for "cifar100" and 10 otherwise, and [eps] is 0.2 for "mnist" and
    8/255 otherwise.  The argument [classes] reaches the loader of "mnist"
    only: for every other name [load_data] does with a list of classes
    what it does with none. *)
Theorem load_data_table (dataset info classes : Type)
    (ld_mnist : nat -> option classes -> dataset * info)
    (ld_svhn ld_cifar10 ld_cifar100 : nat -> dataset * info)
    (dataset_name : string) (batch_size : nat) (cls : option classes) :
  match Utils.load_data ld_mnist ld_svhn ld_cifar10 ld_cifar100
                        dataset_name batch_size cls with
  | Ok r =>
      In dataset_name Utils.valid_datasets /\
      (let '(h, w, c) := Utils.input_shape r in
       Utils.input_elements r = h * w * c) /\
      Utils.num_classes r
      = (if String.eqb dataset_name "cifar100" then 100 else 10) /\
      Utils.eps r
      = (if String.eqb dataset_name "mnist" then 2 # 10 else 8 # 255) /\
      (dataset_name <> "mnist"%string ->
       Utils.load_data ld_mnist ld_svhn ld_cifar10 ld_cifar100
                       dataset_name batch_size None = Ok r)
  | Raise e =>
      e = ValueError /\ ~ In dataset_name Utils.valid_datasets /\
      Utils.load_data ld_mnist ld_svhn ld_cifar10 ld_cifar100
                      "imagenet" batch_size cls = Raise ValueError
  end.
Proof.
  unfold Utils.load_data.
  destruct (String.eqb_spec dataset_name "mnist") as [->|H1].
  { destruct (ld_mnist batch_size cls). simpl.
    repeat (split; [auto|]). intros H; contradiction. }
  destruct (String.eqb_spec dataset_name "svhn") as [->|H2].
  { destruct (ld_svhn batch_size). simpl. auto 10. }
  destruct (String.eqb_spec dataset_name "cifar10") as [->|H3].
  { destruct (ld_cifar10 batch_size). simpl. auto 10. }
  destruct (String.eqb_spec dataset_name "cifar100") as [->|H4].
  { destruct (ld_cifar100 batch_size). simpl. auto 10. }
  split; [reflexivity|]. split; [|reflexivity].
  simpl. intros [E|[E|[E|[E|[]]]]]; congruence.
Qed.

Lemma load_data_table_witness :
  exists r,
    Utils.load_data (fun _ (_ : option (list nat)) => (tt, tt))
                    (fun _ => (tt, tt)) (fun _ => (tt, tt)) (fun _ => (tt, tt))
                    "svhn" 128 (Some [3; 8]) = Ok r /\
    Utils.input_elements r = 32 * 32 * 3 /\
    Utils.load_data (fun _ (_ : option (list nat)) => (tt, tt))
                    (fun _ => (tt, tt)) (fun _ => (tt, tt)) (fun _ => (tt, tt))
                    "svhn" 128 None = Ok r.
Proof.
  pose proof (load_data_table unit unit (list nat)
                (fun _ _ => (tt, tt)) (fun _ => (tt, tt)) (fun _ => (tt, tt))
                (fun _ => (tt, tt)) "svhn" 128 (Some [3; 8])) as H.
  destruct (Utils.load_data (fun _ (_ : option (list nat)) => (tt, tt))
              (fun _ => (tt, tt)) (fun _ => (tt, tt)) (fun _ => (tt, tt))
              "svhn" 128 (Some [3; 8])) as [r|e] eqn:E;
    [|vm_compute in E; discriminate].
  destruct H as (_ & _ & _ & _ & Hc).
  exists r. split; [reflexivity|]. split.
  - vm_compute in E. injection E as <-. reflexivity.
  - apply Hc. discriminate.
Defined.

(** ** Names: splitting and joining *)

Lemma py_split_cons sep s : exists a l, Utils.py_split sep s = a :: l.
Proof.
  induction s as [|c s IH]; simpl; [eauto|].
  destruct (Ascii.eqb c sep); [eauto|].
  destruct IH as (a & l & ->). eauto.
Qed.

(** Joining the fields that [split] returns gives the string back. *)
Lemma join_split sep s :
  String.concat (String sep EmptyString) (Utils.py_split sep s) = s.
Proof.
  induction s as [|c s IH]; [reflexivity|].
  simpl Utils.py_split.
  destruct (py_split_cons sep s) as (a & l & E). rewrite E in *.
  destruct (Ascii.eqb_spec c sep) as [->|Hne].
  - change (String.concat (String sep "") (EmptyString :: a :: l))
      with (String sep (String.concat (String sep "") (a :: l))).
    now rewrite IH.
  - rewrite <- IH. destruct l as [|b l]; reflexivity.
Qed.

Lemma prefix_app_sep sep sub : forall x r,
  Utils.py_in (String sep EmptyString) sub = false ->
  String.prefix sub (String.append x (String sep r)) = true ->
  String.prefix sub x = true.
Proof.
  induction sub as [|c sub IH]; intros x r Hs Hp; [now destruct x|].
  simpl in Hs. apply orb_false_iff in Hs. destruct Hs as [Hc Hs].
  destruct x as [|d x]; simpl in *.
  - destruct (ascii_dec c sep) as [->|Hne]; [|discriminate].
    destruct (ascii_dec sep sep); [|contradiction].
    destruct sub; discriminate.
  - destruct (ascii_dec c d); [|discriminate].
    eapply IH; eassumption.
Qed.

Lemma prefix_sep_head sep sub r :
  sub <> EmptyString ->
  Utils.py_in (String sep EmptyString) sub = false ->
  String.prefix sub (String sep r) = false.
Proof.
  intros Hne Hs. destruct sub as [|c sub]; [contradiction|].
  simpl in *. apply orb_false_iff in Hs. destruct Hs as [Hc _].
  destruct (ascii_dec c sep) as [->|]; [|reflexivity].
  destruct (ascii_dec sep sep); [|contradiction].
  destruct sub; discriminate.
Qed.

Lemma py_in_cons sub c s :
  Utils.py_in sub s = true -> Utils.py_in sub (String c s) = true.
Proof. intros H. simpl. rewrite H. apply orb_true_r. Qed.

(** A string that holds no separator and occurs in [x + sep + r] occurs
    in [x] or in [r]. *)
Lemma py_in_app_sep sep sub r : forall x,
  sub <> EmptyString ->
  Utils.py_in (String sep EmptyString) sub = false ->
  Utils.py_in sub (String.append x (String sep r)) = true ->
  Utils.py_in sub x = true \/ Utils.py_in sub r = true.
Proof.
  induction x as [|c x IH]; intros Hne Hs H.
  - right. simpl String.append in H.
    change (Utils.py_in sub (String sep r))
      with (String.prefix sub (String sep r) || Utils.py_in sub r) in H.
    rewrite (prefix_sep_head sep sub r Hne Hs) in H. exact H.
  - change (String.append (String c x) (String sep r))
      with (String c (String.append x (String sep r))) in H.
    change (Utils.py_in sub (String c (String.append x (String sep r))))
      with (String.prefix sub (String c (String.append x (String sep r)))
            || Utils.py_in sub (String.append x (String sep r))) in H.
    apply orb_true_iff in H. destruct H as [H|H].
    + left.
      change (Utils.py_in sub (String c x))
        with (String.prefix sub (String c x) || Utils.py_in sub x).
      apply orb_true_iff. left.
      apply (prefix_app_sep sep sub (String c x) r Hs H).
    + destruct (IH Hne Hs H) as [Hx|Hr]; [left | right; exact Hr].
      now apply py_in_cons.
Qed.

(** A string that holds no separator and occurs in a joined name occurs
    in one of its fields. *)
Lemma py_in_concat sep sub : forall parts,
  sub <> EmptyString ->
  Utils.py_in (String sep EmptyString) sub = false ->
  Utils.py_in sub (String.concat (String sep EmptyString) parts) = true ->
  exists part, In part parts /\ Utils.py_in sub part = true.
Proof.
  induction parts as [|a parts IH]; intros Hne Hs H.
  - simpl in H. destruct sub; [contradiction | discriminate].
  - destruct parts as [|b parts].
    + exists a. split; [now left | exact H].
    + change (String.concat (String sep EmptyString) (a :: b :: parts))
        with (String.append a
                (String sep (String.concat (String sep EmptyString) (b :: parts))))
        in H.
      destruct (py_in_app_sep sep sub _ a Hne Hs H) as [Ha|Hr].
      * exists a. split; [now left | exact Ha].
      * destruct (IH Hne Hs Hr) as (p & Hp & Hin).
        exists p. split; [now right | exact Hin].
Qed.

Lemma keras_field name :
  Utils.py_in ".keras" name = true ->
  exists part, In part (Utils.py_split "_" name) /\ Utils.py_in ".keras" part = true.
Proof.
  intros H. apply (py_in_concat "_" ".keras").
  - discriminate.
  - reflexivity.
  - now rewrite join_split.
Qed.

(** ** [find_model] *)

Ltac keras_contra :=
  match goal with
  | Hp : In _ _ |- _ =>
      simpl in Hp;
      repeat (destruct Hp as [Hp|Hp]; [subst; congruence|]);
      try contradiction; try (subst; discriminate)
  end.

Lemma find_model_file_spec ds b t dir f :
  Utils.py_in ".keras" ds = false -> Utils.py_in ".keras" b = false ->
  Utils.py_in ".keras" t = false ->
  (exists rest,
     Utils.find_model_file ds b t dir f = Ok (Some (Utils.os_path_join dir f)) /\
     model_file_of ds b t f rest /\ rest <> []) \/
  (Utils.find_model_file ds b t dir f = Ok None /\
   forall rest, ~ model_file_of ds b t f rest).
Proof.
  intros Hds Hb Ht. unfold Utils.find_model_file, model_file_of.
  destruct (Utils.py_in ".keras" f) eqn:Hk; cbn [negb];
    [|right; split; [reflexivity | intros rest [H _]; discriminate]].
  destruct (keras_field f Hk) as (part & Hpart & Hin).
  assert (Hno : Utils.py_in ".keras" "no" = false) by reflexivity.
  destruct (Utils.py_split "_" f) as [|f0 l]; [contradiction|].
  unfold py_index. cbn [nth_error bind].
  destruct (String.eqb_spec f0 ds) as [->|Hne]; cbn [negb];
    [|right; split; [reflexivity | intros rest [_ H]; congruence]].
  destruct l as [|f1 l]; [exfalso; keras_contra|]. cbn [nth_error bind].
  destruct (String.eqb_spec f1 b) as [->|Hne]; cbn [negb];
    [|right; split; [reflexivity | intros rest [_ H]; congruence]].
  destruct l as [|f2 l]; [exfalso; keras_contra|]. cbn [nth_error bind].
  destruct (String.eqb_spec f2 t) as [->|Hne]; cbn [negb];
    [|right; split; [reflexivity | intros rest [_ H]; congruence]].
  destruct l as [|f3 l]; [exfalso; keras_contra|]. cbn [nth_error bind].
  destruct (String.eqb_spec f3 "no") as [->|Hne];
    [|right; split; [reflexivity | intros rest [_ H]; congruence]].
  left. exists l. split; [reflexivity|]. split; [split; reflexivity|].
  intros ->. keras_contra.
Qed.

Lemma find_model_files_spec ds b t dir files :
  Utils.py_in ".keras" ds = false -> Utils.py_in ".keras" b = false ->
  Utils.py_in ".keras" t = false ->
  (exists f rest,
     Utils.find_model_files ds b t dir files
     = Ok (Some (Utils.os_path_join dir f)) /\
     In f files /\ model_file_of ds b t f rest /\ rest <> []) \/
  (Utils.find_model_files ds b t dir files = Ok None /\
   forall f rest, In f files -> ~ model_file_of ds b t f rest).
Proof.
  intros Hds Hb Ht. induction files as [|f files IH]; simpl.
  - right. split; [reflexivity | intros f rest []].
  - destruct (find_model_file_spec ds b t dir f Hds Hb Ht)
      as [(rest & -> & Hm & Hr) | (-> & Hnone)]; cbn [bind].
    + left. exists f, rest. auto.
    + destruct IH as [(f' & rest & -> & Hin & Hm & Hr) | (-> & Hall)].
      * left. exists f', rest. auto.
      * right. split; [reflexivity|].
        intros f' rest [<-|Hin]; [apply Hnone | now apply Hall].
Qed.

(** X27.  When none of its three arguments holds ".keras", [find_model]
    raises on no directory tree.  The path it returns is that of a file
    of the tree whose name holds ".keras" and splits at "_" into the data
    set, the base model, the top layer, "no" and at least one more field:
    the name is those fields joined by "_", so that a file named
    [<dataset>_<base>_<top>_no.keras] is not found.  It returns [None]
    when the tree holds no such file. *)
Theorem find_model_result dataset_name base_model top_layer walk :
  Utils.py_in ".keras" dataset_name = false ->
  Utils.py_in ".keras" base_model = false ->
  Utils.py_in ".keras" top_layer = false ->
  (exists dir_path dirnames filenames filename rest,
     Utils.find_model dataset_name base_model top_layer walk
     = Ok (Some (Utils.os_path_join dir_path filename)) /\
     In (dir_path, dirnames, filenames) walk /\ In filename filenames /\
     model_file_of dataset_name base_model top_layer filename rest /\
     rest <> [] /\
     filename
     = String.concat "_" (dataset_name :: base_model :: top_layer
                          :: "no"%string :: rest)) \/
  (Utils.find_model dataset_name base_model top_layer walk = Ok None /\
   forall dir_path dirnames filenames filename rest,
     In (dir_path, dirnames, filenames) walk -> In filename filenames ->
     ~ model_file_of dataset_name base_model top_layer filename rest).
Proof.
  intros Hds Hb Ht. induction walk as [|[[dir dirs] files] walk IH]; simpl.
  - right. split; [reflexivity | intros ? ? ? ? ? []].
  - destruct (find_model_files_spec dataset_name base_model top_layer dir files
                Hds Hb Ht)
      as [(f & rest & -> & Hin & Hm & Hr) | (-> & Hnone)]; cbn [bind].
    + left. exists dir, dirs, files, f, rest.
      split; [reflexivity|]. split; [now left|]. split; [exact Hin|].
      split; [exact Hm|]. split; [exact Hr|].
      destruct Hm as [_ Hsplit].
      rewrite <- (join_split "_" f) at 1. now rewrite Hsplit.
    + destruct IH as [(dir' & dirs' & files' & f & rest & -> & Hw & Hin & Hm
                       & Hr & Hj) | (-> & Hall)].
      * left. exists dir', dirs', files', f, rest.
        split; [reflexivity|]. split; [now right|]. auto.
      * right. split; [reflexivity|].
        intros dir' dirs' files' f rest [E|Hw] Hin.
        -- injection E as <- <- <-. now apply Hnone.
        -- eapply Hall; eassumption.
Qed.

Lemma find_model_result_witness :
  (exists dir_path dirnames filenames filename rest,
     Utils.find_model "mnist" "LeNet5" "relu" toy_walk
     = Ok (Some (Utils.os_path_join dir_path filename)) /\
     In (dir_path, dirnames, filenames) toy_walk /\
     In filename filenames /\
     model_file_of "mnist" "LeNet5" "relu" filename rest /\
     rest <> [] /\
     filename
     = String.concat "_" ("mnist" :: "LeNet5" :: "relu" :: "no" :: rest)%string) \/
  (Utils.find_model "mnist" "LeNet5" "relu" toy_walk = Ok None /\
   forall dir_path dirnames filenames filename rest,
     In (dir_path, dirnames, filenames) toy_walk ->
     In filename filenames ->
     ~ model_file_of "mnist" "LeNet5" "relu" filename rest).
Proof.
  apply find_model_result; reflexivity.
Defined.

(** ** [find_directories_with_keyphrase] *)

Ltac eqb_cases H :=
  repeat (cbn [Utils.dict_get] in H;
          match type of H with
          | context [String.eqb ?a ?b] =>
              destruct (String.eqb_spec a b); [subst|]
          end);
  cbn [Utils.dict_get] in H.

(** The one answer of the table that is 1. *)
Lemma table_one f0 f1 f2 f3 t0 t1 t2 :
  Utils.dict_get Utils.models_to_attack f0 = Utils.Returns t0 ->
  Utils.dict_get t0 f1 = Utils.Returns t1 ->
  Utils.dict_get t1 f2 = Utils.Returns t2 ->
  Utils.dict_get t2 f3 = Utils.Returns 1 ->
  (f0 = "mnist"%string \/ f0 = "svhn"%string) /\
  f1 = "ModifiedLeNet5"%string /\ f2 = "MMRModel"%string /\ f3 = "no"%string.
Proof.
  intros H0 H1 H2 H3. unfold Utils.models_to_attack in H0.
  eqb_cases H0; try discriminate; injection H0 as <-;
    eqb_cases H1; try discriminate; injection H1 as <-;
    eqb_cases H2; try discriminate; injection H2 as <-;
    eqb_cases H3; try discriminate; auto.
Qed.

Lemma dict_set_forall (P : string * string -> Prop) d k v :
  Forall P d -> P (k, v) -> Forall P (Utils.dict_set d k v).
Proof.
  intros Hd Hk. induction Hd as [|[k' v'] d Hp Hd IH]; simpl.
  - constructor; [exact Hk | constructor].
  - destruct (String.eqb_spec k' k) as [->|Hne].
    + constructor; assumption.
    + constructor; assumption.
Qed.

Lemma attack_entry_keeps ds dir name result result' :
  Utils.attack_entry ds dir name result = Utils.Returns result' ->
  Forall (attacked ds) result -> Forall (attacked ds) result'.
Proof.
  unfold Utils.attack_entry, Utils.list_get. intros H Hall.
  destruct (Utils.py_split "_" name) as [|f0 [|f1 [|f2 l]]] eqn:E;
    cbn [nth_error Utils.obind] in H; try discriminate H.
  - destruct (negb (Utils.py_mem f0 Utils.valid_datasets));
      [injection H as <-; exact Hall | discriminate].
  - destruct (negb (Utils.py_mem f0 Utils.valid_datasets));
      [injection H as <-; exact Hall|].
    destruct (negb (Utils.py_mem f1 Utils.valid_base_models));
      [injection H as <-; exact Hall | discriminate].
  - destruct (negb (Utils.py_mem f0 Utils.valid_datasets));
      [injection H as <-; exact Hall|].
    destruct (negb (Utils.py_mem f1 Utils.valid_base_models));
      [injection H as <-; exact Hall|].
    destruct (negb (Utils.py_mem f2 Utils.valid_top_layers));
      [injection H as <-; exact Hall|].
    destruct (Utils.py_in ds name) eqn:Hin; [|injection H as <-; exact Hall].
    destruct (Utils.dict_get Utils.models_to_attack f0) as [t0|] eqn:H0;
      [|discriminate]. cbn [Utils.obind] in H.
    destruct (Utils.dict_get t0 f1) as [t1|] eqn:H1; [|discriminate].
    cbn [Utils.obind] in H.
    destruct (Utils.dict_get t1 f2) as [t2|] eqn:H2; [|discriminate].
    cbn [Utils.obind] in H.
    destruct l as [|f3 l]; cbn [nth_error Utils.obind] in H; [discriminate|].
    destruct (Utils.dict_get t2 f3) as [answer|] eqn:H3; [|discriminate].
    cbn [Utils.obind] in H.
    destruct (Nat.eqb_spec answer 1) as [->|Hne];
      [|injection H as <-; exact Hall].
    injection H as <-.
    destruct (table_one _ _ _ _ _ _ _ H0 H1 H2 H3) as (Hf0 & -> & -> & ->).
    apply dict_set_forall; [exact Hall|].
    exists dir, f0, l. auto.
Qed.

Lemma attack_dirnames_keeps ds dir dirnames : forall result result',
  Utils.attack_dirnames ds dir dirnames result = Utils.Returns result' ->
  Forall (attacked ds) result -> Forall (attacked ds) result'.
Proof.
  induction dirnames as [|d dirnames IH]; intros result result' H Hall;
    simpl in H.
  - now injection H as <-.
  - destruct (Utils.attack_entry ds dir d result) as [r|] eqn:E; [|discriminate].
    eapply IH; [exact H|]. eapply attack_entry_keeps; eassumption.
Qed.

Lemma attack_filenames_keeps ds dir filenames : forall result result',
  Utils.attack_filenames ds dir filenames result = Utils.Returns result' ->
  Forall (attacked ds) result -> Forall (attacked ds) result'.
Proof.
  induction filenames as [|f filenames IH]; intros result result' H Hall;
    simpl in H.
  - now injection H as <-.
  - destruct (negb (Utils.py_in ".keras" f)); [eapply IH; eassumption|].
    destruct (Utils.attack_entry ds dir f result) as [r|] eqn:E; [|discriminate].
    eapply IH; [exact H|]. eapply attack_entry_keeps; eassumption.
Qed.

(** X28.  Whatever the directory tree, every entry of the dictionary that
    [find_directories_with_keyphrase] returns is for a name that holds the
    name of the data set asked for and whose first four fields are
    "mnist" or "svhn", "ModifiedLeNet5", "MMRModel" and "no", the one
    answer of [models_to_attack] that is 1; its value is the path of that
    name in a directory. *)
Theorem find_directories_with_keyphrase_entries walk dataset_name result :
  Utils.find_directories_with_keyphrase walk dataset_name
  = Utils.Returns result ->
  Forall (attacked dataset_name) result.
Proof.
  unfold Utils.find_directories_with_keyphrase.
  assert (G : forall walk r0 r,
            Utils.attack_walk dataset_name walk r0 = Utils.Returns r ->
            Forall (attacked dataset_name) r0 -> Forall (attacked dataset_name) r).
  { clear. induction walk as [|[[dir dirs] files] walk IH]; intros r0 r H Hall;
      simpl in H.
    - now injection H as <-.
    - destruct (Utils.attack_dirnames dataset_name dir dirs r0) as [r1|] eqn:E1;
        [|discriminate]. cbn [Utils.obind] in H.
      destruct (Utils.attack_filenames dataset_name dir files r1) as [r2|] eqn:E2;
        [|discriminate]. cbn [Utils.obind] in H.
      eapply IH; [exact H|].
      eapply attack_filenames_keeps; [exact E2|].
      eapply attack_dirnames_keeps; eassumption. }
  intros H. eapply G; [exact H | constructor].
Qed.

Lemma find_directories_with_keyphrase_entries_witness :
  exists result,
    Utils.find_directories_with_keyphrase toy_attack_walk "mnist"
    = Utils.Returns result /\
    length result = 2 /\ Forall (attacked "mnist") result.
Proof.
  eexists. split; [vm_compute; reflexivity|]. split; [reflexivity|].
  apply (find_directories_with_keyphrase_entries toy_attack_walk "mnist").
  vm_compute. reflexivity.
Defined.

Lemma py_mem_In x l : In x l -> Utils.py_mem x l = true.
Proof.
  intros H. unfold Utils.py_mem. apply existsb_exists.
  exists x. split; [exact H | apply String.eqb_refl].
Qed.

Lemma enabled_lookup f0 :
  f0 = "mnist"%string \/ f0 = "svhn"%string ->
  exists t0 t1,
    Utils.dict_get Utils.models_to_attack f0 = Utils.Returns t0 /\
    Utils.dict_get t0 "ModifiedLeNet5" = Utils.Returns t1 /\
    Utils.dict_get t1 "MMRModel"
    = Utils.Returns [("yes"%string, 0); ("no"%string, 1)] /\
    Utils.py_mem f0 Utils.valid_datasets = true.
Proof.
  intros [-> | ->]; eexists; eexists;
    (split; [reflexivity|]); (split; [reflexivity|]); split; reflexivity.
Qed.

(** X29.  [find_directories_with_keyphrase] raises on the first directory
    name it meets when that name has one or two fields, a valid data set
    and, if present, a valid base model: the test of line 233 reads a
    field that the name does not have, an [IndexError].  It raises
    [KeyError] when the name holds the name of the data set asked for and
    its fields are "mnist" or "svhn", "ModifiedLeNet5", "MMRModel" and a
    fourth field other than "yes" and "no". *)
Theorem find_directories_with_keyphrase_raises dataset_name dir_path dirname
    dirnames filenames walk :
  let fields := Utils.py_split "_" dirname in
  let tree := (dir_path, dirname :: dirnames, filenames) :: walk in
  (((exists f0, fields = [f0] /\ In f0 Utils.valid_datasets) \/
    (exists f0 f1, fields = [f0; f1] /\ In f0 Utils.valid_datasets /\
                   In f1 Utils.valid_base_models)) ->
   Utils.find_directories_with_keyphrase tree dataset_name
   = Utils.Raises Utils.PyIndexError) /\
  ((exists f0 f3 rest,
      fields = f0 :: "ModifiedLeNet5"%string :: "MMRModel"%string :: f3 :: rest /\
      (f0 = "mnist"%string \/ f0 = "svhn"%string) /\
      f3 <> "yes"%string /\ f3 <> "no"%string /\
      Utils.py_in dataset_name dirname = true) ->
   Utils.find_directories_with_keyphrase tree dataset_name
   = Utils.Raises Utils.PyKeyError).
Proof.
  intros fields tree. unfold tree, fields.
  unfold Utils.find_directories_with_keyphrase.
  cbn [Utils.attack_walk Utils.attack_dirnames].
  unfold Utils.attack_entry, Utils.list_get.
  split.
  - intros [(f0 & -> & H0) | (f0 & f1 & -> & H0 & H1)];
      cbn [nth_error Utils.obind]; rewrite (py_mem_In _ _ H0); cbn [negb].
    + reflexivity.
    + rewrite (py_mem_In _ _ H1). reflexivity.
  - intros (f0 & f3 & rest & -> & H0 & Hy & Hn & Hin).
    cbn [nth_error Utils.obind]. rewrite Hin.
    assert (Ey : String.eqb "yes" f3 = false)
      by (apply String.eqb_neq; congruence).
    assert (En : String.eqb "no" f3 = false)
      by (apply String.eqb_neq; congruence).
    destruct (enabled_lookup f0 H0) as (t0 & t1 & E0 & E1 & E2 & Ev).
    rewrite Ev. cbn [negb].
    change (Utils.py_mem "ModifiedLeNet5" Utils.valid_base_models) with true.
    change (Utils.py_mem "MMRModel" Utils.valid_top_layers) with true.
    cbn [negb]. rewrite E0. cbn [Utils.obind]. rewrite E1. cbn [Utils.obind].
    rewrite E2. cbn [Utils.obind Utils.dict_get]. rewrite Ey, En. reflexivity.
Qed.

Lemma find_directories_with_keyphrase_raises_witness :
  Utils.find_directories_with_keyphrase
    [("root", ["mnist"], [])]%string "mnist"
  = Utils.Raises Utils.PyIndexError /\
  Utils.find_directories_with_keyphrase
    [("root", ["mnist_ModifiedLeNet5_MMRModel_no.keras"], [])]%string "mnist"
  = Utils.Raises Utils.PyKeyError.
Proof.
  split.
  - apply (proj1 (find_directories_with_keyphrase_raises
                    "mnist" "root" "mnist" [] [] [])).
    left. exists "mnist"%string. split; [reflexivity | now left].
  - apply (proj2 (find_directories_with_keyphrase_raises
                    "mnist" "root" "mnist_ModifiedLeNet5_MMRModel_no.keras"
                    [] [] [])).
    exists "mnist"%string, "no.keras"%string, [].
    split; [reflexivity|]. split; [now left|].
    split; [discriminate|]. split; [discriminate | reflexivity].
Defined.
